(** * cargame: the game engine of [cargame.c], embedded and verified

    The C program keeps its session in five process-wide variables ([car],
    [curses], [game], [goal], [timer]).  They are gathered here in one record,
    [World], and every C function becomes a function over it: functions that
    cannot fail are plain [World -> World] transformers, functions that may
    call [DIE] or block on the keyboard live in the monad [M].

    What the C library and the terminal decide (the display width of a string,
    the content of a screen cell, whether [timer_settime] accepts a value) is
    not part of the program; it is a field of the class [Platform], over
    which every definition and theorem is stated.  Memory is taken to be
    there when asked for: [_malloc] and [_realloc] do not fail but for
    [realloc(p, 0)], whose result the platform decides.  A block has the size
    it was asked with: a write past the end of one, and a second [free] of
    one, end the run as the undefined behaviour they are. *)

From Stdlib Require Import ZArith List Bool String Lia.
Import ListNotations.
Local Open Scope Z_scope.

(** ** Machine integers

    Values of C integer types are kept in [Z]; every arithmetic operation of
    the source is followed by the wrap-around of its type, so that nothing is
    proved about a value the machine cannot hold. *)

Definition INT_MAX : Z := 2147483647.
Definition INT_MIN : Z := - INT_MAX - 1.

(** Two's complement wrap-around into [- max - 1 .. max]. *)
Definition wrap (max z : Z) : Z :=
  (z + (max + 1)) mod (2 * (max + 1)) - (max + 1).

(** An [int] result. *)
Definition int (z : Z) : Z := wrap INT_MAX z.

Definition wchar_t := Z.
Definition wint_t := Z.

(** ** config.h *)

Definition chars_car_left : wchar_t := 8592.   (* L'←' *)
Definition chars_car_right : wchar_t := 8594.  (* L'→' *)
Definition chars_car_up : wchar_t := 8593.     (* L'↑' *)
Definition chars_car_down : wchar_t := 8595.   (* L'↓' *)
Definition chars_goal : wchar_t := 120.        (* L'x' *)
Definition chars_start : wchar_t := 64.        (* L'@' *)

Definition speed_step_width : Z := 10000000.
Definition start_speed : Z := 250000000.
Definition default_borders : bool := true.

(** Character constants used by the engine. *)
Definition SPACE : wchar_t := 32.
Definition NEWLINE : wchar_t := 10.
Definition NUL : wchar_t := 0.

(** ** The data of the session *)

Inductive Direction := LEFT | RIGHT | UP | DOWN.

Record Pos := mkPos { pos_x : Z; pos_y : Z }.

(** A styled character: the wide character and the number of its colour pair. *)
Record cchar_t := mkCchar { cc_wch : wchar_t; cc_pair : Z }.

Record Car := mkCar {
  car_car : cchar_t;
  car_left : cchar_t;
  car_right : cchar_t;
  car_up : cchar_t;
  car_down : cchar_t;
  car_start_direction : Direction;
  car_direction : Direction;
  car_pos : Pos;
  car_start_pos : Pos;
  car_old_pos : Pos
}.

Record Curses := mkCurses { curses_cols : Z; curses_lines : Z }.

Record Game := mkGame {
  game_field : list (list wchar_t);
  game_borders : bool;
  game_need_resize : Z;
  game_need_terminate : Z;
  game_cols : Z;
  game_lines : Z;
  game_x_offset : Z;
  game_y_offset : Z
}.

Record Goal := mkGoal { goal_goal : cchar_t; goal_pos : Pos }.

Record timespec := mkTimespec { tv_sec : Z; tv_nsec : Z }.
Record itimerspec := mkItimerspec { it_interval : timespec; it_value : timespec }.

Record Timer := mkTimer { timer_its : itimerspec; timer_finished : Z }.

(** Calls made to the rendering surface, the only trace the engine leaves
    outside its own variables. *)
Inductive Action :=
| Mvwadd_wch (y x : Z) (c : cchar_t)     (* a styled character is written *)
| Mvwaddch (y x : Z) (c : wchar_t)       (* a plain character is written *)
| Mvwaddwstr (y x : Z) (s : list wchar_t)(* a row of the level is written *)
| Doupdate                               (* both windows refreshed *)
| Mscl (msg : string)                    (* text on the message line *)
| Mscl_clear                             (* message line erased *)
| Mvwinnwstr (y x : Z)                   (* a cell is read back *)
| Wresize (lines cols : Z).              (* windows resized and rebuilt *)

Record World := mkWorld {
  car : Car;
  curses : Curses;
  game : Game;
  goal : Goal;
  timer : Timer;
  COLS : Z;                 (* terminal size as curses reports it *)
  LINES : Z;
  surface : list Action     (* rendering calls so far, newest first *)
}.

(** Field updates. *)
Definition set_car (c : Car) (w : World) : World :=
  mkWorld c (curses w) (game w) (goal w) (timer w) (COLS w) (LINES w) (surface w).
Definition set_curses (c : Curses) (w : World) : World :=
  mkWorld (car w) c (game w) (goal w) (timer w) (COLS w) (LINES w) (surface w).
Definition set_game (g : Game) (w : World) : World :=
  mkWorld (car w) (curses w) g (goal w) (timer w) (COLS w) (LINES w) (surface w).
Definition set_goal (g : Goal) (w : World) : World :=
  mkWorld (car w) (curses w) (game w) g (timer w) (COLS w) (LINES w) (surface w).
Definition set_timer (t : Timer) (w : World) : World :=
  mkWorld (car w) (curses w) (game w) (goal w) t (COLS w) (LINES w) (surface w).
Definition set_term (c l : Z) (w : World) : World :=
  mkWorld (car w) (curses w) (game w) (goal w) (timer w) c l (surface w).
Definition emit (a : Action) (w : World) : World :=
  mkWorld (car w) (curses w) (game w) (goal w) (timer w) (COLS w) (LINES w)
          (a :: surface w).

Definition set_car_car (g : cchar_t) (c : Car) : Car :=
  mkCar g (car_left c) (car_right c) (car_up c) (car_down c)
        (car_start_direction c) (car_direction c)
        (car_pos c) (car_start_pos c) (car_old_pos c).
Definition set_car_start_direction (d : Direction) (c : Car) : Car :=
  mkCar (car_car c) (car_left c) (car_right c) (car_up c) (car_down c)
        d (car_direction c) (car_pos c) (car_start_pos c) (car_old_pos c).
Definition set_car_direction (d : Direction) (c : Car) : Car :=
  mkCar (car_car c) (car_left c) (car_right c) (car_up c) (car_down c)
        (car_start_direction c) d (car_pos c) (car_start_pos c) (car_old_pos c).
Definition set_car_pos (p : Pos) (c : Car) : Car :=
  mkCar (car_car c) (car_left c) (car_right c) (car_up c) (car_down c)
        (car_start_direction c) (car_direction c) p (car_start_pos c) (car_old_pos c).
Definition set_car_start_pos (p : Pos) (c : Car) : Car :=
  mkCar (car_car c) (car_left c) (car_right c) (car_up c) (car_down c)
        (car_start_direction c) (car_direction c) (car_pos c) p (car_old_pos c).
Definition set_car_old_pos (p : Pos) (c : Car) : Car :=
  mkCar (car_car c) (car_left c) (car_right c) (car_up c) (car_down c)
        (car_start_direction c) (car_direction c) (car_pos c) (car_start_pos c) p.

Definition set_pos_x (v : Z) (p : Pos) : Pos := mkPos v (pos_y p).
Definition set_pos_y (v : Z) (p : Pos) : Pos := mkPos (pos_x p) v.

(** C truth of an integer. *)
Definition nonzero (z : Z) : bool := negb (z =? 0).

(** ** Macros *)

Definition GAMEWIN_LINES (w : World) : Z :=
  if game_borders (game w) then int (curses_lines (curses w) - 3)
  else int (curses_lines (curses w) - 1).

Definition GAMEWIN_COLS (w : World) : Z :=
  if game_borders (game w) then int (curses_cols (curses w) - 2)
  else curses_cols (curses w).

(** ** The car *)

Definition car_go_down (w : World) : World :=
  let p := car_pos (car w) in
  if negb (game_borders (game w)) then
    set_car (set_car_pos
      (set_pos_y (if int (pos_y p + 1) =? GAMEWIN_LINES w then 0
                  else int (pos_y p + 1)) p) (car w)) w
  else
    set_car (set_car_pos (set_pos_y (int (pos_y p + 1)) p) (car w)) w.

Definition car_go_left (w : World) : World :=
  let p := car_pos (car w) in
  if negb (game_borders (game w)) then
    set_car (set_car_pos
      (set_pos_x (if nonzero (pos_x p) then int (pos_x p - 1)
                  else int (GAMEWIN_COLS w - 1)) p) (car w)) w
  else
    set_car (set_car_pos (set_pos_x (int (pos_x p - 1)) p) (car w)) w.

Definition car_go_right (w : World) : World :=
  let p := car_pos (car w) in
  if negb (game_borders (game w)) then
    set_car (set_car_pos
      (set_pos_x (if int (pos_x p + 1) =? GAMEWIN_COLS w then 0
                  else int (pos_x p + 1)) p) (car w)) w
  else
    set_car (set_car_pos (set_pos_x (int (pos_x p + 1)) p) (car w)) w.

Definition car_go_up (w : World) : World :=
  let p := car_pos (car w) in
  if negb (game_borders (game w)) then
    set_car (set_car_pos
      (set_pos_y (if nonzero (pos_y p) then int (pos_y p - 1)
                  else int (GAMEWIN_LINES w - 1)) p) (car w)) w
  else
    set_car (set_car_pos (set_pos_y (int (pos_y p - 1)) p) (car w)) w.

Definition car_move (w : World) : World :=
  match car_direction (car w) with
  | DOWN => car_go_down w
  | LEFT => car_go_left w
  | RIGHT => car_go_right w
  | UP => car_go_up w
  end.

Definition car_position_changed (w : World) : bool :=
  negb (pos_x (car_pos (car w)) =? pos_x (car_old_pos (car w)))
  || negb (pos_y (car_pos (car w)) =? pos_y (car_old_pos (car w))).

Definition car_set_direction (direction : Direction) (w : World) : World :=
  match direction with
  | DOWN => set_car (set_car_car (car_down (car w)) (car w)) w
  | LEFT => set_car (set_car_car (car_left (car w)) (car w)) w
  | RIGHT => set_car (set_car_car (car_right (car w)) (car w)) w
  | UP => set_car (set_car_car (car_up (car w)) (car w)) w
  end.

Definition car_reset (w : World) : World :=
  let start := car_start_pos (car w) in
  let w1 := set_car (set_car_pos start (set_car_old_pos start (car w))) w in
  let w2 := set_car (set_car_direction (car_start_direction (car w1)) (car w1)) w1 in
  car_set_direction (car_direction (car w2)) w2.

Definition car_turn_left (w : World) : World :=
  let w1 :=
    match car_direction (car w) with
    | DOWN => set_car (set_car_direction RIGHT (car w)) w
    | LEFT => set_car (set_car_direction DOWN (car w)) w
    | RIGHT => set_car (set_car_direction UP (car w)) w
    | UP => set_car (set_car_direction LEFT (car w)) w
    end in
  car_set_direction (car_direction (car w1)) w1.

Definition car_turn_right (w : World) : World :=
  let w1 :=
    match car_direction (car w) with
    | DOWN => set_car (set_car_direction LEFT (car w)) w
    | LEFT => set_car (set_car_direction UP (car w)) w
    | RIGHT => set_car (set_car_direction DOWN (car w)) w
    | UP => set_car (set_car_direction RIGHT (car w)) w
    end in
  car_set_direction (car_direction (car w1)) w1.

(** ** Failure, input and the monad of the engine *)

(** What ends a run for good: the contexts in which the program calls
    [DIE], and the two places where it leaves the behaviour C defines.  There
    the run is followed no further. *)
Inductive Fatal :=
| BufferOverrun        (* no DIE: a write past the end of a buffer *)
| DoubleFree           (* no DIE: free() of a block that has been freed *)
| Strerror             (* DIE(strerror(errno)) after a failed library call *)
| TerminalTooSmall     (* "ERROR: Your terminal is too small for this level." *)
| CarOutOfScreen       (* "ERROR: Car out of screen after resize." *)
| ResizeFailed         (* "ERROR: failed to resize properly." *)
| NcursesInit          (* "ERROR: ncurses could not be intialized properly." *)
| ReadError            (* "Error while trying to read level file." *)
| NoLines              (* "ERROR: level file contains no lines." *)
| DimensionTooBig      (* "ERROR: level dimension too big." *)
| WcswidthFailed       (* "ERROR: wcswidth() returned -1." *)
| GoalCount (n : Z)    (* "ERROR: %zu goal positions in your level file. (Must be 1)." *)
| StartCount (n : Z)   (* "ERROR: %zu start positions in your level file. (Must be 1)." *)
| Terminated.          (* DIE(NULL) *)

Inductive Signal := SIGALRM | SIGCONT | SIGINT | SIGTERM.

(** What one call of [wget_wch] can do. *)
Inductive Event :=
| Typed (wch : wint_t)                    (* OK: a character *)
| Pressed (code : wint_t)                 (* KEY_CODE_YES: a function key *)
| Resized (cols lines : Z)                (* KEY_CODE_YES with KEY_RESIZE, terminal has a new size *)
| Signalled (sigs : list Signal) (wch : wint_t) (* ERR, errno = EINTR, after the handlers ran *)
| Failed (wch : wint_t).                  (* ERR, any other errno *)

Inductive Window := gamewin | msclwin.

(** curses.h *)
Definition ERR : Z := -1.
Definition OK : Z := 0.
Definition KEY_CODE_YES : Z := 256.
Definition KEY_DOWN : wint_t := 258.
Definition KEY_UP : wint_t := 259.
Definition KEY_LEFT : wint_t := 260.
Definition KEY_RIGHT : wint_t := 261.
Definition KEY_RESIZE : wint_t := 410.

(** The result of a computation: it returns, with the input left and the new
    session; or the run has ended, through [DIE] or in undefined behaviour; or
    it sits in a read that will never deliver anything. *)
Inductive Res (A : Type) : Type :=
| Ok (a : A) (inp : list Event) (w : World)
| Died (e : Fatal) (w : World)
| Starved (w : World).
Arguments Ok {A} a inp w.
Arguments Died {A} e w.
Arguments Starved {A} w.

Definition M (A : Type) : Type := list Event -> World -> Res A.

Definition ret {A : Type} (a : A) : M A := fun inp w => Ok a inp w.

Definition bind {A B : Type} (m : M A) (k : A -> M B) : M B :=
  fun inp w =>
    match m inp w with
    | Ok a inp' w' => k a inp' w'
    | Died e w' => Died e w'
    | Starved w' => Starved w'
    end.

Definition get : M World := fun inp w => Ok w inp w.
Definition exec (f : World -> World) : M unit := fun inp w => Ok tt inp (f w).
Definition DIE {A : Type} (e : Fatal) : M A := fun _ w => Died e w.

(** The program does what C gives no meaning to. *)
Definition UNDEFINED {A : Type} (e : Fatal) : M A := fun _ w => Died e w.

Declare Scope engine_scope.
Delimit Scope engine_scope with engine.
Notation "x <- m ;; k" := (bind m (fun x => k))
  (at level 61, m at next level, right associativity) : engine_scope.
Notation "m ;; k" := (bind m (fun _ => k))
  (at level 61, right associativity) : engine_scope.
Local Open Scope engine_scope.

(** How a computation ended; [Exited f] is the end of the run at [f]. *)
Inductive Outcome := Returned | Exited (f : Fatal) | Waiting.

Definition outcome {A : Type} (r : Res A) : Outcome :=
  match r with
  | Ok _ _ _ => Returned
  | Died f _ => Exited f
  | Starved _ => Waiting
  end.

(** The session in which a computation ended, however it ended. *)
Definition world_of {A : Type} (r : Res A) : World :=
  match r with
  | Ok _ _ w => w
  | Died _ w => w
  | Starved w => w
  end.

Fixpoint repeatM (n : nat) (m : M unit) : M unit :=
  match n with
  | O => ret tt
  | S n' => m ;; repeatM n' m
  end.

(** ** Signals *)

Definition sig_hdl (sig : Signal) (w : World) : World :=
  match sig with
  | SIGALRM => set_timer (mkTimer (timer_its (timer w)) 1) w
  | SIGCONT =>
      let g := game w in
      set_game (mkGame (game_field g) (game_borders g) 1 (game_need_terminate g)
                       (game_cols g) (game_lines g)
                       (game_x_offset g) (game_y_offset g)) w
  | SIGINT | SIGTERM =>
      let g := game w in
      set_game (mkGame (game_field g) (game_borders g) (game_need_resize g) 1
                       (game_cols g) (game_lines g)
                       (game_x_offset g) (game_y_offset g)) w
  end.

(** One call of [wget_wch]: the return value, the character stored and whether
    [errno] is [EINTR]. *)
Definition wget_wch (e : Event) (w : World) : Z * wint_t * bool * World :=
  match e with
  | Typed wch => (OK, wch, false, w)
  | Pressed code => (KEY_CODE_YES, code, false, w)
  | Resized cols lines => (KEY_CODE_YES, KEY_RESIZE, false, set_term cols lines w)
  | Signalled sigs wch => (ERR, wch, true, fold_left (fun w' s => sig_hdl s w') sigs w)
  | Failed wch => (ERR, wch, false, w)
  end.

(** ** Rendering *)

Definition set_timer_its (its : itimerspec) (w : World) : World :=
  set_timer (mkTimer its (timer_finished (timer w))) w.
Definition set_timer_finished (f : Z) (w : World) : World :=
  set_timer (mkTimer (timer_its (timer w)) f) w.
Definition set_game_need_resize (f : Z) (w : World) : World :=
  let g := game w in
  set_game (mkGame (game_field g) (game_borders g) f (game_need_terminate g)
                   (game_cols g) (game_lines g) (game_x_offset g) (game_y_offset g)) w.
Definition set_game_offsets (xo yo : Z) (w : World) : World :=
  let g := game w in
  set_game (mkGame (game_field g) (game_borders g) (game_need_resize g)
                   (game_need_terminate g) (game_cols g) (game_lines g) xo yo) w.
Definition set_game_cols (c : Z) (w : World) : World :=
  let g := game w in
  set_game (mkGame (game_field g) (game_borders g) (game_need_resize g)
                   (game_need_terminate g) c (game_lines g)
                   (game_x_offset g) (game_y_offset g)) w.
Definition set_game_lines (l : Z) (w : World) : World :=
  let g := game w in
  set_game (mkGame (game_field g) (game_borders g) (game_need_resize g)
                   (game_need_terminate g) (game_cols g) l
                   (game_x_offset g) (game_y_offset g)) w.
Definition set_game_field (f : list (list wchar_t)) (w : World) : World :=
  let g := game w in
  set_game (mkGame f (game_borders g) (game_need_resize g)
                   (game_need_terminate g) (game_cols g) (game_lines g)
                   (game_x_offset g) (game_y_offset g)) w.

Definition game_update_screen (w : World) : World :=
  let w1 := emit (Mvwadd_wch (pos_y (car_pos (car w))) (pos_x (car_pos (car w)))
                             (car_car (car w))) w in
  let w2 :=
    if car_position_changed w1 then
      let w' := emit (Mvwaddch (pos_y (car_old_pos (car w1)))
                               (pos_x (car_old_pos (car w1))) SPACE) w1 in
      set_car (set_car_old_pos (car_pos (car w')) (car w')) w'
    else w1 in
  emit Doupdate w2.

Definition goal_place (w : World) : World :=
  emit (Mvwadd_wch (pos_y (goal_pos (goal w))) (pos_x (goal_pos (goal w)))
                   (goal_goal (goal w))) w.

(** The [for] of [level_draw], with [remaining] rows to go from row [i]. *)
Fixpoint level_draw_loop (remaining : nat) (i : Z) (w : World) : World :=
  match remaining with
  | O => w
  | S remaining' =>
      level_draw_loop remaining' (int (i + 1))
        (emit (Mvwaddwstr (int (game_y_offset (game w) + i))
                          (game_x_offset (game w))
                          (nth (Z.to_nat i) (game_field (game w)) [])) w)
  end.

Definition level_draw (w : World) : World :=
  level_draw_loop (Z.to_nat (game_lines (game w))) 0 w.

Definition mscl (msg : string) (w : World) : World := emit (Mscl msg) w.
Definition mscl_clear (w : World) : World := emit Mscl_clear w.

Definition level_resize (w : World) : World :=
  let x_offset := int (Z.quot (int (GAMEWIN_COLS w - game_cols (game w))) 2) in
  let y_offset := int (Z.quot (int (GAMEWIN_LINES w - game_lines (game w))) 2) in
  let delta_x := int (x_offset - game_x_offset (game w)) in
  let delta_y := int (y_offset - game_y_offset (game w)) in
  let shift (p : Pos) := mkPos (int (pos_x p + delta_x)) (int (pos_y p + delta_y)) in
  let w1 := set_goal (mkGoal (goal_goal (goal w)) (shift (goal_pos (goal w)))) w in
  let c := car w1 in
  let w2 := set_car (set_car_start_pos (shift (car_start_pos c)) c) w1 in
  let c := car w2 in
  let w3 := set_car (set_car_pos (shift (car_pos c)) c) w2 in
  let c := car w3 in
  let w4 := set_car (set_car_old_pos (shift (car_old_pos c)) c) w3 in
  level_draw (set_game_offsets x_offset y_offset w4).

(** ** The platform

    What the engine takes from the C library, the operating system and the
    terminal.  A boolean answer says whether the call succeeded. *)
Class Platform := {
  LONG_MAX : Z;                                   (* limits.h *)
  LONG_MAX_int : (INT_MAX <=? LONG_MAX) = true;   (* long is at least as wide as int *)
  BUFSIZ : Z;                                     (* stdio.h *)
  BUFSIZ_min : (256 <=? BUFSIZ) = true;           (* the least the C standard allows *)
  realloc_zero : bool;                            (* realloc(p, 0) gives a pointer, not NULL *)
  realloc_zero_frees : bool;                      (* giving NULL, realloc(p, 0) has freed p *)
  sizeof_wchar_t : Z;                             (* stddef.h *)
  sizeof_wchar_t_min : (1 <=? sizeof_wchar_t) = true;
  has_colors : bool;
  wcswidth : list wchar_t -> Z;                   (* columns of a string, -1 if unprintable *)
  mvwinnwstr : World -> Z -> Z -> option wchar_t; (* the cell at line y, column x; None is ERR *)
  newwin : Z -> Z -> Z -> Z -> bool;
  subwin : Z -> Z -> Z -> Z -> bool;
  timer_create : bool;
  timer_settime : itimerspec -> bool;
  timer_delete : bool
}.

Section Engine.
Context {P : Platform}.

(** A [long] result; [time_t] is taken to be [long]. *)
Definition long (z : Z) : Z := wrap LONG_MAX z.

(** ** The tick timer *)

(** [if (timer_settime(timer.id, 0, &timer.its, NULL)) DIE(strerror(errno));] *)
Definition timer_settime_or_die : M unit :=
  w <- get ;;
  if timer_settime (timer_its (timer w)) then ret tt else DIE Strerror.

Definition timer_set (nanosec : Z) : M unit :=
  exec (fun w =>
    let its := timer_its (timer w) in
    set_timer_its
      (mkItimerspec (mkTimespec (tv_sec (it_interval its)) nanosec)
                    (mkTimespec (tv_sec (it_value its)) nanosec)) w) ;;
  timer_settime_or_die.

(** [timer.its.it_interval = timer.its.it_value;] and the re-arming. *)
Definition timer_commit (value : timespec) : M unit :=
  exec (set_timer_its (mkItimerspec value value)) ;;
  timer_settime_or_die.

Definition timer_accelerate : M unit :=
  w <- get ;;
  let its := timer_its (timer w) in
  if (tv_sec (it_interval its) =? 0) && (tv_nsec (it_interval its) =? 0) then
    timer_set start_speed
  else
    let v := it_value its in
    if tv_nsec v >=? speed_step_width then
      timer_commit (mkTimespec (tv_sec v) (long (tv_nsec v - speed_step_width)))
    else if negb (nonzero (tv_sec v)) then
      ret tt
    else
      timer_commit
        (mkTimespec (long (tv_sec v - 1))
                    (long (LONG_MAX - long (speed_step_width - tv_nsec v)))).

Definition timer_end : M unit :=
  if timer_delete then ret tt else DIE Strerror.

Definition timer_reset : M unit :=
  exec (set_timer_its (mkItimerspec (mkTimespec 0 0) (mkTimespec 0 0))) ;;
  timer_settime_or_die.

Definition timer_slowdown : M unit :=
  w <- get ;;
  let its := timer_its (timer w) in
  if (tv_sec (it_interval its) =? 0) && (tv_nsec (it_interval its) =? 0) then
    ret tt
  else
    let v := it_value its in
    if long (LONG_MAX - speed_step_width) >=? tv_nsec v then
      timer_commit (mkTimespec (tv_sec v) (long (tv_nsec v + speed_step_width)))
    else
      timer_commit
        (mkTimespec (long (tv_sec v + 1))
                    (long (tv_nsec v
                           + long (speed_step_width - long (LONG_MAX - tv_nsec v))))).

Definition timer_start : M unit :=
  (if timer_create then ret tt else DIE Strerror) ;;
  timer_settime_or_die.

(** Length of a timespec in nanoseconds. *)
Definition nanoseconds (t : timespec) : Z := tv_sec t * 1000000000 + tv_nsec t.

(** ** Windows and resizing *)

Definition curses_check_size : M unit :=
  w <- get ;;
  if (game_cols (game w) >? GAMEWIN_COLS w) || (game_lines (game w) >? GAMEWIN_LINES w)
  then DIE TerminalTooSmall
  else if (pos_x (car_pos (car w)) >=? GAMEWIN_COLS w)
          || (pos_y (car_pos (car w)) >=? GAMEWIN_COLS w)
  then DIE CarOutOfScreen
  else ret tt.

Definition curses_set_windows : M unit :=
  w <- get ;;
  if newwin 1 (curses_cols (curses w)) (int (curses_lines (curses w) - 1)) 0
  then ret tt
  else DIE ResizeFailed.

Definition curses_resize : M unit :=
  exec (fun w => set_curses (mkCurses (COLS w) (LINES w)) w) ;;
  curses_check_size ;;
  exec (fun w => emit (Wresize (GAMEWIN_LINES w) (GAMEWIN_COLS w)) w) ;;
  curses_set_windows.

Definition game_resize : M unit :=
  curses_resize ;;
  exec level_resize ;;
  exec goal_place ;;
  exec game_update_screen.

(** ** Keyboard *)

(** The body of [curses_wgetch]; [mscl_used] is its local variable. *)
Fixpoint curses_wgetch_loop (mscl_used : bool) (inp : list Event) (w : World)
  : Res (Z * wint_t) :=
  match inp with
  | [] => Starved w
  | e :: rest =>
      match wget_wch e w with
      | (r, wch, eintr, w1) =>
          if (r =? KEY_CODE_YES) && (wch =? KEY_RESIZE) then
            match game_resize rest w1 with
            | Ok _ _ w2 => curses_wgetch_loop mscl_used rest w2
            | Died f w2 => Died f w2
            | Starved w2 => Starved w2
            end
          else if negb (r =? ERR) then
            Ok (r, wch) rest (if mscl_used then mscl_clear w1 else w1)
          else if eintr then
            Ok (r, wch) rest (if mscl_used then mscl_clear w1 else w1)
          else
            curses_wgetch_loop true rest (mscl "Input Error" (mscl_clear w1))
      end
  end.

Definition curses_wgetch (win : Window) : M (Z * wint_t) :=
  curses_wgetch_loop false.

(** ** Rounds *)

Definition game_reset : M unit :=
  exec (fun w => emit (Mvwaddch (pos_y (car_old_pos (car w)))
                                (pos_x (car_old_pos (car w))) SPACE) w) ;;
  exec car_reset ;;
  timer_reset.

(** The [do ... while] of [game_play_again].  Its [continue] jumps to the
    loop condition, so the return value of [curses_wgetch] decides nothing.
    Every turn reads at least one event: [fuel] above the length of the
    input is never used up. *)
Fixpoint game_play_again_loop (fuel : nat) (inp : list Event) (w : World)
  : Res wint_t :=
  match fuel with
  | O => Starved w
  | S fuel' =>
      match curses_wgetch msclwin inp w with
      | Ok (_, wch) inp' w' =>
          if negb (wch =? 121) && negb (wch =? 110)   (* L'y', L'n' *)
          then game_play_again_loop fuel' inp' w'
          else Ok wch inp' w'
      | Died f w' => Died f w'
      | Starved w' => Starved w'
      end
  end.

Definition game_play_again (msg : string) : M bool :=
  exec (mscl msg) ;;
  wch <- (fun inp => game_play_again_loop (S (List.length inp)) inp) ;;
  exec mscl_clear ;;
  if wch =? 121 then game_reset ;; ret true else ret false.

Definition game_over : M bool :=
  result <- game_play_again "Game over. Play again? [y/n]" ;;
  (if result : bool then exec goal_place else ret tt) ;;
  ret result.

Definition game_won : M bool :=
  result <- game_play_again "Won! Play again? [y/n]" ;;
  (if result : bool then exec goal_place else ret tt) ;;
  ret result.

Definition game_continue : M bool :=
  w <- get ;;
  let x := pos_x (car_pos (car w)) in
  let y := pos_y (car_pos (car w)) in
  if (x =? pos_x (goal_pos (goal w))) && (y =? pos_y (goal_pos (goal w))) then
    exec game_update_screen ;;
    game_won
  else if negb (car_position_changed w) then
    ret true
  else if game_borders (game w)
          && ((x <? 0) || (y <? 0) || (x =? GAMEWIN_COLS w) || (y =? GAMEWIN_LINES w))
  then game_over
  else
    exec (emit (Mvwinnwstr y x)) ;;
    match mvwinnwstr w y x with
    | None => ret false
    | Some wch => if negb (wch =? SPACE) then game_over else ret true
    end.

(** ** The loop *)

(** The branch [r == ERR] of the loop: the wait was interrupted. *)
Definition game_loop_interrupted : M bool :=
  w <- get ;;
  if nonzero (timer_finished (timer w)) then
    exec car_move ;;
    go_on <- game_continue ;;
    if negb go_on then ret false
    else exec (set_timer_finished 0) ;; ret true
  else if nonzero (game_need_resize (game w)) then
    game_resize ;;
    exec (set_game_need_resize 0) ;;
    ret true
  else if nonzero (game_need_terminate (game w)) then
    DIE Terminated
  else ret true.

(** The three flags a signal handler can set, and the branch of
    [game_loop_interrupted] that answers each. *)
Inductive Flag := TickFired | ResizeRequest | TerminationRequest.

Definition pending (f : Flag) (w : World) : bool :=
  match f with
  | TickFired => nonzero (timer_finished (timer w))
  | ResizeRequest => nonzero (game_need_resize (game w))
  | TerminationRequest => nonzero (game_need_terminate (game w))
  end.

Definition handle (f : Flag) : M bool :=
  match f with
  | TickFired =>
      exec car_move ;;
      go_on <- game_continue ;;
      if negb go_on then ret false
      else exec (set_timer_finished 0) ;; ret true
  | ResizeRequest =>
      game_resize ;;
      exec (set_game_need_resize 0) ;;
      ret true
  | TerminationRequest => DIE Terminated
  end.

(** Inspecting the flags in a given order and handling at most the first one
    that is set: the reading of the loop against which the code is compared. *)
Definition first_pending (order : list Flag) (w : World) : option Flag :=
  find (fun f => pending f w) order.

Definition handle_first_pending (order : list Flag) : M bool :=
  w <- get ;;
  match first_pending order w with
  | Some f => handle f
  | None => ret true
  end.

(** One turn of the [for (;;)]; [false] is [break]. *)
Definition game_loop_body : M bool :=
  exec game_update_screen ;;
  got <- curses_wgetch gamewin ;;
  let (r, wch) := got : Z * wint_t in
  if r =? ERR then
    game_loop_interrupted
  else if r =? KEY_CODE_YES then
    (if wch =? KEY_DOWN then timer_slowdown
     else if wch =? KEY_LEFT then exec car_turn_left
     else if wch =? KEY_RIGHT then exec car_turn_right
     else if wch =? KEY_UP then timer_accelerate
     else ret tt) ;;
    ret true
  else if wch =? 97 then timer_accelerate ;; ret true    (* L'a' *)
  else if wch =? 98 then timer_slowdown ;; ret true      (* L'b' *)
  else if wch =? 113 then ret false                      (* L'q' *)
  else ret true.

(** Every turn reads at least one event, as in [game_play_again_loop]. *)
Fixpoint game_loop_from (fuel : nat) (inp : list Event) (w : World) : Res unit :=
  match fuel with
  | O => Starved w
  | S fuel' =>
      match game_loop_body inp w with
      | Ok true inp' w' => game_loop_from fuel' inp' w'
      | Ok false inp' w' => Ok tt inp' w'
      | Died f w' => Died f w'
      | Starved w' => Starved w'
      end
  end.

Definition game_loop : M unit :=
  timer_start ;;
  (fun inp => game_loop_from (S (List.length inp)) inp) ;;
  timer_end.

(** ** The level *)

(** Index of the first occurrence of [wc]. *)
Fixpoint wcschr (wcs : list wchar_t) (wc : wchar_t) : option Z :=
  match wcs with
  | [] => None
  | c :: rest =>
      if c =? wc then Some 0
      else match wcschr rest wc with
           | Some k => Some (k + 1)
           | None => None
           end
  end.

(** [l] with its element [k] replaced. *)
Fixpoint store {A : Type} (l : list A) (k : nat) (v : A) : list A :=
  match l, k with
  | [], _ => []
  | _ :: rest, O => v :: rest
  | a :: rest, S k' => a :: store rest k' v
  end.

(** An open stream: what is left to read, and whether reading past it is a
    read error rather than the end of the file. *)
Record FILE := mkFILE { file_data : list wchar_t; file_error : bool }.

(** At most [n] characters, up to and including the first newline. *)
Fixpoint fgetws_chars (n : nat) (data : list wchar_t)
  : list wchar_t * list wchar_t :=
  match n, data with
  | O, _ => ([], data)
  | _, [] => ([], [])
  | S n', c :: rest =>
      if c =? NEWLINE then ([c], rest)
      else let (got, left) := fgetws_chars n' rest in (c :: got, left)
  end.

(** [fgetws(ws, n, stream)]: the characters read and the rest of the stream,
    or [None] for a null pointer when nothing is left.  Whether the buffer
    holds what is read is said by [overruns]. *)
Definition fgetws (n : Z) (data : list wchar_t)
  : option (list wchar_t * list wchar_t) :=
  match data with
  | [] => None
  | _ => Some (fgetws_chars (Z.to_nat (n - 1)) data)
  end.

(** The characters [ws] and the null character after them do not fit a block
    of [size] bytes. *)
Definition overruns (size : Z) (ws : list wchar_t) : bool :=
  size <? (Z.of_nat (List.length ws) + 1) * sizeof_wchar_t.

(** The string in a buffer: what stands before its first null character. *)
Fixpoint c_string (buf : list wchar_t) : list wchar_t :=
  match buf with
  | [] => []
  | c :: rest => if c =? NUL then [] else c :: c_string rest
  end.

(** [game.field[i] = ws], the array holding [i+1] rows afterwards. *)
Definition set_row (i : Z) (ws : list wchar_t) (w : World) : World :=
  set_game_field (firstn (Z.to_nat i) (game_field (game w)) ++ [ws]) w.

(** The [do ... while] of [level_file_readlines], which reads on when the
    first read of row [i] met no newline: every further read goes to the
    start of the row again.  The row is a block of [size] bytes, and [fgetws]
    is told that it holds [size] wide characters.  [inl] is the rest of the
    stream after a completed row, [inr] the value returned at the end of the
    file. *)
Fixpoint level_file_readlines_more (fuel : nat) (i size : Z) (data : list wchar_t)
  : M (list wchar_t + Z) :=
  match fuel with
  | O => fun _ w => Starved w
  | S fuel' =>
      let size := size + BUFSIZ in
      if size >? INT_MAX then DIE DimensionTooBig
      else
        match fgetws size data with
        | None => ret (inr (i + 1))
        | Some (ws, data') =>
            if overruns size ws then UNDEFINED BufferOverrun
            else
              exec (set_row i (c_string ws)) ;;
              match wcschr (c_string ws) NEWLINE with
              | Some ptr =>
                  exec (set_row i (firstn (Z.to_nat ptr) (c_string ws))) ;;
                  ret (inl data')
              | None => level_file_readlines_more fuel' i size data'
              end
        end
  end.

(** The [for] of [level_file_readlines], at row [i]; its [size] is [BUFSIZ]
    at the start of every row.  At the end of an empty file the array is
    given to [realloc] with a size of 0: where that returns a null pointer
    [_realloc] calls [DIE], whose [cleanup] frees [game.field], which
    [realloc] may have freed already. *)
Fixpoint level_file_readlines_from (fuel : nat) (i : Z) (data : list wchar_t)
  : M Z :=
  match fuel with
  | O => fun _ w => Starved w
  | S fuel' =>
      if i =? INT_MAX then DIE DimensionTooBig
      else
        match fgetws BUFSIZ data with
        | None =>
            if (i =? 0) && negb realloc_zero then
              if realloc_zero_frees then UNDEFINED DoubleFree else DIE Strerror
            else
              exec (fun w => set_game_field
                               (firstn (Z.to_nat i) (game_field (game w))) w) ;;
              ret i
        | Some (ws, data') =>
            if overruns BUFSIZ ws then UNDEFINED BufferOverrun
            else
              exec (set_row i (c_string ws)) ;;
              match wcschr (c_string ws) NEWLINE with
              | Some ptr =>
                  exec (set_row i (firstn (Z.to_nat ptr) (c_string ws))) ;;
                  level_file_readlines_from fuel' (i + 1) data'
              | None =>
                  more <- level_file_readlines_more (S (List.length data')) i BUFSIZ data' ;;
                  match more with
                  | inl data'' => level_file_readlines_from fuel' (i + 1) data''
                  | inr n => ret n
                  end
              end
        end
  end.

Definition level_file_readlines (data : list wchar_t) : M Z :=
  level_file_readlines_from (S (List.length data)) 0 data.

(** [file] is what [fopen] makes of the file name. *)
Definition level_file_read (file : option FILE) : M unit :=
  match file with
  | None => DIE Strerror
  | Some f =>
      n <- level_file_readlines (file_data f) ;;
      exec (set_game_lines (int n)) ;;
      if file_error f then DIE ReadError
      else
        w <- get ;;
        if negb (nonzero (game_lines (game w))) then DIE NoLines else ret tt
  end.

(** The local variables of [level_init]. *)
Record Marks := mkMarks {
  goal_index : Pos;
  car_start_index : Pos;
  goal_count : Z;
  start_count : Z
}.

(** The chain of [wcschr] calls for the four car characters. *)
Definition wcschr_car (row : list wchar_t) : option (Z * Direction) :=
  match wcschr row chars_car_down with
  | Some ptr => Some (ptr, DOWN)
  | None =>
  match wcschr row chars_car_left with
  | Some ptr => Some (ptr, LEFT)
  | None =>
  match wcschr row chars_car_right with
  | Some ptr => Some (ptr, RIGHT)
  | None =>
  match wcschr row chars_car_up with
  | Some ptr => Some (ptr, UP)
  | None => None
  end end end end.

(** The [for] of [level_init], with [remaining] rows to go from row [i]. *)
Fixpoint level_init_loop (remaining : nat) (i : Z) (m : Marks) : M Marks :=
  match remaining with
  | O => ret m
  | S remaining' =>
      w <- get ;;
      let row := nth (Z.to_nat i) (game_field (game w)) [] in
      let len := wcswidth row in
      if len =? -1 then DIE WcswidthFailed
      else
        (if len >? game_cols (game w) then exec (set_game_cols len) else ret tt) ;;
        match wcschr row chars_goal with
        | Some ptr =>
            level_init_loop remaining' (int (i + 1))
              (mkMarks (mkPos (int ptr) i) (car_start_index m)
                       (goal_count m + 1) (start_count m))
        | None =>
            match wcschr_car row with
            | Some (ptr, d) =>
                exec (fun w => set_car (set_car_start_direction d (car w)) w) ;;
                exec (fun w => set_game_field
                        (store (game_field (game w)) (Z.to_nat i)
                               (store row (Z.to_nat ptr) SPACE)) w) ;;
                level_init_loop remaining' (int (i + 1))
                  (mkMarks (goal_index m) (mkPos (int ptr) i)
                           (goal_count m) (start_count m + 1))
            | None => level_init_loop remaining' (int (i + 1)) m
            end
        end
  end.

(** [wchar_t buf[game.cols+1]] holds the [x] characters that [wcsncpy]
    copies to it and the null character written after them. *)
Definition buf_holds (x : Z) (w : World) : bool :=
  (0 <=? x) && (x <? int (game_cols (game w) + 1)).

(** What [wcsncpy] copies: the text of row [index.y] before its character
    [index.x]. *)
Definition before (index : Pos) (w : World) : list wchar_t :=
  firstn (Z.to_nat (pos_x index))
         (nth (Z.to_nat (pos_y index)) (game_field (game w)) []).

(** The three assignments of [level_init_positions]: the offsets, the
    parking place and the start of the car. *)
Definition centre_level (w : World) : World :=
  set_game_offsets
    (int (Z.quot (int (GAMEWIN_COLS w - game_cols (game w))) 2))
    (int (Z.quot (int (GAMEWIN_LINES w - game_lines (game w))) 2)) w.

Definition goal_at (index : Pos) (w : World) : World :=
  set_goal
    (mkGoal (goal_goal (goal w))
            (mkPos (int (wcswidth (before index w) + game_x_offset (game w)))
                   (int (pos_y index + game_y_offset (game w))))) w.

Definition start_at (index : Pos) (w : World) : World :=
  set_car
    (set_car_start_pos
       (mkPos (int (wcswidth (before index w) + game_x_offset (game w)))
              (int (pos_y index + game_y_offset (game w))))
       (car w)) w.

Definition level_init_positions (goal_index car_start_index : Pos) : M unit :=
  exec centre_level ;;
  w <- get ;;
  (if buf_holds (pos_x goal_index) w then exec (goal_at goal_index)
   else UNDEFINED BufferOverrun) ;;
  w <- get ;;
  if buf_holds (pos_x car_start_index) w then exec (start_at car_start_index)
  else UNDEFINED BufferOverrun.

Definition level_init : M unit :=
  w <- get ;;
  m <- level_init_loop (Z.to_nat (game_lines (game w))) 0
         (mkMarks (mkPos 0 0) (mkPos 0 0) 0 0) ;;
  if negb (goal_count m =? 1) then DIE (GoalCount (goal_count m))
  else if negb (start_count m =? 1) then DIE (StartCount (start_count m))
  else level_init_positions (goal_index m) (car_start_index m).

Definition level_setup (file : option FILE) : M unit :=
  level_file_read file ;;
  level_init ;;
  curses_check_size ;;
  exec (fun w =>
    set_game_offsets
      (int (Z.quot (int (GAMEWIN_COLS w - game_cols (game w))) 2))
      (int (Z.quot (int (GAMEWIN_LINES w - game_lines (game w))) 2)) w) ;;
  exec level_draw ;;
  exec goal_place ;;
  exec car_reset.

(** ** Start of the process *)

Definition curses_set_colors (color_car color_goal : Z) (w : World) : World :=
  let c := car w in
  let w1 :=
    set_car (mkCar (car_car c)
                   (mkCchar chars_car_left color_car)
                   (mkCchar chars_car_right color_car)
                   (mkCchar chars_car_up color_car)
                   (mkCchar chars_car_down color_car)
                   (car_start_direction c) (car_direction c)
                   (car_pos c) (car_start_pos c) (car_old_pos c)) w in
  set_goal (mkGoal (mkCchar chars_goal color_goal) (goal_pos (goal w1))) w1.

Definition curses_setup_colors (w : World) : World :=
  if negb has_colors then curses_set_colors 0 0 w
  else curses_set_colors 1 2 w.

Definition curses_setup : M unit :=
  exec (fun w => set_curses (mkCurses (curses_cols (curses w)) (LINES w)) w) ;;
  exec (fun w => set_curses (mkCurses (COLS w) (curses_lines (curses w))) w) ;;
  curses_check_size ;;
  w <- get ;;
  if newwin (int (curses_lines (curses w) - 1)) (curses_cols (curses w)) 0 0
     && subwin (GAMEWIN_LINES w) (GAMEWIN_COLS w)
               (if game_borders (game w) then 1 else 0)
               (if game_borders (game w) then 1 else 0)
     && newwin 1 (curses_cols (curses w)) (int (curses_lines (curses w) - 1)) 0
  then exec curses_setup_colors ;; curses_set_windows
  else DIE NcursesInit.

End Engine.

(** The variables of the program before [main] runs: static storage is
    zero, [game.borders] is [default_borders] unless [-b] toggled it; the
    first enumerator of [Direction] is [LEFT]. *)
Definition static_world (toggle_borders : bool) (cols lines : Z) : World :=
  let z := mkCchar 0 0 in
  let o := mkPos 0 0 in
  mkWorld (mkCar z z z z z LEFT LEFT o o o)
          (mkCurses 0 0)
          (mkGame [] (if toggle_borders then negb default_borders else default_borders)
                  0 0 0 0 0 0)
          (mkGoal z o)
          (mkTimer (mkItimerspec (mkTimespec 0 0) (mkTimespec 0 0)) 0)
          cols lines [].

(** ** The command line *)

(** What the program writes to its standard output. *)
Inductive Output :=
| CarChars (down left right up : wchar_t)               (* print_car_chars *)
| MaxLevelsize (lines_b cols_b lines cols : Z)          (* print_max_levelsize *)
| Usage                                                 (* usage *)
| Version.                                              (* version *)

Inductive Status := EXIT_SUCCESS | EXIT_FAILURE.

Definition set_game_borders (b : bool) (w : World) : World :=
  let g := game w in
  set_game (mkGame (game_field g) b (game_need_resize g) (game_need_terminate g)
                   (game_cols g) (game_lines g) (game_x_offset g) (game_y_offset g)) w.

Definition print_car_chars : Output :=
  CarChars chars_car_down chars_car_left chars_car_right chars_car_up.

Definition print_max_levelsize (w : World) : Output * World :=
  let w1 := set_curses (mkCurses (COLS w) (curses_lines (curses w))) w in
  let w2 := set_curses (mkCurses (curses_cols (curses w1)) (LINES w1)) w1 in
  let w3 := set_game_borders true w2 in
  let w4 := set_game_borders false w3 in
  (MaxLevelsize (GAMEWIN_LINES w3) (GAMEWIN_COLS w3)
                (GAMEWIN_LINES w4) (GAMEWIN_COLS w4), w4).

(** The [while] of [main] over the option characters that [getopt] returns
    one after the other, a question mark for an option it does not know;
    [inl] is a [return] from [main]. *)
Fixpoint main_options (opts : list Z) (w : World) : Output * Status + World :=
  match opts with
  | [] => inr w
  | opt :: rest =>
      if opt =? 98 then                                       (* 'b' *)
        main_options rest (set_game_borders (negb default_borders) w)
      else if opt =? 99 then inl (print_car_chars, EXIT_SUCCESS)          (* 'c' *)
      else if opt =? 104 then inl (Usage, EXIT_SUCCESS)                   (* 'h' *)
      else if opt =? 115 then
        inl (fst (print_max_levelsize w), EXIT_SUCCESS)                   (* 's' *)
      else if opt =? 118 then inl (Version, EXIT_SUCCESS)                 (* 'v' *)
      else inl (Usage, EXIT_FAILURE)
  end.

(** The calls of [setup] that can fail before the screen is there. *)
Inductive Startup := Sigaction (sig : Signal) | Setlocale.

(** How [main] ends: by a [return], by the exit of [setup] over a handler or
    the locale, or after [setup] has gone on to the screen and the level and
    the game loop has run ([cleanup] and [EXIT_SUCCESS] follow when that
    returns). *)
Inductive Ending :=
| Return (out : Output) (status : Status)
| SetupFailed (call : Startup)
| Run (r : Res unit).

Section Process.
Context {P : Platform}.

(** [setup]; [sigaction] and [setlocale] say whether the calls succeed. *)
Definition setup (sigaction : Signal -> bool) (setlocale : bool) (file : option FILE)
  : Startup + M unit :=
  if negb (sigaction SIGALRM) then inl (Sigaction SIGALRM)
  else if negb (sigaction SIGCONT) then inl (Sigaction SIGCONT)
  else if negb (sigaction SIGINT) then inl (Sigaction SIGINT)
  else if negb (sigaction SIGTERM) then inl (Sigaction SIGTERM)
  else if negb setlocale then inl Setlocale
  else inr (curses_setup ;; level_setup file).

(** [main]: [opts] is what [getopt] returns, [operand] the level file when
    there is an argument left ([fopen] has made [None] of a name it cannot
    open), [cols] and [lines] the size of the terminal. *)
Definition main (opts : list Z) (operand : option (option FILE))
           (sigaction : Signal -> bool) (setlocale : bool) (cols lines : Z)
           (inp : list Event) : Ending :=
  match main_options opts (static_world false cols lines) with
  | inl (out, status) => Return out status
  | inr w =>
      match operand with
      | None => Return Usage EXIT_FAILURE
      | Some file =>
          match setup sigaction setlocale file with
          | inl call => SetupFailed call
          | inr m => Run ((m ;; game_loop) inp w)
          end
      end
  end.

End Process.

(** ** A platform for the examples

    An LP64 system with glibc's [BUFSIZ] and [realloc], a locale in which
    every character takes one column, and POSIX timers: [timer_settime] refuses a value whose
    nanoseconds are not below one second.  Windows can always be made; what is
    read back from the screen is left open. *)
Definition timespec_valid (t : timespec) : bool :=
  (0 <=? tv_sec t) && (0 <=? tv_nsec t) && (tv_nsec t <? 1000000000).

Definition posix_timer_settime (its : itimerspec) : bool :=
  timespec_valid (it_value its) && timespec_valid (it_interval its).

Definition sample_platform (cell : World -> Z -> Z -> option wchar_t) : Platform :=
  {| LONG_MAX := 9223372036854775807;
     LONG_MAX_int := eq_refl;
     BUFSIZ := 8192;
     BUFSIZ_min := eq_refl;
     realloc_zero := false;
     realloc_zero_frees := true;
     sizeof_wchar_t := 4;
     sizeof_wchar_t_min := eq_refl;
     has_colors := true;
     wcswidth := fun wcs => Z.of_nat (List.length wcs);
     mvwinnwstr := cell;
     newwin := fun _ _ _ _ => true;
     subwin := fun _ _ _ _ => true;
     timer_create := true;
     timer_settime := posix_timer_settime;
     timer_delete := true |}.

(** A screen every cell of which is blank, and one that cannot be read. *)
Definition blank_screen : World -> Z -> Z -> option wchar_t := fun _ _ _ => Some SPACE.
Definition unreadable_screen : World -> Z -> Z -> option wchar_t := fun _ _ _ => None.

(** The car put at column [x], line [y], facing [d]. *)
Definition place (d : Direction) (x y : Z) (w : World) : World :=
  set_car (set_car_direction d (set_car_pos (mkPos x y) (car w))) w.

(** A session for the examples: an 80 x 24 terminal, the car at column 5 of
    line 5 facing right and drawn there, the parking place at column 10 of
    the same line, no level rows, the timer armed at the start speed. *)
Definition sample_world (borders : bool) : World :=
  let glyph (c : wchar_t) := mkCchar c 1 in
  mkWorld
    (mkCar (glyph chars_car_right) (glyph chars_car_left) (glyph chars_car_right)
           (glyph chars_car_up) (glyph chars_car_down)
           RIGHT RIGHT (mkPos 5 5) (mkPos 5 5) (mkPos 5 5))
    (mkCurses 80 24)
    (mkGame [] borders 0 0 0 0 0 0)
    (mkGoal (mkCchar chars_goal 2) (mkPos 10 5))
    (mkTimer (mkItimerspec (mkTimespec 0 start_speed) (mkTimespec 0 start_speed)) 0)
    80 24 [].

(** The same without borders in a terminal one column wide, the car in
    column 0. *)
Definition one_column_world : World :=
  let w := set_curses (mkCurses 1 24) (sample_world false) in
  set_car (set_car_old_pos (mkPos 0 5) (set_car_pos (mkPos 0 5) (car w))) w.

(** The session in which a level is loaded: after [curses_setup] on an
    80 x 24 terminal, with borders. *)
Definition started_world (cell : World -> Z -> Z -> option wchar_t) : World :=
  world_of (@curses_setup (sample_platform cell) [] (static_world false 80 24)).

(** Reading a level file with the given text and locating its markers. *)
Definition load_level (text : list wchar_t) : Res unit :=
  let P := sample_platform blank_screen in
  (@level_file_read P (Some (mkFILE text false)) ;; @level_init P)
    [] (started_world blank_screen).

(** A whole run on an 80 x 24 terminal with borders: [curses_setup], the
    level read from [text], and the game loop fed with [inp]. *)
Definition play (text : list wchar_t) (inp : list Event) : Res unit :=
  let P := sample_platform blank_screen in
  (@curses_setup P ;; @level_setup P (Some (mkFILE text false)) ;; @game_loop P)
    inp (static_world false 80 24).

(** The number of goal markers and of start markers (the four car
    characters) in a grid. *)
Definition count_char (wc : wchar_t) (row : list wchar_t) : Z :=
  Z.of_nat (List.length (filter (Z.eqb wc) row)).

Definition goal_markers (field : list (list wchar_t)) : Z :=
  fold_right (fun row n => count_char chars_goal row + n) 0 field.

Definition start_markers (field : list (list wchar_t)) : Z :=
  fold_right
    (fun row n =>
       count_char chars_car_down row + count_char chars_car_left row
       + count_char chars_car_right row + count_char chars_car_up row + n)
    0 field.

(** The same with borders, the parking place on the column just past the
    playable area and the car on it. *)
Definition boundary_goal_world : World :=
  let w := place RIGHT 78 5 (sample_world true) in
  set_goal (mkGoal (goal_goal (goal w)) (mkPos 78 5)) w.

(** The start markers of one row. *)
Definition start_markers_row (row : list wchar_t) : Z :=
  count_char chars_car_down row + count_char chars_car_left row
  + count_char chars_car_right row + count_char chars_car_up row.

(** What [level_init] leaves of a row: a row with a goal marker as it is, any
    other row with its first car character blanked. *)
Definition scanned (row : list wchar_t) : list wchar_t :=
  match wcschr row chars_goal with
  | Some _ => row
  | None =>
      match wcschr_car row with
      | Some (ptr, _) => store row (Z.to_nat ptr) SPACE
      | None => row
      end
  end.

(** The rows that [level_init] counts as goal rows and as start rows. *)
Definition goal_rows (field : list (list wchar_t)) : Z :=
  fold_right
    (fun row n =>
       (match wcschr row chars_goal with Some _ => 1 | None => 0 end) + n) 0 field.

Definition start_rows (field : list (list wchar_t)) : Z :=
  fold_right
    (fun row n =>
       (match wcschr row chars_goal, wcschr_car row with
        | None, Some _ => 1
        | _, _ => 0
        end) + n) 0 field.

(** The alarm signal interrupting the wait for a key. *)
Definition tick : Event := Signalled [SIGALRM] 0.

(** ** Vocabulary of the properties *)

(** Both members of the timer set to one timespec. *)
Definition both (t : timespec) : itimerspec := mkItimerspec t t.

(** Calls that only draw: everything but reading a cell back and the two
    prompts.  "Input Error" is the notice of [curses_wgetch]. *)
Definition drawing (a : Action) : bool :=
  match a with
  | Mvwinnwstr _ _ => false
  | Mscl msg => String.eqb msg "Input Error"
  | _ => true
  end.

(** Calls that belong to a crash check: the read of the cell under the car
    and the prompt after a crash. *)
Definition crash_check (a : Action) : bool :=
  match a with
  | Mvwinnwstr _ _ => true
  | Mscl msg => String.eqb msg "Game over. Play again? [y/n]"
  | _ => false
  end.

(** How the session may change while the engine draws, reads keys and
    resizes: rendering calls allowed by [ok] are added, a pending resize or
    termination request stays pending, a car that has been drawn where it is
    stays so, and the border mode is kept. *)
Record evolves (ok : Action -> bool) (w w' : World) : Prop := mkEvolves {
  ev_surface : exists l, surface w' = l ++ surface w /\ forallb ok l = true;
  ev_resize : nonzero (game_need_resize (game w)) = true ->
              nonzero (game_need_resize (game w')) = true;
  ev_terminate : nonzero (game_need_terminate (game w)) = true ->
                 nonzero (game_need_terminate (game w')) = true;
  ev_settled : car_old_pos (car w) = car_pos (car w) ->
               car_old_pos (car w') = car_pos (car w');
  ev_borders : game_borders (game w') = game_borders (game w)
}.

(** What a resize leaves alone: the timer with its flag, and a pending
    termination request. *)
Definition resize_frame (w w' : World) : Prop :=
  timer w' = timer w
  /\ game_need_terminate (game w') = game_need_terminate (game w).

(** A computation that, when it returns, leaves no more input than it was
    given. *)
Definition shrinks {A : Type} (m : M A) : Prop :=
  forall inp w a inp' w',
    m inp w = Ok a inp' w' -> (List.length inp' <= List.length inp)%nat.

(** A computation all of whose outcomes are related to the session it
    started in. *)
Definition preserves {A : Type} (R : World -> World -> Prop) (m : M A) : Prop :=
  forall inp w, R w (world_of (m inp w)).

(** ** Vocabulary of the further properties *)

(** A cell of the playable area. *)
Definition inside (w : World) (p : Pos) : Prop :=
  0 <= pos_x p < GAMEWIN_COLS w /\ 0 <= pos_y p < GAMEWIN_LINES w.

(** The car is on a cell of the playable area. *)
Definition car_inside (w : World) : Prop :=
  0 <= pos_x (car_pos (car w)) < GAMEWIN_COLS w
  /\ 0 <= pos_y (car_pos (car w)) < GAMEWIN_LINES w.

(** The handlers run for the signals [sigs], in the order of their arrival. *)
Definition deliver (sigs : list Signal) (w : World) : World :=
  fold_left (fun w' s => sig_hdl s w') sigs w.

(** The assignments and calls a round is made of.  Every function of the
    game loop changes the session by these and by nothing else. *)
Inductive step : World -> World -> Prop :=
| step_sig_hdl (sig : Signal) (w : World) : step w (sig_hdl sig w)
| step_terminal (cols lines : Z) (w : World) : step w (set_term cols lines w)
| step_emit (a : Action) (w : World) : step w (emit a w)
| step_update_screen (w : World) : step w (game_update_screen w)
| step_turn_left (w : World) : step w (car_turn_left w)
| step_turn_right (w : World) : step w (car_turn_right w)
| step_move (w : World) : step w (car_move w)
| step_car_reset (w : World) : step w (car_reset w)
| step_timer_set (nanosec : Z) (w : World) :
    step w (set_timer_its
              (mkItimerspec
                 (mkTimespec (tv_sec (it_interval (timer_its (timer w)))) nanosec)
                 (mkTimespec (tv_sec (it_value (timer_its (timer w)))) nanosec)) w)
| step_timer_commit (value : timespec) (w : World) :
    step w (set_timer_its (mkItimerspec value value) w)
| step_tick_handled (w : World) : step w (set_timer_finished 0 w)
| step_resize_handled (w : World) : step w (set_game_need_resize 0 w)
| step_curses (w : World) : step w (set_curses (mkCurses (COLS w) (LINES w)) w)
| step_level_resize (w : World) : step w (level_resize w).

Inductive reaches : World -> World -> Prop :=
| reaches_refl (w : World) : reaches w w
| reaches_step (w1 w2 w3 : World) : step w1 w2 -> reaches w2 w3 -> reaches w1 w3.

(** A position as the level sees it: relative to the corner the level is
    drawn from. *)
Definition in_level (w : World) (p : Pos) : Pos :=
  mkPos (int (pos_x p - game_x_offset (game w)))
        (int (pos_y p - game_y_offset (game w))).

(** What a round has no business changing: the grid and its size, the border
    mode, the characters of the car and of the parking place, and where the
    parking place and the start of the car are in the level. *)
Record Fixture := mkFixture {
  fx_field : list (list wchar_t);
  fx_cols : Z;
  fx_lines : Z;
  fx_borders : bool;
  fx_car : cchar_t * cchar_t * cchar_t * cchar_t;
  fx_goal : cchar_t;
  fx_start_direction : Direction;
  fx_goal_pos : Pos;
  fx_start_pos : Pos
}.

Definition fixture (w : World) : Fixture :=
  mkFixture (game_field (game w)) (game_cols (game w)) (game_lines (game w))
            (game_borders (game w))
            (car_left (car w), car_right (car w), car_up (car w), car_down (car w))
            (goal_goal (goal w))
            (car_start_direction (car w))
            (in_level w (goal_pos (goal w)))
            (in_level w (car_start_pos (car w))).

(** The character kept for the direction [d]. *)
Definition glyph (d : Direction) (c : Car) : cchar_t :=
  match d with
  | LEFT => car_left c
  | RIGHT => car_right c
  | UP => car_up c
  | DOWN => car_down c
  end.

(** The car shows the character of its direction, and the timer runs at
    the interval it was armed with. *)
Definition coherent (w : World) : Prop :=
  car_car (car w) = glyph (car_direction (car w)) (car w)
  /\ it_value (timer_its (timer w)) = it_interval (timer_its (timer w)).

(** The text of a file with the lines [rows], each ended by a newline. *)
Definition unlines (rows : list (list wchar_t)) : list wchar_t :=
  List.concat (map (fun row => row ++ [NEWLINE]) rows).

(** The lines of a text that is [unlines rows] followed by the characters
    [last], which no newline ends. *)
Definition lines_of (rows : list (list wchar_t)) (last : list wchar_t)
  : list (list wchar_t) :=
  rows ++ match last with [] => [] | _ => [last] end.

(** A line that one call of [fgetws] takes whole into a fresh row: neither a
    newline nor a null character in it, and room for it, its newline and the
    closing null character in [BUFSIZ] bytes. *)
Definition plain_line {P : Platform} (row : list wchar_t) : Prop :=
  ~ In NEWLINE row /\ ~ In NUL row
  /\ (Z.of_nat (List.length row) + 2) * sizeof_wchar_t <= BUFSIZ.

(** What reading the level file leaves of the session: all but the grid and
    the number of its rows. *)
Definition file_frame (w w' : World) : Prop :=
  w' = set_game_lines (game_lines (game w'))
         (set_game_field (game_field (game w')) w).

(** The widest of the rows, and no less than [cols]. *)
Definition widest {P : Platform} (field : list (list wchar_t)) (cols : Z) : Z :=
  fold_left Z.max (map wcswidth field) cols.

(** What the loop of [level_init] has done when it is through the rows
    [rest] that follow the rows [pre]. *)
Record scan_result {P : Platform} (pre rest : list (list wchar_t)) (m : Marks)
       (w : World) (m' : Marks) (w' : World) : Prop := mkScanResult {
  sr_world :
    w' = set_car (set_car_start_direction (car_start_direction (car w')) (car w))
           (set_game_cols (game_cols (game w'))
              (set_game_field (pre ++ map scanned rest) w));
  sr_cols : game_cols (game w') = widest rest (game_cols (game w));
  sr_widths : Forall (fun row => wcswidth row <> -1) rest;
  sr_goal_count : goal_count m' = goal_count m + goal_rows rest;
  sr_start_count : start_count m' = start_count m + start_rows rest;
  sr_goal_kept : goal_rows rest = 0 -> goal_index m' = goal_index m;
  sr_goal_found :
    0 < goal_rows rest ->
    exists j row g,
      nth_error rest j = Some row /\ wcschr row chars_goal = Some g
      /\ goal_index m' = mkPos (int g) (Z.of_nat (List.length pre + j));
  sr_start_kept :
    start_rows rest = 0 ->
    car_start_index m' = car_start_index m
    /\ car_start_direction (car w') = car_start_direction (car w);
  sr_start_found :
    0 < start_rows rest ->
    exists j row s d,
      nth_error rest j = Some row /\ wcschr row chars_goal = None
      /\ wcschr_car row = Some (s, d)
      /\ car_start_index m' = mkPos (int s) (Z.of_nat (List.length pre + j))
      /\ car_start_direction (car w') = d
}.

(** The session with another rendering trace. *)
Definition set_surface (l : list Action) (w : World) : World :=
  mkWorld (car w) (curses w) (game w) (goal w) (timer w) (COLS w) (LINES w) l.

(** The calls that write the first [n] rows of the level, the last of them
    first: row [i] goes to line [game.y_offset + i], from column
    [game.x_offset] on. *)
Fixpoint drawn_rows (w : World) (n : nat) : list Action :=
  match n with
  | O => []
  | S n' =>
      Mvwaddwstr (int (game_y_offset (game w) + Z.of_nat n'))
                 (game_x_offset (game w))
                 (nth n' (game_field (game w)) [])
      :: drawn_rows w n'
  end.

(** Where the car, the parking place and the start of the car are in the
    level. *)
Definition places (w : World) : Pos * Pos * Pos :=
  (in_level w (car_pos (car w)), in_level w (goal_pos (goal w)),
   in_level w (car_start_pos (car w))).

(** What a key leaves alone: where the car is, the parking place and
    everything of the level. *)
Definition parked (w w' : World) : Prop :=
  car_pos (car w') = car_pos (car w) /\ goal w' = goal w /\ game w' = game w.

(** A platform on which control characters have no width, and any other
    character takes one column. *)
Definition printing_platform : Platform :=
  {| LONG_MAX := 9223372036854775807;
     LONG_MAX_int := eq_refl;
     BUFSIZ := 8192;
     BUFSIZ_min := eq_refl;
     realloc_zero := false;
     realloc_zero_frees := true;
     sizeof_wchar_t := 4;
     sizeof_wchar_t_min := eq_refl;
     has_colors := true;
     wcswidth := fun wcs => if existsb (fun c => c <? 32) wcs then -1
                            else Z.of_nat (List.length wcs);
     mvwinnwstr := blank_screen;
     newwin := fun _ _ _ _ => true;
     subwin := fun _ _ _ _ => true;
     timer_create := true;
     timer_settime := posix_timer_settime;
     timer_delete := true |}.

(** A platform on which the combining acute accent (U+0301) takes no
    column, and any other character takes one. *)
Definition combining_platform : Platform :=
  {| LONG_MAX := 9223372036854775807;
     LONG_MAX_int := eq_refl;
     BUFSIZ := 8192;
     BUFSIZ_min := eq_refl;
     realloc_zero := false;
     realloc_zero_frees := true;
     sizeof_wchar_t := 4;
     sizeof_wchar_t_min := eq_refl;
     has_colors := true;
     wcswidth := fun wcs =>
       Z.of_nat (List.length (filter (fun c => negb (c =? 769)) wcs));
     mvwinnwstr := blank_screen;
     newwin := fun _ _ _ _ => true;
     subwin := fun _ _ _ _ => true;
     timer_create := true;
     timer_settime := posix_timer_settime;
     timer_delete := true |}.

(** * Properties *)

(** ** Machine integers *)

Lemma wrap_small (max z : Z) :
  0 <= max -> - max - 1 <= z <= max -> wrap max z = z.
Proof.
  intros Hmax Hz. unfold wrap.
  rewrite Z.mod_small by lia. lia.
Qed.

Lemma wrap_range (max z : Z) :
  0 <= max -> - max - 1 <= wrap max z <= max.
Proof.
  intros Hmax. unfold wrap.
  pose proof (Z.mod_pos_bound (z + (max + 1)) (2 * (max + 1))) as B.
  lia.
Qed.

Lemma int_small (z : Z) : INT_MIN <= z <= INT_MAX -> int z = z.
Proof.
  unfold int, INT_MIN. intros Hz. apply wrap_small; unfold INT_MAX in *; lia.
Qed.

Lemma int_range (z : Z) : INT_MIN <= int z <= INT_MAX.
Proof.
  unfold int, INT_MIN. apply wrap_range. unfold INT_MAX. lia.
Qed.

(** Adding or subtracting one never gives the same [int] back, wrapped or not. *)
Lemma int_succ_neq (z : Z) : int (z + 1) <> z.
Proof.
  intros E.
  pose proof (int_range (z + 1)) as R. rewrite E in R.
  destruct (Z.eq_dec z INT_MAX) as [-> | N].
  - revert E. vm_compute. discriminate.
  - rewrite int_small in E by (unfold INT_MIN, INT_MAX in *; lia). lia.
Qed.

Lemma int_pred_neq (z : Z) : int (z - 1) <> z.
Proof.
  intros E.
  pose proof (int_range (z - 1)) as R. rewrite E in R.
  destruct (Z.eq_dec z INT_MIN) as [-> | N].
  - revert E. vm_compute. discriminate.
  - rewrite int_small in E by (unfold INT_MIN, INT_MAX in *; lia). lia.
Qed.

Lemma LONG_MAX_big {P : Platform} : INT_MAX <= LONG_MAX.
Proof. apply Z.leb_le, LONG_MAX_int. Qed.

Lemma long_small {P : Platform} (z : Z) :
  - LONG_MAX - 1 <= z <= LONG_MAX -> long z = z.
Proof.
  intros Hz. unfold long. apply wrap_small; [|exact Hz].
  pose proof LONG_MAX_big. unfold INT_MAX in *. lia.
Qed.

(** ** The monad *)

Lemma bind_exec {A : Type} (f : World -> World) (k : unit -> M A)
      (inp : list Event) (w : World) :
  bind (exec f) k inp w = k tt inp (f w).
Proof. reflexivity. Qed.

Lemma bind_get {A : Type} (k : World -> M A) (inp : list Event) (w : World) :
  bind get k inp w = k w inp w.
Proof. reflexivity. Qed.

Lemma bind_assoc {A B C : Type} (m : M A) (k : A -> M B) (h : B -> M C)
      (inp : list Event) (w : World) :
  bind (bind m k) h inp w = bind m (fun a => bind (k a) h) inp w.
Proof. unfold bind. destruct (m inp w); reflexivity. Qed.

Lemma repeatM_plus (a b : nat) (m : M unit) (inp inp' : list Event) (w w' : World) :
  repeatM a m inp w = Ok tt inp' w' ->
  repeatM (a + b) m inp w = repeatM b m inp' w'.
Proof.
  revert inp w. induction a as [|a IH]; intros inp w Ha.
  - cbn in Ha. unfold ret in Ha. inversion Ha. reflexivity.
  - cbn [repeatM Nat.add] in *. unfold bind in *.
    destruct (m inp w) as [[] inp1 w1 | |]; try discriminate.
    now apply IH.
Qed.

(** ** The car *)

(** C6.  Turning left and then right, or right and then left, gives the
    direction back; a turn leaves the position alone and changes nothing of
    the session but the direction of the car and the character shown for it. *)
Theorem car_turn_round_trip (w : World) :
  car_direction (car (car_turn_right (car_turn_left w))) = car_direction (car w)
  /\ car_direction (car (car_turn_left (car_turn_right w))) = car_direction (car w)
  /\ car_pos (car (car_turn_left w)) = car_pos (car w)
  /\ car_pos (car (car_turn_right w)) = car_pos (car w)
  /\ (exists d g, car_turn_left w
                  = set_car (set_car_car g (set_car_direction d (car w))) w)
  /\ (exists d g, car_turn_right w
                  = set_car (set_car_car g (set_car_direction d (car w))) w).
Proof.
  destruct w as [c cu g go t co li su]; destruct c as [cc l r u d sd dir p sp op].
  destruct dir; cbn; repeat split; eexists; eexists; reflexivity.
Qed.

(** The character shown after a turn is the one of the new direction. *)
Lemma car_turn_left_glyph (w : World) :
  car_car (car (car_turn_left w))
  = match car_direction (car (car_turn_left w)) with
    | LEFT => car_left (car w)
    | RIGHT => car_right (car w)
    | UP => car_up (car w)
    | DOWN => car_down (car w)
    end.
Proof.
  destruct w as [c cu g go t co li su]; destruct c as [cc l r u d sd dir p sp op].
  destruct dir; reflexivity.
Qed.

(** C7.  Without borders, the car facing right in the rightmost column of
    the playable area advances to column 0 of its row, and the car facing
    left in column 0 advances to the rightmost column of its row. *)
Theorem car_move_wraps_columns (w : World) (row : Z) :
  game_borders (game w) = false ->
  1 <= GAMEWIN_COLS w <= INT_MAX ->
  car_pos (car (car_move (place RIGHT (GAMEWIN_COLS w - 1) row w))) = mkPos 0 row
  /\ car_pos (car (car_move (place LEFT 0 row w)))
     = mkPos (GAMEWIN_COLS w - 1) row.
Proof.
  intros Hb Hc.
  unfold car_move, car_go_right, car_go_left, place, GAMEWIN_COLS in *.
  cbn. rewrite Hb in *. cbn.
  split.
  - replace (curses_cols (curses w) - 1 + 1) with (curses_cols (curses w)) by lia.
    rewrite int_small by (unfold INT_MIN, INT_MAX in *; lia).
    rewrite Z.eqb_refl. reflexivity.
  - rewrite int_small by (unfold INT_MIN, INT_MAX in *; lia). reflexivity.
Qed.

(** With borders the car moves by one along the axis it faces. *)
Lemma car_move_bordered (w : World) (d : Direction) (x y : Z) :
  game_borders (game w) = true ->
  INT_MIN < x < INT_MAX -> INT_MIN < y < INT_MAX ->
  car_pos (car (car_move (place d x y w)))
  = match d with
    | LEFT => mkPos (x - 1) y
    | RIGHT => mkPos (x + 1) y
    | UP => mkPos x (y - 1)
    | DOWN => mkPos x (y + 1)
    end.
Proof.
  intros Hb Hx Hy.
  unfold car_move, car_go_right, car_go_left, car_go_up, car_go_down, place.
  destruct d; cbn; rewrite Hb; cbn;
    rewrite int_small by (unfold INT_MIN, INT_MAX in *; lia); reflexivity.
Qed.

(** With borders an advance never leaves the car where it was. *)
Lemma car_move_bordered_moves (w : World) :
  game_borders (game w) = true ->
  car_pos (car (car_move w)) <> car_pos (car w).
Proof.
  intros Hb E.
  unfold car_move, car_go_right, car_go_left, car_go_up, car_go_down in E.
  destruct (car_direction (car w)); rewrite Hb in E; cbn in E;
    destruct (car_pos (car w)) as [x y]; cbn in E; inversion E as [E'];
    revert E'; first [apply int_succ_neq | apply int_pred_neq].
Qed.

(** ** The tick timer *)

Section TimerProperties.
Context {P : Platform}.

Lemma set_timer_its_twice (a b : itimerspec) (w : World) :
  set_timer_its a (set_timer_its b w) = set_timer_its a w.
Proof. reflexivity. Qed.

Lemma set_timer_its_same (w : World) :
  set_timer_its (timer_its (timer w)) w = w.
Proof. destruct w as [c cu g go t co li su]; destruct t; reflexivity. Qed.

(** The program never stores different timespecs in [it_value] and
    [it_interval]: whatever a timer operation does, it leaves them equal. *)
Lemma timer_value_is_interval (m : M unit) (inp : list Event) (w : World) :
  In m [timer_accelerate; timer_slowdown; timer_reset; timer_set start_speed] ->
  it_value (timer_its (timer w)) = it_interval (timer_its (timer w)) ->
  it_value (timer_its (timer (world_of (m inp w))))
  = it_interval (timer_its (timer (world_of (m inp w)))).
Proof.
  intros Hm Hw.
  assert (Hs : forall v inp' w', let r := timer_commit v inp' w' in
             it_value (timer_its (timer (world_of r)))
             = it_interval (timer_its (timer (world_of r)))).
  { intros v inp' w'. unfold timer_commit, timer_settime_or_die, bind, exec, get, ret, DIE.
    cbn. destruct (timer_settime (mkItimerspec v v)); reflexivity. }
  assert (Ht : forall n, let r := timer_set n inp w in
             it_value (timer_its (timer (world_of r)))
             = it_interval (timer_its (timer (world_of r)))).
  { intros n. unfold timer_set, timer_settime_or_die, bind, exec, get, ret, DIE.
    cbn. rewrite Hw.
    match goal with |- context [if ?c then _ else _] => destruct c end; reflexivity. }
  cbn in Hm. destruct Hm as [<- | [<- | [<- | [<- | []]]]].
  - unfold timer_accelerate, bind, get.
    repeat match goal with
           | |- context [if ?c then _ else _] => destruct c
           end; first [apply Ht | apply Hs | exact Hw].
  - unfold timer_slowdown, bind, get.
    repeat match goal with
           | |- context [if ?c then _ else _] => destruct c
           end; first [apply Hs | exact Hw].
  - unfold timer_reset, timer_settime_or_die, bind, exec, get, ret, DIE. cbn.
    match goal with |- context [if ?c then _ else _] => destruct c end; reflexivity.
  - apply Ht.
Qed.

(** [timer_commit] stores the value and returns exactly when the system
    accepts it. *)
Lemma timer_commit_spec (v : timespec) (inp : list Event) (w : World) :
  timer_commit v inp w
  = if timer_settime (both v) then Ok tt inp (set_timer_its (both v) w)
    else Died Strerror (set_timer_its (both v) w).
Proof.
  unfold timer_commit, timer_settime_or_die, bind, exec, get, ret, DIE, both. cbn.
  destruct (timer_settime _); reflexivity.
Qed.

(** From here on the system is assumed to accept every timespec that POSIX
    declares valid. *)
Hypothesis posix_accepted :
  forall its, posix_timer_settime its = true -> timer_settime its = true.

Lemma timer_accelerate_disabled (inp : list Event) (w : World) :
  timer_its (timer w) = both (mkTimespec 0 0) ->
  timer_accelerate inp w
  = Ok tt inp (set_timer_its (both (mkTimespec 0 start_speed)) w).
Proof.
  intros Hz.
  unfold timer_accelerate, bind, get. rewrite Hz.
  cbn [both it_interval it_value tv_sec tv_nsec Z.eqb andb].
  unfold timer_set, timer_settime_or_die, bind, exec, get, ret.
  cbn [set_timer_its set_timer timer timer_its]. rewrite Hz.
  cbn [both it_interval it_value tv_sec tv_nsec].
  rewrite posix_accepted by reflexivity. reflexivity.
Qed.

Lemma timer_accelerate_step (ns : Z) (inp : list Event) (w : World) :
  speed_step_width <= ns < 1000000000 ->
  timer_its (timer w) = both (mkTimespec 0 ns) ->
  timer_accelerate inp w
  = Ok tt inp (set_timer_its (both (mkTimespec 0 (ns - speed_step_width))) w).
Proof.
  intros Hns Hw.
  pose proof LONG_MAX_big as HL. unfold INT_MAX in HL.
  unfold speed_step_width in *.
  unfold timer_accelerate, bind, get. rewrite Hw.
  cbn [both it_interval it_value tv_sec tv_nsec Z.eqb andb nonzero negb].
  replace (ns =? 0) with false by (symmetry; apply Z.eqb_neq; lia).
  unfold speed_step_width.
  replace (ns >=? 10000000) with true
    by (symmetry; rewrite Z.geb_leb; apply Z.leb_le; lia).
  rewrite long_small by lia.
  rewrite timer_commit_spec.
  rewrite posix_accepted; [reflexivity|].
  unfold posix_timer_settime, timespec_valid, both.
  cbn [it_interval it_value tv_sec tv_nsec Z.leb Z.compare andb].
  replace (0 <=? ns - 10000000) with true by (symmetry; apply Z.leb_le; lia).
  replace (ns - 10000000 <? 1000000000) with true by (symmetry; apply Z.ltb_lt; lia).
  reflexivity.
Qed.

(** [k] accelerations take an interval of [k] steps down to zero. *)
Lemma timer_accelerate_down (k : nat) (inp : list Event) (w : World) :
  (k <= 99)%nat ->
  timer_its (timer w) = both (mkTimespec 0 (Z.of_nat k * speed_step_width)) ->
  repeatM k timer_accelerate inp w
  = Ok tt inp (set_timer_its (both (mkTimespec 0 0)) w).
Proof.
  revert w. induction k as [|k IH]; intros w Hk Hw.
  - cbn [repeatM Z.of_nat Z.mul] in *. unfold ret.
    rewrite <- Hw, set_timer_its_same. reflexivity.
  - cbn [repeatM]. unfold bind.
    rewrite (timer_accelerate_step (Z.of_nat (S k) * speed_step_width))
      by (unfold speed_step_width; try exact Hw; lia).
    rewrite IH.
    + rewrite set_timer_its_twice. reflexivity.
    + lia.
    + cbn [set_timer_its set_timer timer timer_its]. unfold speed_step_width.
      replace (Z.of_nat (S k) * 10000000 - 10000000)
        with (Z.of_nat k * 10000000) by lia.
      reflexivity.
Qed.

(** One more acceleration from an interval of [j] steps, [j] up to 25: a
    step down, or from zero back up to the start speed. *)
Lemma timer_accelerate_next (j : Z) (inp : list Event) (w : World) :
  0 <= j <= 25 ->
  timer_its (timer w) = both (mkTimespec 0 (j * speed_step_width)) ->
  timer_accelerate inp w
  = Ok tt inp
      (set_timer_its
         (both (mkTimespec 0 ((if j =? 0 then 25 else j - 1) * speed_step_width))) w).
Proof.
  intros Hj Hw. destruct (Z.eqb_spec j 0) as [-> | Hnz].
  - now rewrite timer_accelerate_disabled.
  - rewrite (timer_accelerate_step (j * speed_step_width))
      by (unfold speed_step_width; try exact Hw; lia).
    unfold speed_step_width.
    replace (j * 10000000 - 10000000) with ((j - 1) * 10000000) by lia.
    reflexivity.
Qed.

(** C4.  From the start speed the interval after any number of
    accelerations is a whole number of steps between 0 and 25, so it is never
    negative; but no number of accelerations reaches a floor that the next
    one keeps: a further call always changes the interval, one step down or,
    from zero, back up to the start speed. *)
Theorem timer_accelerate_has_no_floor (inp : list Event) (w : World) (n : nat) :
  timer_its (timer w) = both (mkTimespec 0 start_speed) ->
  exists j : Z,
    0 <= j <= 25
    /\ repeatM n timer_accelerate inp w
       = Ok tt inp (set_timer_its (both (mkTimespec 0 (j * speed_step_width))) w)
    /\ repeatM (S n) timer_accelerate inp w
       = Ok tt inp
           (set_timer_its
              (both (mkTimespec 0 ((if j =? 0 then 25 else j - 1) * speed_step_width)))
              w)
    /\ (if j =? 0 then 25 else j - 1) * speed_step_width <> j * speed_step_width.
Proof.
  intros Hw.
  assert (Hnext : forall j, 0 <= j <= 25 ->
            repeatM n timer_accelerate inp w
            = Ok tt inp (set_timer_its (both (mkTimespec 0 (j * speed_step_width))) w) ->
            repeatM (S n) timer_accelerate inp w
            = Ok tt inp
                (set_timer_its
                   (both (mkTimespec 0
                      ((if j =? 0 then 25 else j - 1) * speed_step_width))) w)).
  { intros j Hj Hn. replace (S n) with (n + 1)%nat by lia.
    rewrite (repeatM_plus _ _ _ _ _ _ _ Hn). cbn [repeatM]. unfold bind.
    rewrite (timer_accelerate_next j) by (try reflexivity; exact Hj).
    unfold ret. rewrite set_timer_its_twice. reflexivity. }
  assert (Hn : exists j, 0 <= j <= 25
            /\ repeatM n timer_accelerate inp w
               = Ok tt inp
                   (set_timer_its (both (mkTimespec 0 (j * speed_step_width))) w)).
  { clear Hnext. induction n as [|n [j [Hj IH]]].
    - exists 25. split; [lia|]. cbn [repeatM]. unfold ret.
      change (25 * speed_step_width) with start_speed.
      rewrite <- Hw, set_timer_its_same. reflexivity.
    - exists (if j =? 0 then 25 else j - 1). split.
      + destruct (Z.eqb_spec j 0); lia.
      + replace (S n) with (n + 1)%nat by lia.
        rewrite (repeatM_plus _ _ _ _ _ _ _ IH). cbn [repeatM]. unfold bind.
        rewrite (timer_accelerate_next j) by (try reflexivity; exact Hj).
        unfold ret. rewrite set_timer_its_twice. reflexivity. }
  destruct Hn as [j [Hj Hn]]. exists j.
  repeat split; try lia; auto.
  unfold speed_step_width. destruct (Z.eqb_spec j 0); lia.
Qed.

End TimerProperties.

(** ** The timer at one second *)

Section TimerLimit.
Context {P : Platform}.

(** The system is POSIX: [timer_settime] takes a timespec exactly when its
    nanoseconds are below one second (and nothing is negative). *)
Hypothesis posix : forall its, timer_settime its = posix_timer_settime its.

Lemma timer_slowdown_step (ns : Z) (inp : list Event) (w : World) :
  0 < ns -> ns + speed_step_width < 1000000000 ->
  timer_its (timer w) = both (mkTimespec 0 ns) ->
  timer_slowdown inp w
  = Ok tt inp (set_timer_its (both (mkTimespec 0 (ns + speed_step_width))) w).
Proof.
  intros Hns Hlt Hw.
  pose proof LONG_MAX_big as HL. unfold INT_MAX in HL.
  unfold speed_step_width in *.
  unfold timer_slowdown, bind, get. rewrite Hw.
  cbn [both it_interval it_value tv_sec tv_nsec Z.eqb andb].
  replace (ns =? 0) with false by (symmetry; apply Z.eqb_neq; lia).
  unfold speed_step_width.
  rewrite (long_small (LONG_MAX - 10000000)) by lia.
  replace (LONG_MAX - 10000000 >=? ns) with true
    by (symmetry; rewrite Z.geb_leb; apply Z.leb_le; lia).
  rewrite long_small by lia.
  rewrite timer_commit_spec, posix.
  unfold posix_timer_settime, timespec_valid, both.
  cbn [it_interval it_value tv_sec tv_nsec Z.leb Z.compare andb].
  replace (0 <=? ns + 10000000) with true by (symmetry; apply Z.leb_le; lia).
  replace (ns + 10000000 <? 1000000000) with true by (symmetry; apply Z.ltb_lt; lia).
  reflexivity.
Qed.

(** C5.  While the timer is disabled (interval zero) [timer_slowdown] changes
    nothing.  While it is armed with an interval that POSIX allows, the call
    stores an interval one step longer; it returns as long as the nanoseconds
    of that interval are below one second, and otherwise [timer_settime]
    refuses it and the process exits: the carry into the seconds is taken at
    [LONG_MAX] nanoseconds, which no such interval reaches. *)
Theorem timer_slowdown_stops_at_one_second (sec ns : Z) (inp : list Event)
        (w : World) :
  (it_interval (timer_its (timer w)) = mkTimespec 0 0 ->
   timer_slowdown inp w = Ok tt inp w)
  /\ (timer_its (timer w) = both (mkTimespec sec ns) ->
      0 <= sec -> 0 <= ns < 1000000000 -> 0 < sec \/ 0 < ns ->
      let longer := both (mkTimespec sec (ns + speed_step_width)) in
      timer_slowdown inp w
      = if ns + speed_step_width <? 1000000000
        then Ok tt inp (set_timer_its longer w)
        else Died Strerror (set_timer_its longer w)).
Proof.
  split.
  - intros Hz. unfold timer_slowdown, bind, get. rewrite Hz. reflexivity.
  - intros Hw Hsec Hns Harmed. cbv zeta.
    pose proof LONG_MAX_big as HL. unfold INT_MAX in HL.
    unfold timer_slowdown, bind, get. rewrite Hw.
    cbn [both it_interval it_value tv_sec tv_nsec].
    replace ((sec =? 0) && (ns =? 0)) with false.
    2:{ symmetry. apply andb_false_iff.
        destruct Harmed; [left | right]; apply Z.eqb_neq; lia. }
    unfold speed_step_width.
    rewrite (long_small (LONG_MAX - 10000000)) by lia.
    replace (LONG_MAX - 10000000 >=? ns) with true
      by (symmetry; rewrite Z.geb_leb; apply Z.leb_le; lia).
    rewrite long_small by lia.
    rewrite timer_commit_spec, posix.
    unfold posix_timer_settime, timespec_valid, both.
    cbn [it_interval it_value tv_sec tv_nsec].
    replace (0 <=? sec) with true by (symmetry; apply Z.leb_le; lia).
    replace (0 <=? ns + 10000000) with true by (symmetry; apply Z.leb_le; lia).
    cbn [andb]. destruct (ns + 10000000 <? 1000000000); reflexivity.
Qed.

Lemma timer_slowdown_up (k : nat) (inp : list Event) (w : World) :
  (k <= 74)%nat ->
  timer_its (timer w)
  = both (mkTimespec 0 (990000000 - Z.of_nat k * speed_step_width)) ->
  repeatM k timer_slowdown inp w
  = Ok tt inp (set_timer_its (both (mkTimespec 0 990000000)) w).
Proof.
  revert w. induction k as [|k IH]; intros w Hk Hw.
  - cbn [repeatM Z.of_nat Z.mul Z.sub Z.opp Z.add] in *. unfold ret.
    rewrite <- Hw, set_timer_its_same. reflexivity.
  - cbn [repeatM]. unfold bind.
    rewrite (timer_slowdown_step (990000000 - Z.of_nat (S k) * speed_step_width))
      by (unfold speed_step_width; try exact Hw; lia).
    rewrite IH.
    + rewrite set_timer_its_twice. reflexivity.
    + lia.
    + cbn [set_timer_its set_timer timer timer_its]. unfold speed_step_width.
      replace (990000000 - Z.of_nat (S k) * 10000000 + 10000000)
        with (990000000 - Z.of_nat k * 10000000) by lia.
      reflexivity.
Qed.

(** Slowing down 75 times from the start speed brings the interval to one
    second; the carry into the seconds is taken at [LONG_MAX] nanoseconds, not
    at one second, so the timespec handed to [timer_settime] has 1000000000
    nanoseconds, a POSIX system refuses it, and the process exits. *)
Theorem slowdown_to_one_second_exits (inp : list Event) (w : World) :
  timer_its (timer w) = both (mkTimespec 0 start_speed) ->
  repeatM 75 timer_slowdown inp w
  = Died Strerror (set_timer_its (both (mkTimespec 0 1000000000)) w).
Proof.
  intros Hw.
  pose proof LONG_MAX_big as HL. unfold INT_MAX in HL.
  change 75%nat with (74 + 1)%nat.
  rewrite (repeatM_plus 74 1 timer_slowdown inp inp w
             (set_timer_its (both (mkTimespec 0 990000000)) w))
    by (apply timer_slowdown_up; [lia | exact Hw]).
  cbn [repeatM]. unfold bind at 1.
  unfold timer_slowdown, bind, get.
  cbn [set_timer_its set_timer timer timer_its both it_interval it_value
       tv_sec tv_nsec Z.eqb andb].
  unfold speed_step_width.
  rewrite (long_small (LONG_MAX - 10000000)) by lia.
  replace (LONG_MAX - 10000000 >=? 990000000) with true
    by (symmetry; rewrite Z.geb_leb; apply Z.leb_le; lia).
  rewrite long_small by lia.
  rewrite timer_commit_spec, posix. reflexivity.
Qed.

End TimerLimit.

(** ** Relations kept by every outcome of a computation *)

Section Preservation.
Context {P : Platform}.
Variable R : World -> World -> Prop.
Hypothesis R_refl : forall w, R w w.
Hypothesis R_trans : forall w1 w2 w3, R w1 w2 -> R w2 w3 -> R w1 w3.

Lemma preserves_ret {A : Type} (a : A) : preserves R (ret a).
Proof. intros inp w. apply R_refl. Qed.

Lemma preserves_get : preserves R get.
Proof. intros inp w. apply R_refl. Qed.

Lemma preserves_DIE {A : Type} (f : Fatal) : preserves R (@DIE A f).
Proof. intros inp w. apply R_refl. Qed.

Lemma preserves_exec (f : World -> World) :
  (forall w, R w (f w)) -> preserves R (exec f).
Proof. intros Hf inp w. apply Hf. Qed.

Lemma preserves_bind {A B : Type} (m : M A) (k : A -> M B) :
  preserves R m -> (forall a, preserves R (k a)) -> preserves R (bind m k).
Proof.
  intros Hm Hk inp w. unfold bind.
  specialize (Hm inp w). destruct (m inp w) as [a inp' w' | |]; cbn in *; auto.
  eapply R_trans; [exact Hm | apply Hk].
Qed.

Lemma preserves_curses_check_size : preserves R curses_check_size.
Proof.
  unfold curses_check_size. apply preserves_bind; [apply preserves_get|].
  intros w.
  repeat match goal with
         | |- preserves _ (if ?c then _ else _) => destruct c
         end; first [apply preserves_DIE | apply preserves_ret].
Qed.

Lemma preserves_curses_set_windows : preserves R curses_set_windows.
Proof.
  unfold curses_set_windows. apply preserves_bind; [apply preserves_get|].
  intros w. destruct (newwin _ _ _ _); [apply preserves_ret | apply preserves_DIE].
Qed.

Lemma preserves_timer_settime_or_die : preserves R timer_settime_or_die.
Proof.
  unfold timer_settime_or_die. apply preserves_bind; [apply preserves_get|].
  intros w. destruct (timer_settime _); [apply preserves_ret | apply preserves_DIE].
Qed.

(** A resize keeps what its five changes of the session keep. *)
Lemma preserves_game_resize :
  (forall w, R w (set_curses (mkCurses (COLS w) (LINES w)) w)) ->
  (forall w, R w (emit (Wresize (GAMEWIN_LINES w) (GAMEWIN_COLS w)) w)) ->
  (forall w, R w (level_resize w)) ->
  (forall w, R w (goal_place w)) ->
  (forall w, R w (game_update_screen w)) ->
  preserves R game_resize.
Proof.
  intros H1 H2 H3 H4 H5. unfold game_resize, curses_resize.
  apply preserves_bind; [|intros _].
  { apply preserves_bind; [apply preserves_exec, H1 | intros _].
    apply preserves_bind; [apply preserves_curses_check_size | intros _].
    apply preserves_bind; [apply preserves_exec, H2 | intros _].
    apply preserves_curses_set_windows. }
  apply preserves_bind; [apply preserves_exec, H3 | intros _].
  apply preserves_bind; [apply preserves_exec, H4 | intros _].
  apply preserves_exec, H5.
Qed.

End Preservation.

Lemma level_draw_loop_frame (remaining : nat) (i : Z) (w : World) :
  resize_frame w (level_draw_loop remaining i w).
Proof.
  revert i w. induction remaining as [|n IH]; intros i w; cbn [level_draw_loop].
  - split; reflexivity.
  - destruct (IH (int (i + 1))
                 (emit (Mvwaddwstr (int (game_y_offset (game w) + i))
                                   (game_x_offset (game w))
                                   (nth (Z.to_nat i) (game_field (game w)) [])) w))
      as [Ht Hg].
    split; [rewrite Ht | rewrite Hg]; reflexivity.
Qed.

Lemma resize_frame_refl (w : World) : resize_frame w w.
Proof. split; reflexivity. Qed.

Lemma resize_frame_trans (w1 w2 w3 : World) :
  resize_frame w1 w2 -> resize_frame w2 w3 -> resize_frame w1 w3.
Proof. intros [T1 G1] [T2 G2]. split; congruence. Qed.

(** A resize leaves the timer and a termination request as they are. *)
Lemma game_resize_frame {P : Platform} : preserves resize_frame game_resize.
Proof.
  apply preserves_game_resize.
  - apply resize_frame_refl.
  - apply resize_frame_trans.
  - intros w. split; reflexivity.
  - intros w. split; reflexivity.
  - intros w. unfold level_resize, level_draw.
    match goal with
    | |- resize_frame _ (level_draw_loop ?n ?i ?v) =>
        destruct (level_draw_loop_frame n i v) as [Ht Hg];
        split; [rewrite Ht | rewrite Hg]; reflexivity
    end.
  - intros w. split; reflexivity.
  - intros w. unfold game_update_screen.
    destruct (car_position_changed _); split; reflexivity.
Qed.

(** ** What drawing, keys and resizing leave alone *)

Section Evolution.
Context {P : Platform}.
Variable ok : Action -> bool.
Hypothesis ok_drawing : forall a, drawing a = true -> ok a = true.

Lemma evolves_refl (w : World) : evolves ok w w.
Proof.
  constructor; auto. exists []. split; reflexivity.
Qed.

Lemma evolves_trans (w1 w2 w3 : World) :
  evolves ok w1 w2 -> evolves ok w2 w3 -> evolves ok w1 w3.
Proof.
  intros [[l1 [S1 O1]] R1 T1 C1 B1] [[l2 [S2 O2]] R2 T2 C2 B2].
  constructor; auto.
  - exists (l2 ++ l1). split.
    + rewrite S2, S1. apply app_assoc.
    + rewrite forallb_app, O1, O2. reflexivity.
  - congruence.
Qed.

Lemma evolves_emit (a : Action) (w : World) :
  ok a = true -> evolves ok w (emit a w).
Proof.
  intros Ha. constructor; auto.
  exists [a]. split; [reflexivity|]. cbn. now rewrite Ha.
Qed.

(** A change of the session that touches neither the surface, nor the flags
    of [game], nor the car. *)
Lemma evolves_inner (w w' : World) :
  surface w' = surface w ->
  game_need_resize (game w') = game_need_resize (game w) ->
  game_need_terminate (game w') = game_need_terminate (game w) ->
  game_borders (game w') = game_borders (game w) ->
  (car_old_pos (car w) = car_pos (car w) ->
   car_old_pos (car w') = car_pos (car w')) ->
  evolves ok w w'.
Proof.
  intros Hs Hr Ht Hb Hc. constructor; auto; try congruence.
  exists []. split; [exact Hs | reflexivity].
Qed.

Lemma evolves_sig_hdl (sig : Signal) (w : World) : evolves ok w (sig_hdl sig w).
Proof.
  destruct sig; constructor; auto; try (exists []; split; reflexivity).
Qed.

Lemma evolves_signals (sigs : list Signal) (w : World) :
  evolves ok w (fold_left (fun w' s => sig_hdl s w') sigs w).
Proof.
  revert w. induction sigs as [|s sigs IH]; intros w; cbn.
  - apply evolves_refl.
  - eapply evolves_trans; [apply evolves_sig_hdl | apply IH].
Qed.

Lemma evolves_wget_wch (e : Event) (w : World) :
  evolves ok w (snd (wget_wch e w)).
Proof.
  destruct e; cbn [wget_wch snd]; try apply evolves_refl.
  - apply evolves_inner; auto.
  - apply evolves_signals.
Qed.

Lemma evolves_game_update_screen (w : World) :
  evolves ok w (game_update_screen w).
Proof.
  unfold game_update_screen.
  destruct (car_position_changed _);
    constructor; cbn [emit set_car surface game car car_old_pos car_pos
                      set_car_old_pos]; auto.
  - eexists [_; _; _]. split; [reflexivity|].
    cbn. rewrite !ok_drawing by reflexivity. reflexivity.
  - eexists [_; _]. split; [reflexivity|].
    cbn. rewrite !ok_drawing by reflexivity. reflexivity.
Qed.

Lemma evolves_goal_place (w : World) : evolves ok w (goal_place w).
Proof. apply evolves_emit, ok_drawing. reflexivity. Qed.

Lemma evolves_mscl_clear (w : World) : evolves ok w (mscl_clear w).
Proof. apply evolves_emit, ok_drawing. reflexivity. Qed.

Lemma evolves_level_draw_loop (remaining : nat) (i : Z) (w : World) :
  evolves ok w (level_draw_loop remaining i w).
Proof.
  revert i w. induction remaining as [|n IH]; intros i w; cbn [level_draw_loop].
  - apply evolves_refl.
  - eapply evolves_trans; [|apply IH].
    apply evolves_emit, ok_drawing. reflexivity.
Qed.

Lemma evolves_level_resize (w : World) : evolves ok w (level_resize w).
Proof.
  unfold level_resize, level_draw.
  eapply evolves_trans; [|apply evolves_level_draw_loop].
  apply evolves_inner; try reflexivity.
  cbn [set_game_offsets set_game set_car set_goal car car_old_pos car_pos
       set_car_old_pos set_car_pos set_car_start_pos].
  intros ->. reflexivity.
Qed.

Lemma evolves_car_reset (w : World) : evolves ok w (car_reset w).
Proof.
  unfold car_reset. apply evolves_inner.
  - destruct (car_start_direction _); reflexivity.
  - destruct (car_start_direction _); reflexivity.
  - destruct (car_start_direction _); reflexivity.
  - destruct (car_start_direction _); reflexivity.
  - intros _. destruct (car_start_direction _); reflexivity.
Qed.

Lemma evolves_game_resize : preserves (evolves ok) game_resize.
Proof.
  apply preserves_game_resize.
  - apply evolves_refl.
  - apply evolves_trans.
  - intros w. apply evolves_inner; auto.
  - intros w. apply evolves_emit, ok_drawing. reflexivity.
  - apply evolves_level_resize.
  - apply evolves_goal_place.
  - apply evolves_game_update_screen.
Qed.

Lemma evolves_curses_wgetch_loop (mscl_used : bool) :
  preserves (evolves ok) (curses_wgetch_loop mscl_used).
Proof.
  intros inp. revert mscl_used.
  induction inp as [|e rest IH]; intros mscl_used w; cbn [curses_wgetch_loop].
  - apply evolves_refl.
  - pose proof (evolves_wget_wch e w) as Hw.
    destruct (wget_wch e w) as [[[r wch] eintr] w1]. cbn [snd] in Hw.
    assert (Hfin : evolves ok w (if mscl_used then mscl_clear w1 else w1)).
    { destruct mscl_used; [|exact Hw].
      eapply evolves_trans; [exact Hw | apply evolves_mscl_clear]. }
    destruct ((r =? KEY_CODE_YES) && (wch =? KEY_RESIZE)).
    + pose proof (evolves_game_resize rest w1) as Hr.
      destruct (game_resize rest w1) as [[] inp2 w2 | f w2 | w2]; cbn in Hr.
      * eapply evolves_trans; [exact Hw|].
        eapply evolves_trans; [exact Hr | apply IH].
      * cbn. eapply evolves_trans; [exact Hw | exact Hr].
      * cbn. eapply evolves_trans; [exact Hw | exact Hr].
    + destruct (negb (r =? ERR)); [exact Hfin|].
      destruct eintr; [exact Hfin|].
      eapply evolves_trans; [|apply IH].
      eapply evolves_trans; [exact Hw|].
      eapply evolves_trans; [apply evolves_mscl_clear|].
      apply evolves_emit, ok_drawing. reflexivity.
Qed.

Ltac seq := apply (preserves_bind _ evolves_trans).
Ltac done_ret := apply (preserves_ret _ evolves_refl).

Lemma evolves_game_reset : preserves (evolves ok) game_reset.
Proof.
  unfold game_reset, timer_reset.
  seq; [|intros _].
  { apply preserves_exec. intros w. apply evolves_emit, ok_drawing. reflexivity. }
  seq; [apply preserves_exec, evolves_car_reset | intros _].
  seq; [|intros _; apply (preserves_timer_settime_or_die _ evolves_refl evolves_trans)].
  apply preserves_exec. intros w. apply evolves_inner; auto.
Qed.

Lemma evolves_game_play_again_loop (fuel : nat) :
  preserves (evolves ok) (game_play_again_loop fuel).
Proof.
  induction fuel as [|fuel IH]; intros inp w; cbn [game_play_again_loop].
  - apply evolves_refl.
  - pose proof (evolves_curses_wgetch_loop false inp w) as Hg.
    unfold curses_wgetch.
    destruct (curses_wgetch_loop false inp w) as [[r wch] inp' w' | |];
      cbn in Hg |- *; auto.
    destruct (negb (wch =? 121) && negb (wch =? 110)); [|exact Hg].
    eapply evolves_trans; [exact Hg | apply IH].
Qed.

(** What [game_play_again] does once the question is on the message line. *)
Lemma evolves_play_again_answer :
  preserves (evolves ok)
    (wch <- (fun inp => game_play_again_loop (S (List.length inp)) inp) ;;
     exec mscl_clear ;;
     if wch =? 121 then game_reset ;; ret true else ret false).
Proof.
  seq; [|intros wch].
  - intros inp w. apply evolves_game_play_again_loop.
  - seq; [apply preserves_exec, evolves_mscl_clear|].
    intros _. destruct (wch =? 121); [|done_ret].
    seq; [apply evolves_game_reset|].
    intros _. done_ret.
Qed.

(** The same with what [game_won] and [game_over] do after the answer. *)
Lemma evolves_play_again_answer_then_goal :
  preserves (evolves ok)
    (result <- (wch <- (fun inp => game_play_again_loop (S (List.length inp)) inp) ;;
                exec mscl_clear ;;
                if wch =? 121 then game_reset ;; ret true else ret false) ;;
     (if result : bool then exec goal_place else ret tt) ;;
     ret result).
Proof.
  seq; [apply evolves_play_again_answer | intros result].
  seq; [|intros _; done_ret].
  destruct result; [apply preserves_exec, evolves_goal_place | done_ret].
Qed.

Lemma evolves_game_play_again (msg : string) :
  ok (Mscl msg) = true -> preserves (evolves ok) (game_play_again msg).
Proof.
  intros Hmsg. unfold game_play_again.
  seq; [|intros _; apply evolves_play_again_answer].
  apply preserves_exec. intros w. now apply evolves_emit.
Qed.

Lemma evolves_play_again_then_goal (msg : string) :
  ok (Mscl msg) = true ->
  preserves (evolves ok) (result <- game_play_again msg ;;
                (if result : bool then exec goal_place else ret tt) ;;
                ret result).
Proof.
  intros Hmsg.
  seq; [now apply evolves_game_play_again|].
  intros result. seq; [|intros _; done_ret].
  destruct result; [apply preserves_exec, evolves_goal_place | done_ret].
Qed.

End Evolution.

(** ** Input and fuel

    The two loops that read keys are defined with fuel.  Every turn of
    either reads at least one event, so [S (length inp)] turns are never all
    used: with that much fuel or more the result is the same. *)

Section InputUse.
Context {P : Platform}.

Lemma shrinks_ret {A : Type} (a : A) : shrinks (ret a).
Proof. intros inp w a' inp' w' E. unfold ret in E. inversion E; subst. lia. Qed.

Lemma shrinks_get : shrinks get.
Proof. intros inp w v inp' w' E. unfold get in E. inversion E; subst. lia. Qed.

Lemma shrinks_exec (f : World -> World) : shrinks (exec f).
Proof. intros inp w u inp' w' E. unfold exec in E. inversion E; subst. lia. Qed.

Lemma shrinks_DIE {A : Type} (f : Fatal) : shrinks (@DIE A f).
Proof. intros inp w a' inp' w' E. discriminate. Qed.

Lemma shrinks_bind {A B : Type} (m : M A) (k : A -> M B) :
  shrinks m -> (forall a, shrinks (k a)) -> shrinks (bind m k).
Proof.
  intros Hm Hk inp w b inp' w' E. unfold bind in E.
  destruct (m inp w) as [a inp1 w1 | |] eqn:Em; try discriminate.
  apply Hm in Em. apply Hk in E. lia.
Qed.

Create HintDb shrinks.

Ltac shrink :=
  repeat first
    [ apply shrinks_ret | apply shrinks_get | apply shrinks_DIE | apply shrinks_exec
    | match goal with
      | |- shrinks (bind _ _) => apply shrinks_bind; [|intros ?]
      | |- shrinks (if ?c then _ else _) => destruct c
      | |- shrinks (match ?x with _ => _ end) => destruct x
      end
    | solve [auto with shrinks] ].

Lemma shrinks_timer_settime_or_die : shrinks timer_settime_or_die.
Proof. unfold timer_settime_or_die. shrink. Qed.
Hint Resolve shrinks_timer_settime_or_die : shrinks.

Lemma shrinks_timer_accelerate : shrinks timer_accelerate.
Proof. unfold timer_accelerate, timer_set, timer_commit. shrink. Qed.

Lemma shrinks_timer_slowdown : shrinks timer_slowdown.
Proof. unfold timer_slowdown, timer_commit. shrink. Qed.

Lemma shrinks_game_resize : shrinks game_resize.
Proof.
  unfold game_resize, curses_resize, curses_check_size, curses_set_windows. shrink.
Qed.

Lemma shrinks_game_reset : shrinks game_reset.
Proof. unfold game_reset, timer_reset. shrink. Qed.
Hint Resolve shrinks_timer_accelerate shrinks_timer_slowdown
     shrinks_game_resize shrinks_game_reset : shrinks.

(** [curses_wgetch] reads at least one event before it returns. *)
Lemma curses_wgetch_loop_reads (mscl_used : bool) (inp inp' : list Event)
      (w w' : World) (got : Z * wint_t) :
  curses_wgetch_loop mscl_used inp w = Ok got inp' w' ->
  (List.length inp' < List.length inp)%nat.
Proof.
  revert mscl_used w. induction inp as [|e rest IH]; intros mscl_used w E;
    cbn [curses_wgetch_loop] in E; [discriminate|].
  destruct (wget_wch e w) as [[[r wch] eintr] w1].
  cbn [List.length].
  destruct ((r =? KEY_CODE_YES) && (wch =? KEY_RESIZE)).
  - destruct (game_resize rest w1) as [[] inp2 w2 | |]; try discriminate.
    apply IH in E. lia.
  - destruct (negb (r =? ERR)); [inversion E; subst; lia|].
    destruct eintr; [inversion E; subst; lia|].
    apply IH in E. lia.
Qed.

Lemma shrinks_game_play_again_loop (fuel : nat) :
  shrinks (game_play_again_loop fuel).
Proof.
  induction fuel as [|fuel IH]; intros inp w a inp' w' E;
    cbn [game_play_again_loop] in E; [discriminate|].
  unfold curses_wgetch in E.
  destruct (curses_wgetch_loop false inp w) as [[r wch] inp1 w1 | |] eqn:Eg;
    try discriminate.
  apply curses_wgetch_loop_reads in Eg.
  destruct (negb (wch =? 121) && negb (wch =? 110)).
  - apply IH in E. lia.
  - inversion E; subst. lia.
Qed.

Lemma shrinks_game_play_again (msg : string) : shrinks (game_play_again msg).
Proof.
  unfold game_play_again. shrink.
  intros inp w wch inp' w' E. now apply shrinks_game_play_again_loop in E.
Qed.
Hint Resolve shrinks_game_play_again : shrinks.

Lemma shrinks_game_continue : shrinks game_continue.
Proof. unfold game_continue, game_won, game_over. shrink. Qed.
Hint Resolve shrinks_game_continue : shrinks.

Lemma shrinks_game_loop_interrupted : shrinks game_loop_interrupted.
Proof. unfold game_loop_interrupted. shrink. Qed.
Hint Resolve shrinks_game_loop_interrupted : shrinks.

(** A turn of the game loop reads at least one event before it ends. *)
Lemma game_loop_body_reads (inp inp' : list Event) (w w' : World) (go_on : bool) :
  game_loop_body inp w = Ok go_on inp' w' ->
  (List.length inp' < List.length inp)%nat.
Proof.
  unfold game_loop_body. rewrite bind_exec. unfold bind at 1, curses_wgetch.
  destruct (curses_wgetch_loop false inp (game_update_screen w))
    as [[r wch] inp1 w1 | |] eqn:Eg; try discriminate.
  apply curses_wgetch_loop_reads in Eg. intros E.
  assert (Hs : shrinks
            (if r =? ERR then game_loop_interrupted
             else if r =? KEY_CODE_YES
             then (if wch =? KEY_DOWN then timer_slowdown
                   else if wch =? KEY_LEFT then exec car_turn_left
                   else if wch =? KEY_RIGHT then exec car_turn_right
                   else if wch =? KEY_UP then timer_accelerate
                   else ret tt) ;; ret true
             else if wch =? 97 then timer_accelerate ;; ret true
             else if wch =? 98 then timer_slowdown ;; ret true
             else if wch =? 113 then ret false
             else ret true)) by shrink.
  apply Hs in E. lia.
Qed.

(** Fuel above the length of the input does not matter to the prompt ... *)
Lemma game_play_again_loop_fuel (fuel fuel' : nat) (inp : list Event) (w : World) :
  (List.length inp < fuel)%nat -> (List.length inp < fuel')%nat ->
  game_play_again_loop fuel inp w = game_play_again_loop fuel' inp w.
Proof.
  revert fuel' inp w. induction fuel as [|fuel IH]; intros fuel' inp w H1 H2; [lia|].
  destruct fuel' as [|fuel']; [lia|]. cbn [game_play_again_loop].
  unfold curses_wgetch.
  destruct (curses_wgetch_loop false inp w) as [[r wch] inp1 w1 | |] eqn:Eg;
    try reflexivity.
  apply curses_wgetch_loop_reads in Eg.
  destruct (negb (wch =? 121) && negb (wch =? 110)); [|reflexivity].
  apply IH; lia.
Qed.

(** ... nor to the game loop. *)
Lemma game_loop_from_fuel (fuel fuel' : nat) (inp : list Event) (w : World) :
  (List.length inp < fuel)%nat -> (List.length inp < fuel')%nat ->
  game_loop_from fuel inp w = game_loop_from fuel' inp w.
Proof.
  revert fuel' inp w. induction fuel as [|fuel IH]; intros fuel' inp w H1 H2; [lia|].
  destruct fuel' as [|fuel']; [lia|]. cbn [game_loop_from].
  destruct (game_loop_body inp w) as [go_on inp1 w1 | |] eqn:Eb; try reflexivity.
  apply game_loop_body_reads in Eb.
  destruct go_on; [|reflexivity].
  apply IH; lia.
Qed.

(** The loops stop in [Starved] only when [wget_wch] has nothing to read:
    the prompt never runs out of fuel. *)
Lemma game_play_again_loop_starves (fuel : nat) (inp : list Event) (w w' : World) :
  (List.length inp < fuel)%nat ->
  game_play_again_loop fuel inp w = Starved w' ->
  exists b inp1 w1, curses_wgetch_loop b inp1 w1 = Starved w'.
Proof.
  revert inp w. induction fuel as [|fuel IH]; intros inp w Hf E; [lia|].
  cbn [game_play_again_loop] in E. unfold curses_wgetch in E.
  destruct (curses_wgetch_loop false inp w) as [[r wch] inp1 w1 | |] eqn:Eg;
    try discriminate.
  - apply curses_wgetch_loop_reads in Eg.
    destruct (negb (wch =? 121) && negb (wch =? 110)); [|discriminate].
    apply IH in E; [exact E | lia].
  - inversion E. subst. eauto.
Qed.

End InputUse.

(** ** Properties of the loop *)

Lemma car_position_changed_iff (w : World) :
  car_position_changed w = true <-> car_pos (car w) <> car_old_pos (car w).
Proof.
  unfold car_position_changed.
  destruct (car_pos (car w)) as [x y], (car_old_pos (car w)) as [x' y']. cbn.
  rewrite orb_true_iff, !negb_true_iff, !Z.eqb_neq. split.
  - intros [H | H] E; inversion E; contradiction.
  - intros H. destruct (Z.eq_dec x x') as [-> |]; [|now left].
    right. intros ->. now apply H.
Qed.

(** After [game_update_screen] the car is drawn where it is. *)
Lemma game_update_screen_settles (w : World) :
  car_old_pos (car (game_update_screen w)) = car_pos (car (game_update_screen w)).
Proof.
  unfold game_update_screen.
  destruct (car_position_changed (emit _ w)) eqn:E; cbn; [reflexivity|].
  apply not_true_iff_false in E. rewrite car_position_changed_iff in E.
  cbn in E. destruct (car_pos (car w)) as [x y], (car_old_pos (car w)) as [x' y'].
  destruct (Z.eq_dec x x') as [-> |]; [|exfalso; apply E; congruence].
  destruct (Z.eq_dec y y') as [-> |]; [|exfalso; apply E; congruence].
  reflexivity.
Qed.

Lemma drawing_no_crash_check (a : Action) :
  drawing a = true -> negb (crash_check a) = true.
Proof.
  destruct a; cbn; try reflexivity; try discriminate.
  intros E. apply String.eqb_eq in E. subst msg. reflexivity.
Qed.

Lemma car_move_game (w : World) : game (car_move w) = game w.
Proof.
  unfold car_move, car_go_down, car_go_left, car_go_right, car_go_up.
  destruct (car_direction (car w)), (negb (game_borders (game w))); reflexivity.
Qed.

(** An advance changes the car and nothing else. *)
Lemma car_move_only_car (w : World) : car_move w = set_car (car (car_move w)) w.
Proof.
  unfold car_move, car_go_down, car_go_left, car_go_right, car_go_up.
  destruct (car_direction (car w)), (negb (game_borders (game w))); reflexivity.
Qed.

Lemma car_move_old_pos (w : World) :
  car_old_pos (car (car_move w)) = car_old_pos (car w).
Proof.
  unfold car_move, car_go_down, car_go_left, car_go_right, car_go_up.
  destruct (car_direction (car w)), (negb (game_borders (game w))); reflexivity.
Qed.

Section LoopProperties.
Context {P : Platform}.

(** Whatever [game_continue] does, requests stay pending. *)
Lemma evolves_game_continue : preserves (evolves (fun _ => true)) game_continue.
Proof.
  assert (Hok : forall a, drawing a = true -> (fun _ : Action => true) a = true)
    by reflexivity.
  pose proof (@evolves_trans (fun _ => true)) as Ht.
  pose proof (@evolves_refl (fun _ => true)) as Hr.
  assert (Hover : preserves (evolves (fun _ => true)) game_over).
  { unfold game_over. apply (evolves_play_again_then_goal _ Hok). reflexivity. }
  assert (Hwon : preserves (evolves (fun _ => true)) game_won).
  { unfold game_won. apply (evolves_play_again_then_goal _ Hok). reflexivity. }
  unfold game_continue.
  apply (preserves_bind _ Ht); [apply (preserves_get _ Hr) | intros w].
  destruct (_ && _).
  { apply (preserves_bind _ Ht); [|intros _; exact Hwon].
    apply preserves_exec. intros w'. apply (evolves_game_update_screen _ Hok). }
  destruct (negb _); [apply (preserves_ret _ Hr)|].
  destruct (_ && _); [exact Hover|].
  apply (preserves_bind _ Ht); [|intros _].
  - apply preserves_exec. intros w'. apply evolves_emit. reflexivity.
  - destruct (mvwinnwstr _ _ _) as [wch|]; [|apply (preserves_ret _ Hr)].
    destruct (negb _); [exact Hover|].
    apply (preserves_ret _ Hr).
Qed.

(** C3.  When the car stands on the parking place, [game_continue] draws
    the car and asks "Won! Play again?": it is [game_won] on the redrawn
    screen, whatever the border mode, the previous position and the screen
    cells are, so also on the edge of the playable area.  Among the calls to
    the rendering surface, before that question and after it, none belongs to
    a crash check: no cell is read back and no "Game over" is shown. *)
Theorem goal_before_crash_checks (inp : list Event) (w : World) :
  pos_x (car_pos (car w)) = pos_x (goal_pos (goal w)) ->
  pos_y (car_pos (car w)) = pos_y (goal_pos (goal w)) ->
  game_continue inp w = game_won inp (game_update_screen w)
  /\ exists before later : list Action,
       surface (world_of (game_continue inp w))
       = later ++ Mscl "Won! Play again? [y/n]" :: before ++ surface w
       /\ forallb (fun a => negb (crash_check a)) before = true
       /\ forallb (fun a => negb (crash_check a)) later = true.
Proof.
  intros Hx Hy.
  assert (E : game_continue inp w = game_won inp (game_update_screen w)).
  { unfold game_continue. rewrite bind_get, Hx, Hy, !Z.eqb_refl. reflexivity. }
  split; [exact E|]. rewrite E.
  destruct (evolves_game_update_screen _ drawing_no_crash_check w)
    as [[before [Hb Hbok]] _ _ _ _].
  destruct (evolves_play_again_answer_then_goal _ drawing_no_crash_check inp
              (mscl "Won! Play again? [y/n]" (game_update_screen w)))
    as [[later [Hl Hlok]] _ _ _ _].
  exists before, later. repeat split; auto.
  transitivity (later ++ surface (mscl "Won! Play again? [y/n]" (game_update_screen w))).
  - exact Hl.
  - cbn [mscl emit surface]. rewrite Hb. reflexivity.
Qed.

(** C1, as the code has it.  On a tick whose advance ends off the parking
    place, on a new cell, inside the playable area or without borders, a
    failed read of the cell under the car makes [game_continue] answer
    [false] without any prompt, and the game loop ends there: the turn
    breaks out of the loop instead of going on to the next one. *)
Theorem read_failure_ends_the_game
        (fuel : nat) (inp inp' : list Event) (w w0 : World) (wch : wint_t) :
  (exec game_update_screen ;; curses_wgetch gamewin) inp w = Ok (ERR, wch) inp' w0 ->
  nonzero (timer_finished (timer w0)) = true ->
  let w1 := car_move w0 in
  let x := pos_x (car_pos (car w1)) in
  let y := pos_y (car_pos (car w1)) in
  (x =? pos_x (goal_pos (goal w1))) && (y =? pos_y (goal_pos (goal w1))) = false ->
  car_position_changed w1 = true ->
  game_borders (game w1) = false
  \/ (0 <= x < GAMEWIN_COLS w1 /\ 0 <= y < GAMEWIN_LINES w1) ->
  mvwinnwstr w1 y x = None ->
  game_continue inp' w1 = Ok false inp' (emit (Mvwinnwstr y x) w1)
  /\ game_loop_body inp w = Ok false inp' (emit (Mvwinnwstr y x) w1)
  /\ game_loop_from (S fuel) inp w = Ok tt inp' (emit (Mvwinnwstr y x) w1).
Proof.
  intros Hpre Hfin w1 x y Hgoal Hchg Hin Hread.
  assert (Hc : game_continue inp' w1 = Ok false inp' (emit (Mvwinnwstr y x) w1)).
  { unfold game_continue. rewrite bind_get. fold x y. rewrite Hgoal, Hchg.
    cbn [negb].
    assert (Hb : game_borders (game w1)
                 && ((x <? 0) || (y <? 0) || (x =? GAMEWIN_COLS w1)
                     || (y =? GAMEWIN_LINES w1)) = false).
    { destruct Hin as [-> | [Hx Hy]]; [reflexivity|].
      replace (x <? 0) with false by (symmetry; apply Z.ltb_ge; lia).
      replace (y <? 0) with false by (symmetry; apply Z.ltb_ge; lia).
      replace (x =? GAMEWIN_COLS w1) with false by (symmetry; apply Z.eqb_neq; lia).
      replace (y =? GAMEWIN_LINES w1) with false by (symmetry; apply Z.eqb_neq; lia).
      apply andb_false_r. }
    rewrite Hb, bind_exec, Hread. reflexivity. }
  assert (Hbody : game_loop_body inp w = Ok false inp' (emit (Mvwinnwstr y x) w1)).
  { unfold game_loop_body. rewrite bind_exec in Hpre. rewrite bind_exec.
    unfold bind at 1. rewrite Hpre. cbv beta iota. rewrite Z.eqb_refl.
    unfold game_loop_interrupted. rewrite bind_get, Hfin, bind_exec.
    fold w1. unfold bind at 1. rewrite Hc. reflexivity. }
  split; [exact Hc|]. split; [exact Hbody|].
  cbn [game_loop_from]. rewrite Hbody. reflexivity.
Qed.

(** C2, as the code has it.  After an interrupted wait the flags are
    inspected in the order tick fired, resize request, termination request,
    and the first one that is set is the only one handled.  While a tick is
    handled, resize and termination requests stay pending; while a resize is
    handled, the tick flag stays clear and the termination request is left as
    it is. *)
Theorem interrupted_handles_first_pending (inp : list Event) (w : World) :
  let order := [TickFired; ResizeRequest; TerminationRequest] in
  let w' := world_of (game_loop_interrupted inp w) in
  game_loop_interrupted inp w = handle_first_pending order inp w
  /\ match first_pending order w with
     | Some TickFired =>
         implb (pending ResizeRequest w) (pending ResizeRequest w') = true
         /\ implb (pending TerminationRequest w) (pending TerminationRequest w') = true
     | Some ResizeRequest =>
         pending TickFired w' = false
         /\ pending TerminationRequest w' = pending TerminationRequest w
     | Some TerminationRequest => game_loop_interrupted inp w = Died Terminated w
     | None => game_loop_interrupted inp w = Ok true inp w
     end.
Proof.
  cbv zeta.
  assert (E : game_loop_interrupted inp w
              = handle_first_pending [TickFired; ResizeRequest; TerminationRequest]
                  inp w).
  { unfold game_loop_interrupted, handle_first_pending, first_pending.
    rewrite !bind_get. cbn [find pending].
    destruct (nonzero (timer_finished (timer w))); [reflexivity|].
    destruct (nonzero (game_need_resize (game w))); [reflexivity|].
    destruct (nonzero (game_need_terminate (game w))); reflexivity. }
  split; [exact E|]. rewrite E.
  unfold handle_first_pending, first_pending. rewrite bind_get.
  cbn [find pending].
  destruct (nonzero (timer_finished (timer w))) eqn:Ftick.
  - (* the tick *)
    cbn [handle]. rewrite bind_exec.
    assert (Hrest : preserves (evolves (fun _ => true))
              (go_on <- game_continue ;;
               if negb go_on then ret false
               else exec (set_timer_finished 0) ;; ret true)).
    { apply (preserves_bind _ (@evolves_trans _)); [apply evolves_game_continue|].
      intros go_on. destruct (negb go_on).
      - apply (preserves_ret _ (@evolves_refl _)).
      - apply (preserves_bind _ (@evolves_trans _)).
        + apply preserves_exec. intros v. apply evolves_inner; auto.
        + intros _. apply (preserves_ret _ (@evolves_refl _)). }
    destruct (Hrest inp (car_move w)) as [_ Hres Hterm _ _].
    rewrite car_move_game in Hres, Hterm.
    split.
    + destruct (nonzero (game_need_resize (game w))); [|reflexivity].
      cbn [implb]. now apply Hres.
    + destruct (nonzero (game_need_terminate (game w))); [|reflexivity].
      cbn [implb]. now apply Hterm.
  - destruct (nonzero (game_need_resize (game w))) eqn:Fres.
    + (* the resize *)
      cbn [handle].
      assert (Hframe : preserves resize_frame
                (game_resize ;; exec (set_game_need_resize 0) ;; ret true)).
      { apply (preserves_bind _ resize_frame_trans); [apply game_resize_frame|].
        intros _. apply (preserves_bind _ resize_frame_trans).
        - apply preserves_exec. intros v. split; reflexivity.
        - intros _. apply (preserves_ret _ resize_frame_refl). }
      destruct (Hframe inp w) as [Ht Hg].
      rewrite Ht, Hg. split; [exact Ftick | reflexivity].
    + destruct (nonzero (game_need_terminate (game w))) eqn:Fterm; reflexivity.
Qed.

(** C10.  With borders, an advance moves the car by exactly one along the
    axis it faces (for coordinates that a step does not take out of [int]),
    and so never leaves it in place.  When the loop has waited for a key, the
    car is drawn where it is; after the advance of a tick its position then
    differs from the previous one, and [game_continue] cannot take its
    "position unchanged" return.  Without borders it can: in a playable area
    one column wide the car facing right wraps onto its own cell. *)
Theorem position_unchanged_needs_wrap_mode
        (inp inp' : list Event) (w w0 : World) (got : Z * wint_t)
        (d : Direction) (x y : Z) :
  (exec game_update_screen ;; curses_wgetch gamewin) inp w = Ok got inp' w0 ->
  game_borders (game w0) = true ->
  INT_MIN < x < INT_MAX ->
  INT_MIN < y < INT_MAX ->
  car_pos (car (car_move (place d x y w0)))
  = match d with
    | LEFT => mkPos (x - 1) y
    | RIGHT => mkPos (x + 1) y
    | UP => mkPos x (y - 1)
    | DOWN => mkPos x (y + 1)
    end
  /\ car_pos (car (car_move w0)) <> car_pos (car w0)
  /\ car_position_changed (car_move w0) = true
  /\ exists v : World,
       game_borders (game v) = false
       /\ GAMEWIN_COLS v = 1
       /\ car_old_pos (car v) = car_pos (car v)
       /\ car_position_changed (car_move v) = false
       /\ game_continue inp' (car_move v) = Ok true inp' (car_move v).
Proof.
  intros Hpre Hb Hx Hy.
  split; [now apply car_move_bordered|].
  split; [now apply car_move_bordered_moves|].
  split.
  - apply car_position_changed_iff. rewrite car_move_old_pos.
    assert (Hs : car_old_pos (car w0) = car_pos (car w0)).
    { rewrite bind_exec in Hpre.
      pose proof (evolves_curses_wgetch_loop (fun _ => true)
                    (fun _ _ => eq_refl) false inp (game_update_screen w)) as Hev.
      unfold curses_wgetch in Hpre. rewrite Hpre in Hev.
      apply (ev_settled _ _ _ Hev), game_update_screen_settles. }
    rewrite Hs. now apply car_move_bordered_moves.
  - exists one_column_world. repeat split; reflexivity.
Qed.

End LoopProperties.

(** ** Further properties of the engine *)

Section Further.
Context {P : Platform}.

(** With borders the car is not held back at the edge: facing right in the
    last column it advances to the column [GAMEWIN_COLS], and there, off the
    parking place, [game_continue] is [game_over]: the "Game over" question
    is put without any cell being read back. *)
Theorem leaving_the_area_is_a_crash (inp : list Event) (w : World) (y : Z) :
  game_borders (game w) = true ->
  1 <= GAMEWIN_COLS w < INT_MAX ->
  car_direction (car w) = RIGHT ->
  car_pos (car w) = mkPos (GAMEWIN_COLS w - 1) y ->
  car_old_pos (car w) = car_pos (car w) ->
  goal_pos (goal w) <> mkPos (GAMEWIN_COLS w) y ->
  car_pos (car (car_move w)) = mkPos (GAMEWIN_COLS w) y
  /\ game_continue inp (car_move w) = game_over inp (car_move w)
  /\ exists later : list Action,
       surface (world_of (game_continue inp (car_move w)))
       = later ++ Mscl "Game over. Play again? [y/n]" :: surface w
       /\ forallb drawing later = true.
Proof.
  intros Hb Hc Hd Hp Ho Hg.
  assert (Hpos : car_pos (car (car_move w)) = mkPos (GAMEWIN_COLS w) y).
  { unfold car_move, car_go_right. rewrite Hd, Hb, Hp. cbn.
    rewrite int_small by (unfold INT_MIN, INT_MAX in *; lia).
    unfold set_pos_x. cbn [pos_y]. f_equal. lia. }
  assert (Hcols : GAMEWIN_COLS (car_move w) = GAMEWIN_COLS w).
  { rewrite car_move_only_car. reflexivity. }
  assert (E : game_continue inp (car_move w) = game_over inp (car_move w)).
  { unfold game_continue. rewrite bind_get, Hpos. cbn [pos_x pos_y].
    assert (Hng : (GAMEWIN_COLS w =? pos_x (goal_pos (goal (car_move w))))
                  && (y =? pos_y (goal_pos (goal (car_move w)))) = false).
    { apply andb_false_iff.
      replace (goal (car_move w)) with (goal w)
        by (rewrite car_move_only_car; reflexivity).
      destruct (goal_pos (goal w)) as [gx gy]. cbn.
      destruct (Z.eqb_spec (GAMEWIN_COLS w) gx) as [E1 |]; [|now left].
      destruct (Z.eqb_spec y gy) as [E2 |]; [|now right].
      subst gx gy. now contradiction Hg. }
    rewrite Hng.
    assert (Hch : car_position_changed (car_move w) = true).
    { apply car_position_changed_iff. rewrite car_move_old_pos, Ho, Hpos, Hp.
      intros E. inversion E. lia. }
    rewrite Hch, car_move_game, Hb, Hcols, Z.eqb_refl. cbn [negb andb].
    now rewrite !orb_true_r. }
  split; [exact Hpos|]. split; [exact E|]. rewrite E.
  unfold game_over, game_play_again. rewrite bind_assoc, bind_exec.
  destruct (evolves_play_again_answer_then_goal drawing (fun a H => H) inp
              (mscl "Game over. Play again? [y/n]" (car_move w)))
    as [[later [Hl Hlok]] _ _ _ _].
  exists later. split; [|exact Hlok].
  transitivity (later ++ surface (mscl "Game over. Play again? [y/n]" (car_move w))).
  - exact Hl.
  - cbn [mscl emit surface].
    replace (surface (car_move w)) with (surface w)
      by (rewrite car_move_only_car; reflexivity).
    reflexivity.
Qed.

(** A resize after which the level no longer fits the playable area is
    fatal: the process exits over "Your terminal is too small for this
    level", nothing is redrawn. *)
Theorem resize_too_small_is_fatal (inp : list Event) (w : World) :
  let w1 := set_curses (mkCurses (COLS w) (LINES w)) w in
  game_cols (game w) > GAMEWIN_COLS w1 \/ game_lines (game w) > GAMEWIN_LINES w1 ->
  game_resize inp w = Died TerminalTooSmall w1.
Proof.
  intros w1 H.
  assert (Hc : curses_check_size inp w1 = Died TerminalTooSmall w1).
  { unfold curses_check_size. rewrite bind_get.
    replace ((game_cols (game w1) >? GAMEWIN_COLS w1)
             || (game_lines (game w1) >? GAMEWIN_LINES w1)) with true; [reflexivity|].
    symmetry. apply orb_true_iff. change (game w1) with (game w).
    destruct H as [H | H]; [left | right]; apply Z.gtb_lt; lia. }
  unfold game_resize, curses_resize. rewrite !bind_assoc, bind_exec. fold w1.
  rewrite !bind_assoc. unfold bind at 1. rewrite Hc. reflexivity.
Qed.

(** Answering the question of [game_play_again] with [y] starts a new round:
    the car is back at its start position and direction with the character
    of that direction, drawn nowhere else, and the timer is disabled, if the
    system takes the zero interval. *)
Theorem play_again_yes_resets (msg : string) (rest : list Event) (w : World) :
  timer_settime (both (mkTimespec 0 0)) = true ->
  exists w' : World,
    game_play_again msg (Typed 121 :: rest) w = Ok true rest w'
    /\ car_pos (car w') = car_start_pos (car w)
    /\ car_old_pos (car w') = car_start_pos (car w)
    /\ car_direction (car w') = car_start_direction (car w)
    /\ timer_its (timer w') = both (mkTimespec 0 0)
    /\ surface w'
       = [Mvwaddch (pos_y (car_old_pos (car w))) (pos_x (car_old_pos (car w))) SPACE;
          Mscl_clear; Mscl msg] ++ surface w.
Proof.
  intros Hz. unfold both in Hz.
  unfold game_play_again, game_reset, timer_reset, timer_settime_or_die,
    bind, exec, get, ret, DIE.
  cbn -[Z.eqb car_reset]. rewrite Hz.
  eexists. split; [reflexivity|].
  destruct w as [c cu g go t co li su]; destruct c as [cc l r u d sd dir p sp op].
  destruct sd; repeat split.
Qed.

End Further.

(** A whole run.  The level has the rows "  x", "   ", "→  ".  It loads with
    the car at column 37 of line 11 facing right and the parking place at
    column 39 of line 9.  After [a] and two ticks the car has advanced two
    cells and the loop waits for a key; turning left and two more ticks bring
    it onto the parking place, where the loop asks "Won! Play again?"; the
    answer [n] ends the loop. *)
Theorem a_round_won :
  let text := [32; 32; 120; 10; 32; 32; 32; 10; 8594; 32; 32; 10] in
  let at_start := world_of (play text []) in
  let underway := world_of (play text [Typed 97; tick; tick]) in
  let parked := play text [Typed 97; tick; tick; Pressed KEY_LEFT; tick; tick] in
  let over := play text [Typed 97; tick; tick; Pressed KEY_LEFT; tick; tick; Typed 110] in
  (car_pos (car at_start) = mkPos 37 11
   /\ car_direction (car at_start) = RIGHT
   /\ goal_pos (goal at_start) = mkPos 39 9
   /\ game_field (game at_start) = [[32; 32; 120]; [32; 32; 32]; [32; 32; 32]])
  /\ (car_pos (car underway) = mkPos 39 11
      /\ car_direction (car underway) = RIGHT
      /\ existsb crash_check (surface underway) = true
      /\ existsb (fun a => match a with Mscl _ => true | _ => false end)
                 (surface underway) = false)
  /\ (outcome parked = Waiting
      /\ car_pos (car (world_of parked)) = mkPos 39 9
      /\ hd Doupdate (surface (world_of parked)) = Mscl "Won! Play again? [y/n]")
  /\ outcome over = Returned.
Proof.
  cbv zeta. repeat split; vm_compute; reflexivity.
Qed.

(** ** The level *)

(** C8.  The scan counts rows, not markers: [wcschr] finds the first marker
    of a row and the row is left.  A level with two goal markers in one row
    is accepted; so is one with two start markers in one row, of which the
    second stays in the grid; and three goal markers in two rows are
    reported as two. *)
Theorem level_init_counts_rows :
  let two_goals := [120; 120; 10; 8594; 32; 10] in             (* "xx", "→ " *)
  let two_starts := [120; 32; 10; 8594; 8594; 10] in           (* "x ", "→→" *)
  let three_goals := [120; 120; 10; 120; 32; 10; 8594; 32; 10] in (* "xx", "x ", "→ " *)
  (goal_markers [[120; 120]; [8594; 32]] = 2
   /\ outcome (load_level two_goals) = Returned
   /\ game_field (game (world_of (load_level two_goals))) = [[120; 120]; [32; 32]])
  /\ (start_markers [[120; 32]; [8594; 8594]] = 2
      /\ outcome (load_level two_starts) = Returned
      /\ game_field (game (world_of (load_level two_starts)))
         = [[120; 32]; [32; 8594]])
  /\ (goal_markers [[120; 120]; [120; 32]; [8594; 32]] = 3
      /\ outcome (load_level three_goals) = Exited (GoalCount 2)).
Proof.
  cbv zeta. repeat split; vm_compute; reflexivity.
Qed.

(** C9.  A level with one goal marker and one start marker is refused when
    both are in the same row: the row is left as soon as the goal marker is
    found, the start marker is never looked for, and the process exits over
    "0 start positions" with the marker still in the grid.  The level here is
    the 3 x 3 grid with a right-facing start marker at (0,1) and the goal
    marker at (2,1). *)
Theorem level_init_refuses_markers_in_one_row :
  let text := [32; 32; 32; 10; 8594; 32; 120; 10; 32; 32; 32; 10] in
  let field := [[32; 32; 32]; [8594; 32; 120]; [32; 32; 32]] in
  goal_markers field = 1
  /\ start_markers field = 1
  /\ outcome (load_level text) = Exited (StartCount 0)
  /\ game_field (game (world_of (load_level text))) = field.
Proof.
  cbv zeta. repeat split; vm_compute; reflexivity.
Qed.

(** ** What the scan of the level does get right *)

Lemma count_char_cons (wc a : wchar_t) (row : list wchar_t) :
  count_char wc (a :: row) = (if wc =? a then 1 else 0) + count_char wc row.
Proof.
  unfold count_char. cbn [filter]. destruct (wc =? a); cbn [List.length]; lia.
Qed.

Lemma count_char_nonneg (wc : wchar_t) (row : list wchar_t) :
  0 <= count_char wc row.
Proof. unfold count_char. lia. Qed.

Lemma wcschr_nonneg (row : list wchar_t) (wc : wchar_t) (k : Z) :
  wcschr row wc = Some k -> 0 <= k.
Proof.
  revert k. induction row as [|a row IH]; intros k E; cbn in E; [discriminate|].
  destruct (a =? wc); [inversion E; lia|].
  destruct (wcschr row wc) as [j|]; [|discriminate].
  inversion E. specialize (IH j eq_refl). lia.
Qed.

Lemma wcschr_none_count (row : list wchar_t) (wc : wchar_t) :
  wcschr row wc = None -> count_char wc row = 0.
Proof.
  induction row as [|a row IH]; intros E; [reflexivity|].
  cbn in E. rewrite count_char_cons.
  destruct (Z.eqb_spec a wc) as [-> | N]; [discriminate|].
  destruct (wcschr row wc); [discriminate|].
  replace (wc =? a) with false by (symmetry; apply Z.eqb_neq; congruence).
  rewrite IH; reflexivity.
Qed.

Lemma wcschr_some_count (row : list wchar_t) (wc : wchar_t) (k : Z) :
  wcschr row wc = Some k -> 1 <= count_char wc row.
Proof.
  revert k. induction row as [|a row IH]; intros k E; cbn in E; [discriminate|].
  rewrite count_char_cons. pose proof (count_char_nonneg wc row).
  destruct (Z.eqb_spec a wc) as [-> | N].
  - rewrite Z.eqb_refl. lia.
  - destruct (wcschr row wc) as [j|]; [|discriminate].
    specialize (IH j eq_refl). destruct (wc =? a); lia.
Qed.

(** Blanking the character that [wcschr] found takes one occurrence of it
    away and leaves the count of any other character but the blank. *)
Lemma store_count (row : list wchar_t) (wc other : wchar_t) (k : Z) :
  wcschr row wc = Some k -> wc <> SPACE -> other <> SPACE ->
  count_char other (store row (Z.to_nat k) SPACE)
  = count_char other row - (if other =? wc then 1 else 0).
Proof.
  revert k. induction row as [|a row IH]; intros k E Hwc Ho; cbn in E; [discriminate|].
  destruct (Z.eqb_spec a wc) as [-> | N].
  - inversion E. subst k. cbn [Z.to_nat store]. rewrite !count_char_cons.
    replace (other =? SPACE) with false by (symmetry; now apply Z.eqb_neq). lia.
  - destruct (wcschr row wc) as [j|] eqn:Ej; [|discriminate].
    inversion E. subst k. pose proof (wcschr_nonneg _ _ _ Ej).
    replace (Z.to_nat (j + 1)) with (S (Z.to_nat j)) by lia.
    cbn [store]. rewrite !count_char_cons, (IH j eq_refl Hwc Ho). lia.
Qed.

Lemma store_length {A : Type} (l : list A) (k : nat) (v : A) :
  List.length (store l k v) = List.length l.
Proof.
  revert k. induction l as [|a l IH]; intros [|k]; cbn; auto.
Qed.

Lemma store_app {A : Type} (pre rest : list A) (a v : A) :
  store (pre ++ a :: rest) (List.length pre) v = pre ++ v :: rest.
Proof.
  induction pre as [|b pre IH]; cbn; [reflexivity | now rewrite IH].
Qed.

(** A row the scan has been over: the goal markers are all there, and one
    start marker is gone if the row held one and no goal marker. *)
Lemma scanned_counts (row : list wchar_t) :
  count_char chars_goal (scanned row) = count_char chars_goal row
  /\ start_markers_row (scanned row)
     = start_markers_row row
       - (match wcschr row chars_goal, wcschr_car row with
          | None, Some _ => 1
          | _, _ => 0
          end).
Proof.
  unfold scanned. destruct (wcschr row chars_goal) as [g|]; [split; lia|].
  unfold wcschr_car, start_markers_row.
  destruct (wcschr row chars_car_down) as [k|] eqn:Ed.
  { rewrite !(store_count _ _ _ _ Ed) by discriminate. cbn. split; lia. }
  destruct (wcschr row chars_car_left) as [k|] eqn:El.
  { rewrite !(store_count _ _ _ _ El) by discriminate. cbn. split; lia. }
  destruct (wcschr row chars_car_right) as [k|] eqn:Er.
  { rewrite !(store_count _ _ _ _ Er) by discriminate. cbn. split; lia. }
  destruct (wcschr row chars_car_up) as [k|] eqn:Eu.
  { rewrite !(store_count _ _ _ _ Eu) by discriminate. cbn. split; lia. }
  split; lia.
Qed.

Lemma wcschr_car_none (row : list wchar_t) :
  wcschr_car row = None -> start_markers_row row = 0.
Proof.
  unfold wcschr_car, start_markers_row. intros E.
  destruct (wcschr row chars_car_down) eqn:Ed; [discriminate|].
  destruct (wcschr row chars_car_left) eqn:El; [discriminate|].
  destruct (wcschr row chars_car_right) eqn:Er; [discriminate|].
  destruct (wcschr row chars_car_up) eqn:Eu; [discriminate|].
  now rewrite !wcschr_none_count.
Qed.

Lemma start_markers_row_nonneg (row : list wchar_t) : 0 <= start_markers_row row.
Proof.
  unfold start_markers_row.
  pose proof (count_char_nonneg chars_car_down row).
  pose proof (count_char_nonneg chars_car_left row).
  pose proof (count_char_nonneg chars_car_right row).
  pose proof (count_char_nonneg chars_car_up row). lia.
Qed.

Lemma start_markers_cons (row : list wchar_t) (field : list (list wchar_t)) :
  start_markers (row :: field) = start_markers_row row + start_markers field.
Proof. unfold start_markers_row, start_markers. cbn [fold_right]. lia. Qed.

Lemma goal_markers_nonneg (field : list (list wchar_t)) : 0 <= goal_markers field.
Proof.
  induction field as [|row field IH]; cbn [goal_markers fold_right]; [lia|].
  pose proof (count_char_nonneg chars_goal row). fold (goal_markers field). lia.
Qed.

Lemma start_markers_nonneg (field : list (list wchar_t)) : 0 <= start_markers field.
Proof.
  induction field as [|row field IH]; [cbn; lia|].
  rewrite start_markers_cons. pose proof (start_markers_row_nonneg row). lia.
Qed.

(** One goal marker in the level: one row is counted as a goal row. *)
Lemma goal_rows_one (field : list (list wchar_t)) :
  (goal_markers field = 0 -> goal_rows field = 0)
  /\ (goal_markers field = 1 -> goal_rows field = 1).
Proof.
  induction field as [|row field [IH0 IH1]]; [split; [reflexivity | discriminate]|].
  cbn [goal_markers goal_rows fold_right].
  fold (goal_markers field). fold (goal_rows field).
  pose proof (count_char_nonneg chars_goal row).
  pose proof (goal_markers_nonneg field).
  destruct (wcschr row chars_goal) as [k|] eqn:E.
  - apply wcschr_some_count in E. split; intros; [lia|]. rewrite IH0; lia.
  - apply wcschr_none_count in E. rewrite E.
    split; intros; [rewrite IH0 | rewrite IH1]; lia.
Qed.

(** One start marker in the level, in a row without goal marker: one row is
    counted as a start row. *)
Lemma start_rows_one (field : list (list wchar_t)) :
  (forall row, In row field ->
     count_char chars_goal row = 0 \/ start_markers_row row = 0) ->
  (start_markers field = 0 -> start_rows field = 0)
  /\ (start_markers field = 1 -> start_rows field = 1).
Proof.
  induction field as [|row field IH]; intros H;
    [split; [reflexivity | discriminate]|].
  destruct IH as [IH0 IH1]; [intros r Hr; apply H; now right|].
  rewrite start_markers_cons. cbn [start_rows fold_right]. fold (start_rows field).
  pose proof (start_markers_row_nonneg row).
  pose proof (start_markers_nonneg field).
  destruct (wcschr row chars_goal) as [k|] eqn:Eg.
  - apply wcschr_some_count in Eg.
    destruct (H row (or_introl eq_refl)) as [Hg | Hs]; [lia|]. rewrite Hs.
    split; intros; [rewrite IH0 | rewrite IH1]; lia.
  - destruct (wcschr_car row) as [[k d]|] eqn:Ec.
    + assert (1 <= start_markers_row row).
      { pose proof (proj2 (scanned_counts row)) as Hsc. rewrite Eg, Ec in Hsc.
        pose proof (start_markers_row_nonneg (scanned row)). lia. }
      split; intros; [lia|]. rewrite IH0; lia.
    + rewrite (wcschr_car_none _ Ec).
      split; intros; [rewrite IH0 | rewrite IH1]; lia.
Qed.

Lemma scanned_field_counts (field : list (list wchar_t)) :
  goal_markers (map scanned field) = goal_markers field
  /\ start_markers (map scanned field) = start_markers field - start_rows field.
Proof.
  induction field as [|row field [IHg IHs]]; [split; reflexivity|].
  cbn [map]. rewrite !start_markers_cons.
  cbn [goal_markers start_rows fold_right].
  fold (goal_markers (map scanned field)). fold (goal_markers field).
  fold (start_rows field).
  destruct (scanned_counts row) as [Hg Hs]. rewrite Hg, Hs, IHg, IHs.
  split; lia.
Qed.

Section LevelProperties.
Context {P : Platform}.

Lemma bind_if_exec {A : Type} (c : bool) (f : World -> World) (k : unit -> M A)
      (inp : list Event) (w : World) :
  bind (if c then exec f else ret tt) k inp w = k tt inp (if c then f w else w).
Proof. destruct c; reflexivity. Qed.

End LevelProperties.

(** ** The car without borders *)

Lemma GAMEWIN_LINES_range (w : World) : INT_MIN <= GAMEWIN_LINES w <= INT_MAX.
Proof. unfold GAMEWIN_LINES. destruct (game_borders (game w)); apply int_range. Qed.

Lemma mod_succ (a c : Z) :
  0 < c ->
  (a + 1) mod c = if a mod c + 1 =? c then 0 else a mod c + 1.
Proof.
  intros Hc. pose proof (Z.mod_pos_bound a c Hc) as Hb.
  destruct (Z.eqb_spec (a mod c + 1) c) as [E | E].
  - rewrite <- Zplus_mod_idemp_l. rewrite E at 1. apply Z.mod_same. lia.
  - rewrite <- Zplus_mod_idemp_l. apply Z.mod_small. lia.
Qed.

Lemma mod_pred (a c : Z) :
  0 < c ->
  (a - 1) mod c = if a mod c =? 0 then c - 1 else a mod c - 1.
Proof.
  intros Hc. pose proof (Z.mod_pos_bound a c Hc) as Hb.
  rewrite <- Zminus_mod_idemp_l.
  destruct (Z.eqb_spec (a mod c) 0) as [E | E].
  - rewrite E. replace (0 - 1) with (c - 1 + (-1) * c) by lia.
    rewrite Z.mod_add by lia. apply Z.mod_small. lia.
  - apply Z.mod_small. lia.
Qed.

(** Without borders an advance keeps the car inside the playable area. *)
Theorem car_move_stays_inside (w : World) :
  game_borders (game w) = false ->
  GAMEWIN_COLS w <= INT_MAX ->
  car_inside w ->
  car_inside (car_move w).
Proof.
  intros Hb Hc [Hx Hy]. pose proof (GAMEWIN_LINES_range w) as Hl.
  unfold car_inside.
  replace (GAMEWIN_COLS (car_move w)) with (GAMEWIN_COLS w)
    by (rewrite car_move_only_car; reflexivity).
  replace (GAMEWIN_LINES (car_move w)) with (GAMEWIN_LINES w)
    by (rewrite car_move_only_car; reflexivity).
  unfold car_move, car_go_down, car_go_left, car_go_right, car_go_up, nonzero.
  rewrite Hb. cbn [negb].
  destruct (car_direction (car w));
    cbn [car set_car car_pos set_car_pos pos_x pos_y set_pos_x set_pos_y];
    rewrite !int_small by (unfold INT_MIN, INT_MAX in *; lia).
  - destruct (Z.eqb_spec (pos_x (car_pos (car w))) 0); cbn [negb]; lia.
  - destruct (Z.eqb_spec (pos_x (car_pos (car w)) + 1) (GAMEWIN_COLS w)); lia.
  - destruct (Z.eqb_spec (pos_y (car_pos (car w))) 0); cbn [negb]; lia.
  - destruct (Z.eqb_spec (pos_y (car_pos (car w)) + 1) (GAMEWIN_LINES w)); lia.
Qed.

Ltac ints :=
  repeat match goal with
  | |- context [int ?z] => rewrite (int_small z) by (unfold INT_MIN, INT_MAX in *; lia)
  end.
Ltac decide_eqb :=
  repeat match goal with
  | |- context [?a =? ?b] =>
      first [ replace (a =? b) with true by (symmetry; apply Z.eqb_eq; lia)
            | replace (a =? b) with false by (symmetry; apply Z.eqb_neq; lia) ]
  end.

Ltac settle :=
  repeat (progress (cbn [car game curses set_car car_pos set_car_pos pos_x pos_y
                         set_pos_x set_pos_y negb];
                    repeat match goal with
                    | H : ?v = ?t |- context [?t] => is_var v; rewrite <- H
                    end;
                    ints; decide_eqb;
                    repeat match goal with H : game_borders _ = _ |- _ => rewrite H end)).

Ltac finish :=
  unfold set_car, set_car_pos, set_pos_x, set_pos_y;
  cbn [car car_car car_left car_right car_up car_down car_start_direction
       car_direction car_pos car_start_pos car_old_pos pos_x pos_y];
  repeat f_equal; lia.

(** Without borders the four moves are inverse in pairs on a car inside the
    playable area. *)
Theorem car_go_back_and_forth (w : World) :
  game_borders (game w) = false ->
  GAMEWIN_COLS w <= INT_MAX ->
  car_inside w ->
  car_go_left (car_go_right w) = w
  /\ car_go_right (car_go_left w) = w
  /\ car_go_up (car_go_down w) = w
  /\ car_go_down (car_go_up w) = w.
Proof.
  intros Hb Hc [Hx Hy]. pose proof (GAMEWIN_LINES_range w) as Hl.
  destruct w as [c cu g go t co li su]; destruct c as [cc l r u d sd dir p sp op].
  destruct p as [x y].
  unfold car_go_down, car_go_left, car_go_right, car_go_up, nonzero,
    GAMEWIN_COLS, GAMEWIN_LINES in *.
  cbn [car game curses set_car car_pos set_car_pos pos_x pos_y set_pos_x set_pos_y] in *.
  rewrite Hb in *. cbn [negb].
  remember (curses_cols cu) as C. remember (int (curses_lines cu - 1)) as L.
  assert (Hc1 : INT_MIN <= C - 1 <= INT_MAX) by (unfold INT_MIN, INT_MAX in *; lia).
  assert (Hl1 : INT_MIN <= L - 1 <= INT_MAX) by (unfold INT_MIN, INT_MAX in *; lia).
  repeat split.
  - ints. destruct (Z.eqb_spec (x + 1) C); settle; finish.
  - destruct (Z.eqb_spec x 0); settle; finish.
  - ints. destruct (Z.eqb_spec (y + 1) L); settle; finish.
  - destruct (Z.eqb_spec y 0); settle; finish.
Qed.

(** Where [n] advances without borders take a car that is inside the
    playable area: along its axis, modulo the length of that axis. *)
Lemma car_move_iter (n : nat) (w : World) :
  game_borders (game w) = false ->
  GAMEWIN_COLS w <= INT_MAX ->
  car_inside w ->
  Nat.iter n car_move w
  = set_car (set_car_pos
      (let p := car_pos (car w) in
       match car_direction (car w) with
       | RIGHT => mkPos ((pos_x p + Z.of_nat n) mod GAMEWIN_COLS w) (pos_y p)
       | LEFT => mkPos ((pos_x p - Z.of_nat n) mod GAMEWIN_COLS w) (pos_y p)
       | DOWN => mkPos (pos_x p) ((pos_y p + Z.of_nat n) mod GAMEWIN_LINES w)
       | UP => mkPos (pos_x p) ((pos_y p - Z.of_nat n) mod GAMEWIN_LINES w)
       end) (car w)) w.
Proof.
  intros Hb Hc [Hx Hy]. pose proof (GAMEWIN_LINES_range w) as Hl. cbv zeta.
  induction n as [|n IH].
  - cbn [Nat.iter Z.of_nat]. rewrite !Z.add_0_r, !Z.sub_0_r, !Z.mod_small by lia.
    destruct w as [c cu g go t co li su]; destruct c as [cc l r u d sd dir p sp op].
    destruct p as [x y]. destruct dir; reflexivity.
  - change (Nat.iter (S n) car_move w) with (car_move (Nat.iter n car_move w)).
    rewrite IH. clear IH.
    replace (Z.of_nat (S n)) with (Z.of_nat n + 1) by lia.
    rewrite !Z.add_assoc, !Z.sub_add_distr.
    rewrite (mod_succ _ (GAMEWIN_COLS w)), (mod_pred _ (GAMEWIN_COLS w)),
      (mod_succ _ (GAMEWIN_LINES w)), (mod_pred _ (GAMEWIN_LINES w)) by lia.
    pose proof (Z.mod_pos_bound (pos_x (car_pos (car w)) + Z.of_nat n) (GAMEWIN_COLS w)).
    pose proof (Z.mod_pos_bound (pos_x (car_pos (car w)) - Z.of_nat n) (GAMEWIN_COLS w)).
    pose proof (Z.mod_pos_bound (pos_y (car_pos (car w)) + Z.of_nat n) (GAMEWIN_LINES w)).
    pose proof (Z.mod_pos_bound (pos_y (car_pos (car w)) - Z.of_nat n) (GAMEWIN_LINES w)).
    destruct w as [c cu g go t co li su]; destruct c as [cc l r u d sd dir p sp op].
    destruct p as [x y].
    unfold car_move, car_go_down, car_go_left, car_go_right, car_go_up, nonzero,
      GAMEWIN_COLS, GAMEWIN_LINES in *.
    cbn [car game curses set_car car_pos set_car_pos pos_x pos_y set_pos_x set_pos_y
         car_direction] in *.
    rewrite Hb in *.
    remember (curses_cols cu) as C. remember (int (curses_lines cu - 1)) as L.
    destruct dir; settle.
    + destruct ((x - Z.of_nat n) mod C =? 0); settle; finish.
    + destruct ((x + Z.of_nat n) mod C + 1 =? C); settle; finish.
    + destruct ((y - Z.of_nat n) mod L =? 0); settle; finish.
    + destruct ((y + Z.of_nat n) mod L + 1 =? L); settle; finish.
Qed.

(** Without borders a car that drives straight on is back on its cell after
    as many advances as its axis is long: the columns of the playable area
    for a car facing left or right, the lines for one facing up or down. *)
Theorem car_move_comes_round (w : World) :
  game_borders (game w) = false ->
  GAMEWIN_COLS w <= INT_MAX ->
  car_inside w ->
  Nat.iter (Z.to_nat (match car_direction (car w) with
                      | LEFT | RIGHT => GAMEWIN_COLS w
                      | UP | DOWN => GAMEWIN_LINES w
                      end)) car_move w = w.
Proof.
  intros Hb Hc Hin. rewrite car_move_iter by assumption. cbv zeta.
  destruct Hin as [Hx Hy].
  destruct w as [c cu g go t co li su]; destruct c as [cc l r u d sd dir p sp op].
  destruct p as [x y]. cbn [car car_direction car_pos pos_x pos_y] in *.
  set (C := GAMEWIN_COLS _) in *. set (L := GAMEWIN_LINES _) in *.
  destruct dir; rewrite Z2Nat.id by lia.
  - replace (x - C) with (x + (-1) * C) by lia.
    rewrite Z.mod_add, Z.mod_small by lia. reflexivity.
  - replace (x + C) with (x + 1 * C) by lia.
    rewrite Z.mod_add, Z.mod_small by lia. reflexivity.
  - replace (y - L) with (y + (-1) * L) by lia.
    rewrite Z.mod_add, Z.mod_small by lia. reflexivity.
  - replace (y + L) with (y + 1 * L) by lia.
    rewrite Z.mod_add, Z.mod_small by lia. reflexivity.
Qed.

(** Three turns to the left are one turn to the right, and four turns to
    the left bring the direction back, with the character of that direction. *)
Theorem car_turn_left_thrice (w : World) :
  car_turn_left (car_turn_left (car_turn_left w)) = car_turn_right w
  /\ car_turn_right (car_turn_right (car_turn_right w)) = car_turn_left w
  /\ car_turn_left (car_turn_left (car_turn_left (car_turn_left w)))
     = car_set_direction (car_direction (car w)) w.
Proof.
  destruct w as [c cu g go t co li su]; destruct c as [cc l r u d sd dir p sp op].
  destruct dir; repeat split.
Qed.

(** ** Signals *)

Lemma sig_hdl_comm (a b : Signal) (w : World) :
  sig_hdl a (sig_hdl b w) = sig_hdl b (sig_hdl a w).
Proof. destruct a, b; reflexivity. Qed.

Lemma sig_hdl_idem (a : Signal) (w : World) :
  sig_hdl a (sig_hdl a w) = sig_hdl a w.
Proof. destruct a; reflexivity. Qed.

Lemma deliver_sig_hdl (sigs : list Signal) (a : Signal) (w : World) :
  deliver sigs (sig_hdl a w) = sig_hdl a (deliver sigs w).
Proof.
  revert w. induction sigs as [|s sigs IH]; intros w; [reflexivity|].
  cbn [deliver fold_left]. fold (deliver sigs (sig_hdl s (sig_hdl a w))).
  fold (deliver sigs (sig_hdl s w)). rewrite sig_hdl_comm. apply IH.
Qed.

Lemma deliver_absorbs (sigs : list Signal) (a : Signal) (w : World) :
  In a sigs -> sig_hdl a (deliver sigs w) = deliver sigs w.
Proof.
  revert w. induction sigs as [|s sigs IH]; intros w Hin; [contradiction|].
  cbn [deliver fold_left]. fold (deliver sigs (sig_hdl s w)).
  destruct Hin as [-> | Hin].
  - rewrite deliver_sig_hdl, sig_hdl_idem. reflexivity.
  - apply IH, Hin.
Qed.

Lemma deliver_included (sigs sigs' : list Signal) (w : World) :
  incl sigs' sigs -> deliver sigs' (deliver sigs w) = deliver sigs w.
Proof.
  intros Hin. induction sigs' as [|s sigs' IH]; [reflexivity|].
  cbn [deliver fold_left]. fold (deliver sigs' (sig_hdl s (deliver sigs w))).
  rewrite deliver_absorbs by (apply Hin; now left).
  apply IH. intros x Hx. apply Hin. now right.
Qed.

Lemma deliver_comm (sigs sigs' : list Signal) (w : World) :
  deliver sigs' (deliver sigs w) = deliver sigs (deliver sigs' w).
Proof.
  revert w. induction sigs' as [|s sigs' IH]; intros w; [reflexivity|].
  cbn [deliver fold_left]. fold (deliver sigs' (sig_hdl s (deliver sigs w))).
  fold (deliver sigs' (sig_hdl s w)).
  rewrite <- deliver_sig_hdl. apply IH.
Qed.

(** The handlers only raise flags: an interrupted read leaves the same
    session whatever the order of the signals that interrupted it and
    however often each of them came. *)
Theorem signals_are_not_counted (sigs sigs' : list Signal) (wch : wint_t) (w : World) :
  (forall s, In s sigs <-> In s sigs') ->
  wget_wch (Signalled sigs wch) w = wget_wch (Signalled sigs' wch) w.
Proof.
  intros H. cbn [wget_wch]. f_equal.
  change (deliver sigs w = deliver sigs' w).
  rewrite <- (deliver_included sigs sigs' w) by (intros s Hs; now apply H).
  rewrite deliver_comm.
  apply deliver_included. intros s Hs. now apply H.
Qed.

(** ** The keyboard *)

Section KeyboardProperties.
Context {P : Platform}.

Lemma curses_wgetch_loop_clears (inp inp' : list Event) (w w' : World)
      (got : Z * wint_t) :
  curses_wgetch_loop true inp w = Ok got inp' w' ->
  exists earlier, surface w' = Mscl_clear :: earlier.
Proof.
  revert w. induction inp as [|e inp IH]; intros w E; [discriminate|].
  cbn [curses_wgetch_loop] in E.
  destruct (wget_wch e w) as [[[r wch] eintr] w1].
  destruct ((r =? KEY_CODE_YES) && (wch =? KEY_RESIZE)).
  - destruct (game_resize inp w1) as [[] inp1 w2 | |]; try discriminate.
    now apply IH in E.
  - destruct (negb (r =? ERR)); [|destruct eintr].
    + inversion E; subst. eexists; reflexivity.
    + inversion E; subst. eexists; reflexivity.
    + now apply IH in E.
Qed.

(** When [curses_wgetch] returns after an input error, the last thing it
    did to the screen was to erase the message line: what was written there
    before the call, the question of [game_play_again] for one, is gone. *)
Theorem input_error_costs_the_message (win : Window) (wch : wint_t)
        (inp inp' : list Event) (w w' : World) (got : Z * wint_t) :
  curses_wgetch win (Failed wch :: inp) w = Ok got inp' w' ->
  exists between,
    surface w'
    = Mscl_clear :: between ++ Mscl "Input Error" :: Mscl_clear :: surface w.
Proof.
  intros E. unfold curses_wgetch in E. cbn [curses_wgetch_loop wget_wch] in E.
  change ((ERR =? KEY_CODE_YES) && (wch =? KEY_RESIZE)) with false in E.
  change (negb (ERR =? ERR)) with false in E. cbv beta iota in E.
  destruct (curses_wgetch_loop_clears _ _ _ _ _ E) as [earlier He].
  pose proof (evolves_curses_wgetch_loop (fun _ => true) (fun _ _ => eq_refl) true
                inp (mscl "Input Error" (mscl_clear w))) as Hev.
  rewrite E in Hev. destruct Hev as [[l [Hl _]] _ _ _ _].
  cbn [world_of mscl mscl_clear emit surface] in Hl.
  destruct l as [|a l].
  - rewrite He in Hl. discriminate.
  - rewrite He in Hl. inversion Hl; subst. exists l. exact He.
Qed.


(** What [curses_wgetch] hands to its caller is a character, a function key
    other than [KEY_RESIZE], or the interruption by a signal; it has read at
    least one event for it. *)
Theorem curses_wgetch_returns_a_key (win : Window) (inp inp' : list Event)
        (w w' : World) (r : Z) (wch : wint_t) :
  curses_wgetch win inp w = Ok (r, wch) inp' w' ->
  (r = OK \/ (r = KEY_CODE_YES /\ wch <> KEY_RESIZE) \/ r = ERR)
  /\ (List.length inp' < List.length inp)%nat.
Proof.
  intros E. split; [|exact (curses_wgetch_loop_reads _ _ _ _ _ _ E)].
  unfold curses_wgetch in E. revert E. generalize false as used. revert w.
  induction inp as [|e inp IH]; intros w used E; [discriminate|].
  cbn [curses_wgetch_loop] in E.
  destruct e as [c | c | co li | sigs c | c]; cbn [wget_wch] in E.
  - cbn in E. inversion E; subst. now left.
  - change (KEY_CODE_YES =? KEY_CODE_YES) with true in E. cbn [andb] in E.
    destruct (Z.eqb_spec c KEY_RESIZE) as [-> | Hne].
    + destruct (game_resize inp w) as [[] inp1 w2 | |]; try discriminate.
      exact (IH _ _ E).
    + cbn in E. inversion E; subst. right; left. now split.
  - change (KEY_CODE_YES =? KEY_CODE_YES) with true in E.
    change (KEY_RESIZE =? KEY_RESIZE) with true in E. cbn [andb] in E.
    destruct (game_resize inp (set_term co li w)) as [[] inp1 w2 | |];
      try discriminate.
    exact (IH _ _ E).
  - cbn in E. inversion E; subst. now right; right.
  - cbn in E. exact (IH _ _ E).
Qed.

End KeyboardProperties.

(** ** The steps of a round *)

Lemma reaches_trans (w1 w2 w3 : World) :
  reaches w1 w2 -> reaches w2 w3 -> reaches w1 w3.
Proof.
  intros H12 H23. induction H12 as [|a b c Hs _ IH]; [exact H23|].
  eapply reaches_step; [exact Hs | apply IH, H23].
Qed.

Lemma reaches_one (w w' : World) : step w w' -> reaches w w'.
Proof. intros H. eapply reaches_step; [exact H | apply reaches_refl]. Qed.

Create HintDb steps.
#[local] Hint Resolve reaches_refl : steps.
#[local] Hint Extern 1 (reaches _ _) => (apply reaches_one; constructor) : steps.

Section Steps.
Context {P : Platform}.

Ltac walk :=
  repeat first
    [ solve [auto with steps]
    | apply (preserves_ret _ reaches_refl)
    | apply (preserves_get _ reaches_refl)
    | apply (preserves_DIE _ reaches_refl)
    | apply (preserves_timer_settime_or_die _ reaches_refl reaches_trans)
    | apply preserves_exec; intros ?; solve [auto with steps]
    | match goal with
      | |- preserves _ (if ?c then _ else _) => destruct c
      | |- preserves _ (match ?c with _ => _ end) => destruct c
      end
    | apply (preserves_bind _ reaches_trans); [|intros ?] ].

Lemma reaches_timer_accelerate : preserves reaches timer_accelerate.
Proof. unfold timer_accelerate, timer_set, timer_commit. walk. Qed.

Lemma reaches_timer_slowdown : preserves reaches timer_slowdown.
Proof. unfold timer_slowdown, timer_commit. walk. Qed.

Lemma reaches_timer_reset : preserves reaches timer_reset.
Proof. unfold timer_reset. walk. Qed.

Lemma reaches_timer_start : preserves reaches timer_start.
Proof. unfold timer_start. walk. Qed.

Lemma reaches_timer_end : preserves reaches timer_end.
Proof. unfold timer_end. walk. Qed.

Lemma reaches_game_resize : preserves reaches game_resize.
Proof.
  apply preserves_game_resize;
    [apply reaches_refl | apply reaches_trans | intros w; apply reaches_one ..].
  - apply step_curses.
  - apply step_emit.
  - apply step_level_resize.
  - unfold goal_place. apply step_emit.
  - apply step_update_screen.
Qed.

Hint Resolve reaches_timer_accelerate reaches_timer_slowdown reaches_timer_reset
  reaches_timer_start reaches_timer_end reaches_game_resize : steps.

Lemma reaches_deliver (sigs : list Signal) (w : World) :
  reaches w (fold_left (fun w' s => sig_hdl s w') sigs w).
Proof.
  revert w. induction sigs as [|s sigs IH]; intros w; [apply reaches_refl|].
  cbn [fold_left]. eapply reaches_step; [constructor | apply IH].
Qed.

Lemma reaches_wget_wch (e : Event) (w : World) : reaches w (snd (wget_wch e w)).
Proof.
  destruct e; cbn [wget_wch snd]; auto using reaches_deliver with steps.
Qed.

Lemma reaches_curses_wgetch_loop (mscl_used : bool) :
  preserves reaches (curses_wgetch_loop mscl_used).
Proof.
  intros inp. revert mscl_used.
  induction inp as [|e rest IH]; intros mscl_used w; cbn [curses_wgetch_loop].
  - apply reaches_refl.
  - pose proof (reaches_wget_wch e w) as Hw.
    destruct (wget_wch e w) as [[[r wch] eintr] w1]. cbn [snd] in Hw.
    assert (Hfin : reaches w (if mscl_used then mscl_clear w1 else w1)).
    { destruct mscl_used; [|exact Hw].
      eapply reaches_trans; [exact Hw | apply reaches_one; constructor]. }
    destruct ((r =? KEY_CODE_YES) && (wch =? KEY_RESIZE)).
    + pose proof (reaches_game_resize rest w1) as Hr.
      destruct (game_resize rest w1) as [[] inp2 w2 | f w2 | w2]; cbn in Hr.
      * eapply reaches_trans; [exact Hw|].
        eapply reaches_trans; [exact Hr | apply IH].
      * cbn. eapply reaches_trans; [exact Hw | exact Hr].
      * cbn. eapply reaches_trans; [exact Hw | exact Hr].
    + destruct (negb (r =? ERR)); [exact Hfin|].
      destruct eintr; [exact Hfin|].
      eapply reaches_trans; [|apply IH].
      eapply reaches_trans; [exact Hw|].
      eapply reaches_step; [apply (step_emit Mscl_clear)|].
      apply reaches_one. apply (step_emit (Mscl "Input Error")).
Qed.

Lemma reaches_curses_wgetch (win : Window) : preserves reaches (curses_wgetch win).
Proof. apply reaches_curses_wgetch_loop. Qed.

Lemma reaches_game_reset : preserves reaches game_reset.
Proof. unfold game_reset. walk. Qed.

Hint Resolve reaches_curses_wgetch reaches_game_reset : steps.

Lemma reaches_game_play_again_loop (fuel : nat) :
  preserves reaches (game_play_again_loop fuel).
Proof.
  induction fuel as [|fuel IH]; intros inp w; cbn [game_play_again_loop].
  - apply reaches_refl.
  - pose proof (reaches_curses_wgetch msclwin inp w) as Hg.
    destruct (curses_wgetch msclwin inp w) as [[r wch] inp' w' | |];
      cbn in Hg |- *; auto.
    destruct (negb (wch =? 121) && negb (wch =? 110)); [|exact Hg].
    eapply reaches_trans; [exact Hg | apply IH].
Qed.

Lemma reaches_game_play_again (msg : string) :
  preserves reaches (game_play_again msg).
Proof.
  unfold game_play_again.
  apply (preserves_bind _ reaches_trans); [|intros _].
  { apply preserves_exec. intros w. apply reaches_one. apply (step_emit (Mscl msg)). }
  apply (preserves_bind _ reaches_trans); [|intros wch].
  { intros inp w. apply reaches_game_play_again_loop. }
  apply (preserves_bind _ reaches_trans); [|intros _].
  { apply preserves_exec. intros w. apply reaches_one. apply (step_emit Mscl_clear). }
  walk.
Qed.

Hint Resolve reaches_game_play_again : steps.

Lemma reaches_goal_place : preserves reaches (exec goal_place).
Proof.
  apply preserves_exec. intros w. apply reaches_one. unfold goal_place. constructor.
Qed.

Hint Resolve reaches_goal_place : steps.

Lemma reaches_game_over : preserves reaches game_over.
Proof. unfold game_over. walk. Qed.

Lemma reaches_game_won : preserves reaches game_won.
Proof. unfold game_won. walk. Qed.

Hint Resolve reaches_game_over reaches_game_won : steps.

Lemma reaches_game_continue : preserves reaches game_continue.
Proof. unfold game_continue. walk. Qed.

Hint Resolve reaches_game_continue : steps.

Lemma reaches_game_loop_interrupted : preserves reaches game_loop_interrupted.
Proof. unfold game_loop_interrupted. walk. Qed.

Hint Resolve reaches_game_loop_interrupted : steps.

Lemma reaches_game_loop_body : preserves reaches game_loop_body.
Proof. unfold game_loop_body. walk. Qed.

Lemma reaches_game_loop_from (fuel : nat) : preserves reaches (game_loop_from fuel).
Proof.
  induction fuel as [|fuel IH]; intros inp w; cbn [game_loop_from].
  - apply reaches_refl.
  - pose proof (reaches_game_loop_body inp w) as Hb.
    destruct (game_loop_body inp w) as [[] inp' w' | |]; cbn in Hb |- *; auto.
    eapply reaches_trans; [exact Hb | apply IH].
Qed.

(** Every session the game loop can end in, by leaving, exiting or waiting
    for input that does not come, is reached by the steps of a round. *)
Lemma reaches_game_loop : preserves reaches game_loop.
Proof.
  unfold game_loop.
  apply (preserves_bind _ reaches_trans); [auto with steps | intros _].
  apply (preserves_bind _ reaches_trans); [|intros _; auto with steps].
  intros inp w. apply reaches_game_loop_from.
Qed.

End Steps.

(** An [int] is its argument up to a multiple of 2^32. *)
Lemma int_spec (z : Z) : exists k, int z = z + k * 4294967296.
Proof.
  unfold int, wrap, INT_MAX.
  exists (- ((z + 2147483648) / 4294967296)).
  pose proof (Z.div_mod (z + 2147483648) 4294967296 ltac:(lia)) as H.
  change (2 * (2147483647 + 1)) with 4294967296.
  change (2147483647 + 1) with 2147483648. lia.
Qed.

Lemma int_add_multiple (z k : Z) : int (z + k * 4294967296) = int z.
Proof.
  unfold int, wrap, INT_MAX.
  change (2 * (2147483647 + 1)) with 4294967296.
  replace (z + k * 4294967296 + (2147483647 + 1))
    with (z + (2147483647 + 1) + k * 4294967296) by lia.
  rewrite Z.mod_add by lia. reflexivity.
Qed.

(** Moving a coordinate along with the corner of the level keeps it where
    it is in the level. *)
Lemma int_shift (x a b : Z) : int (int (x + int (b - a)) - b) = int (x - a).
Proof.
  destruct (int_spec (b - a)) as [k1 E1]. rewrite E1.
  destruct (int_spec (x + (b - a + k1 * 4294967296))) as [k2 E2]. rewrite E2.
  replace (x + (b - a + k1 * 4294967296) + k2 * 4294967296 - b)
    with (x - a + (k1 + k2) * 4294967296) by lia.
  apply int_add_multiple.
Qed.

Lemma level_draw_loop_only_draws (remaining : nat) (i : Z) (w : World) :
  exists rows, level_draw_loop remaining i w
               = mkWorld (car w) (curses w) (game w) (goal w) (timer w)
                         (COLS w) (LINES w) (rows ++ surface w).
Proof.
  revert i w. induction remaining as [|n IH]; intros i w; cbn [level_draw_loop].
  - exists []. destruct w; reflexivity.
  - match goal with
    | |- context [level_draw_loop n ?j (emit ?a w)] =>
        destruct (IH j (emit a w)) as [rows E]; rewrite E; exists (rows ++ [a])
    end.
    cbn [emit car curses game goal timer COLS LINES surface].
    rewrite <- app_assoc. reflexivity.
Qed.

Lemma step_keeps_fixture (w w' : World) : step w w' -> fixture w' = fixture w.
Proof.
  intros H. destruct H; try reflexivity.
  - destruct sig; reflexivity.
  - unfold game_update_screen. destruct (car_position_changed _); reflexivity.
  - unfold car_turn_left. destruct (car_direction (car w)); reflexivity.
  - unfold car_turn_right. destruct (car_direction (car w)); reflexivity.
  - unfold car_move, car_go_down, car_go_left, car_go_right, car_go_up.
    destruct (car_direction (car w)), (game_borders (game w)); reflexivity.
  - unfold car_reset. cbn. destruct (car_start_direction (car w)); reflexivity.
  - unfold level_resize, level_draw. cbv zeta.
    match goal with
    | |- context [level_draw_loop ?n ?i ?v] =>
        destruct (level_draw_loop_only_draws n i v) as [rows E]; rewrite E
    end.
    unfold fixture, in_level.
    cbn [car curses game goal timer set_goal set_car set_game_offsets set_game
         game_field game_cols game_lines game_borders game_x_offset game_y_offset
         car_left car_right car_up car_down car_start_direction car_start_pos
         set_car_start_pos set_car_pos set_car_old_pos goal_goal goal_pos
         pos_x pos_y].
    rewrite !int_shift. reflexivity.
Qed.

Lemma reaches_keeps_fixture (w w' : World) : reaches w w' -> fixture w' = fixture w.
Proof.
  intros H. induction H as [|w1 w2 w3 Hs _ IH]; [reflexivity|].
  rewrite IH. now apply step_keeps_fixture.
Qed.

Lemma step_keeps_coherent (w w' : World) : step w w' -> coherent w -> coherent w'.
Proof.
  intros H [Hc Ht]. destruct H; try (split; [exact Hc | exact Ht]).
  - destruct sig; split; assumption.
  - unfold game_update_screen. destruct (car_position_changed _); split; assumption.
  - unfold car_turn_left.
    destruct (car_direction (car w)); (split; [reflexivity | exact Ht]).
  - unfold car_turn_right.
    destruct (car_direction (car w)); (split; [reflexivity | exact Ht]).
  - unfold car_move, car_go_down, car_go_left, car_go_right, car_go_up.
    destruct (car_direction (car w)) eqn:Ed, (game_borders (game w));
      (split; [|exact Ht]); cbn; rewrite ?Ed; rewrite ?Ed in Hc; exact Hc.
  - unfold car_reset. cbn.
    destruct (car_start_direction (car w)); (split; [reflexivity | exact Ht]).
  - split; [exact Hc|]. cbn. now rewrite Ht.
  - split; [exact Hc|]. reflexivity.
  - unfold level_resize, level_draw. cbv zeta.
    match goal with
    | |- context [level_draw_loop ?n ?i ?v] =>
        destruct (level_draw_loop_only_draws n i v) as [rows E]; rewrite E
    end.
    split; [exact Hc | exact Ht].
Qed.

Lemma reaches_keeps_coherent (w w' : World) :
  reaches w w' -> coherent w -> coherent w'.
Proof.
  intros H. induction H as [|w1 w2 w3 Hs _ IH]; [auto|].
  intros Hc. apply IH. now apply (step_keeps_coherent w1).
Qed.

(** Playing changes nothing of the level: whatever the keys, signals and
    resizes are and however the loop ends, the grid, its size, the border
    mode and the characters are those the loop started with, and the parking
    place and the start of the car are where they were in the level. *)
Theorem game_loop_keeps_the_level {P : Platform} (inp : list Event) (w : World) :
  fixture (world_of (game_loop inp w)) = fixture w.
Proof. apply reaches_keeps_fixture, reaches_game_loop. Qed.

(** Throughout the loop the car shows the character of its direction, and
    the two members of the timer setting are equal. *)
Theorem game_loop_stays_coherent {P : Platform} (inp : list Event) (w : World) :
  coherent w -> coherent (world_of (game_loop inp w)).
Proof. apply reaches_keeps_coherent, reaches_game_loop. Qed.

(** ** The level file *)

Lemma wcschr_absent (row : list wchar_t) (wc : wchar_t) :
  ~ In wc row -> wcschr row wc = None.
Proof.
  induction row as [|c row IH]; intros H; [reflexivity|].
  cbn [wcschr]. destruct (Z.eqb_spec c wc) as [-> | _].
  - exfalso. apply H. now left.
  - rewrite IH; [reflexivity|]. intros Hin. apply H. now right.
Qed.

Lemma wcschr_at_end (row : list wchar_t) (wc : wchar_t) :
  ~ In wc row -> wcschr (row ++ [wc]) wc = Some (Z.of_nat (List.length row)).
Proof.
  induction row as [|c row IH]; intros H.
  - cbn. now rewrite Z.eqb_refl.
  - cbn [app wcschr]. destruct (Z.eqb_spec c wc) as [-> | _].
    + exfalso. apply H. now left.
    + rewrite IH by (intros Hin; apply H; now right).
      f_equal. cbn [List.length]. lia.
Qed.

Lemma fgetws_chars_line (n : nat) (row rest : list wchar_t) :
  ~ In NEWLINE row -> (List.length row + 1 <= n)%nat ->
  fgetws_chars n (row ++ NEWLINE :: rest) = (row ++ [NEWLINE], rest).
Proof.
  revert n. induction row as [|c row IH]; intros n H Hn.
  - destruct n as [|n]; [cbn in Hn; lia|]. cbn. reflexivity.
  - destruct n as [|n]; [cbn in Hn; lia|]. cbn [app fgetws_chars].
    destruct (Z.eqb_spec c NEWLINE) as [-> | _].
    + exfalso. apply H. now left.
    + rewrite IH; [reflexivity| |cbn [List.length] in Hn; lia].
      intros Hin. apply H. now right.
Qed.

Lemma fgetws_chars_all (n : nat) (row : list wchar_t) :
  ~ In NEWLINE row -> (List.length row <= n)%nat ->
  fgetws_chars n row = (row, []).
Proof.
  revert n. induction row as [|c row IH]; intros n H Hn.
  - destruct n; reflexivity.
  - destruct n as [|n]; [cbn in Hn; lia|]. cbn [fgetws_chars].
    destruct (Z.eqb_spec c NEWLINE) as [-> | _].
    + exfalso. apply H. now left.
    + rewrite IH; [reflexivity| |cbn [List.length] in Hn; lia].
      intros Hin. apply H. now right.
Qed.

(** A read takes at least one character from a stream that has one. *)
Lemma fgetws_chars_takes (n : nat) (data got rest : list wchar_t) :
  data <> [] -> (1 <= n)%nat -> fgetws_chars n data = (got, rest) ->
  (List.length rest < List.length data)%nat.
Proof.
  revert data got rest. induction n as [|n IH]; intros data got rest Hd Hn E; [lia|].
  destruct data as [|c data]; [contradiction|]. cbn [fgetws_chars] in E.
  destruct (c =? NEWLINE).
  - inversion E; subst. cbn. lia.
  - destruct (fgetws_chars n data) as [g l] eqn:En. inversion E; subst.
    destruct n as [|n].
    + cbn in En. inversion En; subst. cbn. lia.
    + destruct data as [|d data].
      * cbn in En. inversion En; subst. cbn. lia.
      * apply IH in En; [cbn in *; lia | discriminate | lia].
Qed.

Lemma set_game_field_twice (f1 f2 : list (list wchar_t)) (w : World) :
  set_game_field f2 (set_game_field f1 w) = set_game_field f2 w.
Proof. reflexivity. Qed.

Section FileProperties.
Context {P : Platform}.

Lemma BUFSIZ_big : 256 <= BUFSIZ.
Proof. apply Z.leb_le, BUFSIZ_min. Qed.

Lemma sizeof_wchar_t_pos : 1 <= sizeof_wchar_t.
Proof. apply Z.leb_le, sizeof_wchar_t_min. Qed.

Lemma fgetws_some (n : Z) (data : list wchar_t) :
  data <> [] -> fgetws n data = Some (fgetws_chars (Z.to_nat (n - 1)) data).
Proof. destruct data; [contradiction | reflexivity]. Qed.

Lemma unlines_cons (row : list wchar_t) (rows : list (list wchar_t))
      (last : list wchar_t) :
  unlines (row :: rows) ++ last = row ++ NEWLINE :: (unlines rows ++ last).
Proof. unfold unlines. cbn [map List.concat]. now rewrite <- !app_assoc. Qed.

Lemma unlines_length (rows : list (list wchar_t)) :
  (List.length rows <= List.length (unlines rows))%nat.
Proof.
  induction rows as [|row rows IH]; [cbn; lia|].
  rewrite <- (app_nil_r (unlines (row :: rows))), unlines_cons, app_nil_r.
  rewrite length_app. cbn [List.length]. lia.
Qed.

Lemma c_string_clean (ws : list wchar_t) : ~ In NUL ws -> c_string ws = ws.
Proof.
  induction ws as [|c ws IH]; intros H; [reflexivity|].
  cbn [c_string]. destruct (Z.eqb_spec c NUL) as [-> | _].
  - exfalso. apply H. now left.
  - rewrite IH; [reflexivity|]. intros Hin. apply H. now right.
Qed.

Lemma c_string_line (row : list wchar_t) :
  ~ In NUL row -> c_string (row ++ [NEWLINE]) = row ++ [NEWLINE].
Proof.
  intros H. apply c_string_clean. intros Hin. apply in_app_or in Hin.
  destruct Hin as [Hin | [Hin | []]]; [exact (H Hin) | discriminate].
Qed.

Lemma set_row_at_end (pre : list (list wchar_t)) (ws : list wchar_t) (w : World) :
  firstn (List.length pre) (game_field (game w)) = pre ->
  set_row (Z.of_nat (List.length pre)) ws w = set_game_field (pre ++ [ws]) w.
Proof. intros H. unfold set_row. now rewrite Nat2Z.id, H. Qed.

Lemma firstn_field_set (pre rest : list (list wchar_t)) (w : World) :
  firstn (List.length pre) (game_field (game (set_game_field (pre ++ rest) w))) = pre.
Proof.
  cbn [set_game_field set_game game game_field].
  rewrite firstn_app, Nat.sub_diag, firstn_all. cbn [firstn]. apply app_nil_r.
Qed.

Lemma set_row_twice (pre : list (list wchar_t)) (a b : list wchar_t) (w : World) :
  firstn (List.length pre) (game_field (game w)) = pre ->
  set_row (Z.of_nat (List.length pre)) b (set_row (Z.of_nat (List.length pre)) a w)
  = set_game_field (pre ++ [b]) w.
Proof.
  intros H. rewrite (set_row_at_end pre a w H).
  rewrite (set_row_at_end pre b _ (firstn_field_set _ _ _)).
  apply set_game_field_twice.
Qed.

(** One plain line goes into row [length pre], and the loop is at the next
    row. *)
Lemma level_file_readlines_from_line (pre : list (list wchar_t))
      (row tail : list wchar_t) (fuel : nat) (inp : list Event) (w : World) :
  plain_line row ->
  firstn (List.length pre) (game_field (game w)) = pre ->
  Z.of_nat (List.length pre) < INT_MAX ->
  level_file_readlines_from (S fuel) (Z.of_nat (List.length pre))
                            (row ++ NEWLINE :: tail) inp w
  = level_file_readlines_from fuel (Z.of_nat (List.length (pre ++ [row]))) tail inp
                              (set_game_field (pre ++ [row]) w).
Proof.
  intros [Hnl [Hnul Hfit]] Hpre Hlen.
  pose proof BUFSIZ_big as HB. pose proof sizeof_wchar_t_pos as HS.
  cbn [level_file_readlines_from].
  replace (Z.of_nat (List.length pre) =? INT_MAX) with false
    by (symmetry; apply Z.eqb_neq; lia).
  rewrite fgetws_some by (destruct row; discriminate).
  rewrite fgetws_chars_line by (auto; nia).
  unfold overruns. rewrite length_app. cbn [List.length].
  replace (BUFSIZ <? _) with false by (symmetry; apply Z.ltb_ge; nia).
  rewrite (c_string_line _ Hnul).
  rewrite bind_exec, (wcschr_at_end _ _ Hnl), bind_exec.
  rewrite Nat2Z.id, firstn_app, Nat.sub_diag, firstn_all. cbn [firstn].
  rewrite app_nil_r, (set_row_twice pre _ _ w Hpre).
  f_equal. rewrite length_app. cbn [List.length]. lia.
Qed.

(** So do several, one after the other. *)
Lemma level_file_readlines_from_lines (rows : list (list wchar_t)) :
  forall (row : list wchar_t) (pre : list (list wchar_t)) (tail : list wchar_t)
         (fuel : nat) (inp : list Event) (w : World),
  Forall plain_line (row :: rows) ->
  firstn (List.length pre) (game_field (game w)) = pre ->
  Z.of_nat (List.length (pre ++ row :: rows)) <= INT_MAX ->
  level_file_readlines_from (S (List.length rows) + fuel) (Z.of_nat (List.length pre))
                            (unlines (row :: rows) ++ tail) inp w
  = level_file_readlines_from fuel (Z.of_nat (List.length (pre ++ row :: rows))) tail
                              inp (set_game_field (pre ++ row :: rows) w).
Proof.
  induction rows as [|next rows IH]; intros row pre tail fuel inp w Hrows Hpre Hlen;
    inversion Hrows as [|r rs Hrow Hrows']; subst;
    rewrite length_app in Hlen; cbn [List.length] in Hlen;
    rewrite unlines_cons; cbn [List.length Nat.add].
  - apply level_file_readlines_from_line; auto. lia.
  - rewrite level_file_readlines_from_line by (auto; lia).
    rewrite (IH next (pre ++ [row]) tail fuel inp); auto.
    + rewrite set_game_field_twice, <- !app_assoc. reflexivity.
    + apply firstn_all.
    + rewrite <- app_assoc, length_app. cbn [app List.length]. lia.
Qed.

(** The end of the file, after the rows [pre]: what no newline ends is one
    more row. *)
Lemma level_file_readlines_from_last (pre : list (list wchar_t)) (last : list wchar_t)
      (fuel : nat) (inp : list Event) (w : World) :
  ~ In NEWLINE last -> ~ In NUL last ->
  (Z.of_nat (List.length last) + 1) * sizeof_wchar_t <= BUFSIZ ->
  BUFSIZ + BUFSIZ <= INT_MAX ->
  firstn (List.length pre) (game_field (game w)) = pre ->
  lines_of pre last <> [] ->
  Z.of_nat (List.length (lines_of pre last)) < INT_MAX ->
  level_file_readlines_from (S fuel) (Z.of_nat (List.length pre)) last inp w
  = Ok (Z.of_nat (List.length (lines_of pre last))) inp
       (set_game_field (lines_of pre last) w).
Proof.
  intros Hnl Hnul Hfit H2 Hpre Hne Hlen.
  pose proof BUFSIZ_big as HB. pose proof sizeof_wchar_t_pos as HS.
  unfold lines_of in *. cbn [level_file_readlines_from].
  replace (Z.of_nat (List.length pre) =? INT_MAX) with false
    by (symmetry; apply Z.eqb_neq; rewrite length_app in Hlen; lia).
  destruct last as [|c last].
  - cbn [fgetws]. rewrite app_nil_r in *.
    replace (Z.of_nat (List.length pre) =? 0) with false
      by (symmetry; apply Z.eqb_neq; destruct pre; [contradiction | cbn; lia]).
    cbn [andb]. rewrite bind_exec. unfold ret.
    now rewrite Nat2Z.id, Hpre.
  - rewrite fgetws_some by discriminate.
    rewrite fgetws_chars_all by (auto; nia).
    unfold overruns.
    replace (BUFSIZ <? _) with false by (symmetry; apply Z.ltb_ge; lia).
    rewrite (c_string_clean _ Hnul).
    rewrite bind_exec, (wcschr_absent _ _ Hnl).
    rewrite set_row_at_end by exact Hpre.
    unfold bind at 1. cbn [level_file_readlines_more].
    replace (BUFSIZ + BUFSIZ >? INT_MAX) with false
      by (symmetry; rewrite Z.gtb_ltb; apply Z.ltb_ge; lia).
    cbn [fgetws]. unfold ret. f_equal.
    rewrite !length_app. cbn [List.length]. lia.
Qed.

Lemma level_file_readlines_lines (rows : list (list wchar_t)) (last : list wchar_t)
      (inp : list Event) (w : World) :
  Forall plain_line rows ->
  ~ In NEWLINE last -> ~ In NUL last ->
  (Z.of_nat (List.length last) + 1) * sizeof_wchar_t <= BUFSIZ ->
  BUFSIZ + BUFSIZ <= INT_MAX ->
  lines_of rows last <> [] ->
  Z.of_nat (List.length (lines_of rows last)) < INT_MAX ->
  level_file_readlines (unlines rows ++ last) inp w
  = Ok (Z.of_nat (List.length (lines_of rows last))) inp
       (set_game_field (lines_of rows last) w).
Proof.
  intros Hrows Hnl Hnul Hfit H2 Hne Hlen. unfold level_file_readlines.
  destruct rows as [|row rows].
  - apply (level_file_readlines_from_last [] last); auto.
  - pose proof (unlines_length (row :: rows)) as Hu.
    assert (Hll : (List.length (row :: rows) <= List.length (lines_of (row :: rows) last))%nat)
      by (unfold lines_of; rewrite length_app; lia).
    replace (S (List.length (unlines (row :: rows) ++ last)))
      with (S (List.length rows)
            + S (List.length (unlines (row :: rows) ++ last) - S (List.length rows)))%nat
      by (rewrite length_app; cbn [List.length] in *; lia).
    rewrite (level_file_readlines_from_lines rows row [] last _ inp w);
      cbn [app List.length Z.of_nat]; auto; [|cbn [List.length] in Hll; lia].
    rewrite (level_file_readlines_from_last (row :: rows) last);
      auto. apply firstn_all.
Qed.

(** A level file of plain lines is read as it is: the grid holds its lines,
    without their newlines and in their order, the last line also when no
    newline ends it, and [game.lines] is their number.  Nothing else of the
    session changes. *)
Theorem level_file_read_lines (rows : list (list wchar_t)) (last : list wchar_t)
        (inp : list Event) (w : World) :
  Forall plain_line rows ->
  ~ In NEWLINE last -> ~ In NUL last ->
  (Z.of_nat (List.length last) + 1) * sizeof_wchar_t <= BUFSIZ ->
  BUFSIZ + BUFSIZ <= INT_MAX ->
  lines_of rows last <> [] ->
  Z.of_nat (List.length (lines_of rows last)) < INT_MAX ->
  level_file_read (Some (mkFILE (unlines rows ++ last) false)) inp w
  = Ok tt inp (set_game_lines (Z.of_nat (List.length (lines_of rows last)))
                              (set_game_field (lines_of rows last) w)).
Proof.
  intros Hrows Hnl Hnul Hfit H2 Hne Hlen.
  unfold level_file_read. cbn [file_data file_error].
  unfold bind at 1. rewrite level_file_readlines_lines by assumption.
  rewrite bind_exec, bind_get. rewrite int_small by (unfold INT_MIN, INT_MAX in *; lia).
  cbn [set_game_lines set_game game game_lines]. unfold nonzero.
  replace (Z.of_nat (List.length (lines_of rows last)) =? 0) with false;
    [reflexivity|].
  symmetry. apply Z.eqb_neq. destruct (lines_of rows last); [contradiction|].
  cbn [List.length]. lia.
Qed.

Lemma fgetws_chars_line_length (n : nat) (long rest : list wchar_t) :
  ~ In NEWLINE long ->
  List.length (fst (fgetws_chars n (long ++ NEWLINE :: rest)))
  = Nat.min n (List.length long + 1).
Proof.
  revert n. induction long as [|c long IH]; intros n H.
  - destruct n; cbn; lia.
  - destruct n; [reflexivity|]. cbn [app fgetws_chars].
    destruct (Z.eqb_spec c NEWLINE) as [-> | _]; [exfalso; apply H; now left|].
    specialize (IH n (fun Hin => H (or_intror Hin))).
    destruct (fgetws_chars n (long ++ NEWLINE :: rest)) as [got left].
    cbn [fst List.length] in *. lia.
Qed.

(** A line that is too long for a fresh row is written past its end. *)
Lemma level_file_readlines_from_overrun (pre : list (list wchar_t))
      (long rest : list wchar_t) (fuel : nat) (inp : list Event) (w : World) :
  ~ In NEWLINE long -> 2 <= sizeof_wchar_t ->
  BUFSIZ < (Z.of_nat (List.length long) + 2) * sizeof_wchar_t ->
  Z.of_nat (List.length pre) < INT_MAX ->
  level_file_readlines_from (S fuel) (Z.of_nat (List.length pre))
                            (long ++ NEWLINE :: rest) inp w
  = Died BufferOverrun w.
Proof.
  intros Hnl HS Hlong Hlen. pose proof BUFSIZ_big as HB.
  cbn [level_file_readlines_from].
  replace (Z.of_nat (List.length pre) =? INT_MAX) with false
    by (symmetry; apply Z.eqb_neq; lia).
  rewrite fgetws_some by (destruct long; discriminate).
  pose proof (fgetws_chars_line_length (Z.to_nat (BUFSIZ - 1)) long rest Hnl) as Hws.
  destruct (fgetws_chars (Z.to_nat (BUFSIZ - 1)) (long ++ NEWLINE :: rest))
    as [ws data'].
  cbn [fst] in Hws. unfold overruns.
  replace (BUFSIZ <? (Z.of_nat (List.length ws) + 1) * sizeof_wchar_t) with true;
    [reflexivity|].
  symmetry. apply Z.ltb_lt. rewrite Hws.
  destruct (Nat.min_spec (Z.to_nat (BUFSIZ - 1)) (List.length long + 1))
    as [[_ ->] | [_ ->]]; nia.
Qed.

(** [level_file_readlines] gives a row of [BUFSIZ] bytes to [fgetws] as one
    of [BUFSIZ] wide characters.  Where a wide character takes more than one
    byte, a line that does not fit the bytes with its newline and the closing
    null character is written past the end of its row, after any number of
    plain lines. *)
Theorem level_file_read_overruns (rows : list (list wchar_t))
        (long rest : list wchar_t) (error : bool) (inp : list Event) (w : World) :
  Forall plain_line rows -> ~ In NEWLINE long ->
  2 <= sizeof_wchar_t ->
  BUFSIZ < (Z.of_nat (List.length long) + 2) * sizeof_wchar_t ->
  Z.of_nat (List.length rows) < INT_MAX ->
  outcome (level_file_read
             (Some (mkFILE (unlines rows ++ long ++ NEWLINE :: rest) error)) inp w)
  = Exited BufferOverrun.
Proof.
  intros Hrows Hnl HS Hlong Hlen.
  unfold level_file_read, level_file_readlines. cbn [file_data file_error].
  unfold bind at 1.
  destruct rows as [|row rows].
  - cbn [unlines map List.concat app].
    rewrite (level_file_readlines_from_overrun [] long rest); auto.
  - pose proof (unlines_length (row :: rows)) as Hu.
    replace (S (List.length (unlines (row :: rows) ++ long ++ NEWLINE :: rest)))
      with (S (List.length rows)
            + S (List.length (unlines (row :: rows) ++ long ++ NEWLINE :: rest)
                 - S (List.length rows)))%nat
      by (rewrite length_app; cbn [List.length] in *; lia).
    rewrite (level_file_readlines_from_lines rows row [] _ _ inp w);
      cbn [app]; auto; [|lia].
    rewrite (level_file_readlines_from_overrun (row :: rows) long rest); auto.
Qed.

Lemma set_row_length (i : Z) (ws : list wchar_t) (w : World) :
  (Z.to_nat i <= List.length (game_field (game w)))%nat ->
  List.length (game_field (game (set_row i ws w))) = (Z.to_nat i + 1)%nat.
Proof.
  intros H. unfold set_row. cbn [set_game_field set_game game game_field].
  rewrite length_app, firstn_length_le by exact H. reflexivity.
Qed.

Lemma fgetws_takes (n : Z) (data ws rest : list wchar_t) :
  2 <= n -> fgetws n data = Some (ws, rest) ->
  (List.length rest < List.length data)%nat.
Proof.
  intros Hn E. destruct data as [|c data]; [discriminate|].
  cbn [fgetws] in E. inversion E as [E'].
  eapply fgetws_chars_takes; [discriminate | | exact E']. lia.
Qed.

(** The loop that reads on in a row: it ends, and leaves the row in place. *)
Lemma level_file_readlines_more_spec (fuel : nat) :
  forall (i size : Z) (data : list wchar_t) (inp : list Event) (w : World),
  (List.length data < fuel)%nat -> 0 <= size ->
  List.length (game_field (game w)) = (Z.to_nat i + 1)%nat ->
  match level_file_readlines_more fuel i size data inp w with
  | Ok (inl data') inp' w' =>
      inp' = inp /\ (List.length data' <= List.length data)%nat
      /\ List.length (game_field (game w')) = (Z.to_nat i + 1)%nat
  | Ok (inr n) inp' w' =>
      inp' = inp /\ n = i + 1
      /\ List.length (game_field (game w')) = (Z.to_nat i + 1)%nat
  | Died f _ => f = DimensionTooBig \/ f = BufferOverrun
  | Starved _ => False
  end.
Proof.
  pose proof BUFSIZ_big as HB.
  induction fuel as [|fuel IH]; intros i size data inp w Hfuel Hsize Hlen; [lia|].
  cbn [level_file_readlines_more].
  destruct (size + BUFSIZ >? INT_MAX); [now left|].
  destruct (fgetws (size + BUFSIZ) data) as [[ws data']|] eqn:Eg.
  - apply fgetws_takes in Eg; [|lia].
    destruct (overruns (size + BUFSIZ) ws); [now right|].
    rewrite bind_exec.
    assert (H1 : List.length (game_field (game (set_row i (c_string ws) w)))
                 = (Z.to_nat i + 1)%nat)
      by (apply set_row_length; lia).
    destruct (wcschr (c_string ws) NEWLINE) as [ptr|].
    + rewrite bind_exec. unfold ret.
      split; [reflexivity|]. split; [lia|]. apply set_row_length. lia.
    + specialize (IH i (size + BUFSIZ) data' inp (set_row i (c_string ws) w)
                     ltac:(lia) ltac:(lia) H1).
      destruct (level_file_readlines_more fuel i (size + BUFSIZ) data' inp
                  (set_row i (c_string ws) w)) as [[d|n] inp' w' | |]; auto.
      destruct IH as [E1 [E2 E3]]. split; [exact E1|]. split; [lia | exact E3].
  - unfold ret. auto.
Qed.

(** The loop over the rows: it ends, with as many rows in the grid as it
    returns. *)
Lemma level_file_readlines_from_spec (fuel : nat) :
  forall (i : Z) (data : list wchar_t) (inp : list Event) (w : World),
  (List.length data < fuel)%nat -> 0 <= i <= INT_MAX ->
  (Z.to_nat i <= List.length (game_field (game w)))%nat ->
  match level_file_readlines_from fuel i data inp w with
  | Ok n inp' w' =>
      inp' = inp /\ Z.of_nat (List.length (game_field (game w'))) = n
      /\ i <= n <= INT_MAX
  | Died f _ => In f [BufferOverrun; DoubleFree; Strerror; DimensionTooBig]
  | Starved _ => False
  end.
Proof.
  pose proof BUFSIZ_big as HB.
  induction fuel as [|fuel IH]; intros i data inp w Hfuel Hi Hlen; [lia|].
  cbn [level_file_readlines_from].
  destruct (Z.eqb_spec i INT_MAX) as [|Hne]; [cbn; auto|].
  destruct (fgetws BUFSIZ data) as [[ws data']|] eqn:Eg.
  - apply fgetws_takes in Eg; [|lia].
    destruct (overruns BUFSIZ ws); [cbn; auto|].
    rewrite bind_exec.
    assert (H1 : List.length (game_field (game (set_row i (c_string ws) w)))
                 = (Z.to_nat i + 1)%nat)
      by (apply set_row_length; lia).
    destruct (wcschr (c_string ws) NEWLINE) as [ptr|].
    + rewrite bind_exec.
      match goal with
      | |- context [level_file_readlines_from fuel (i + 1) data' inp ?v] =>
          specialize (IH (i + 1) data' inp v ltac:(lia) ltac:(lia))
      end.
      rewrite set_row_length in IH by lia.
      specialize (IH ltac:(lia)).
      destruct (level_file_readlines_from fuel (i + 1) data' inp _)
        as [n inp' w' | |]; auto.
      destruct IH as [E1 [E2 E3]]. repeat split; auto; lia.
    + pose proof (level_file_readlines_more_spec (S (List.length data')) i BUFSIZ
                    data' inp (set_row i (c_string ws) w) ltac:(lia) ltac:(lia) H1)
        as Hm.
      unfold bind at 1.
      destruct (level_file_readlines_more (S (List.length data')) i BUFSIZ data'
                  inp (set_row i (c_string ws) w)) as [[d|n] inp' w' | f w' |];
        [| | destruct Hm as [-> | ->]; cbn; auto | contradiction].
      * destruct Hm as [-> [E2 E3]].
        specialize (IH (i + 1) d inp w' ltac:(lia) ltac:(lia) ltac:(lia)).
        destruct (level_file_readlines_from fuel (i + 1) d inp w')
          as [n inp'' w'' | |]; auto.
        destruct IH as [F1 [F2 F3]]. repeat split; auto; lia.
      * destruct Hm as [-> [-> E3]]. unfold ret. rewrite E3.
        repeat split; lia.
  - destruct ((i =? 0) && negb realloc_zero);
      [destruct realloc_zero_frees; cbn; auto|].
    rewrite bind_exec. unfold ret.
    cbn [set_game_field set_game game game_field].
    rewrite firstn_length_le by exact Hlen. repeat split; lia.
Qed.

(** Reading a file changes the grid and [game.lines], and nothing else. *)
Lemma file_frame_refl (w : World) : file_frame w w.
Proof. destruct w as [c cu g go t co li su]. destruct g. reflexivity. Qed.

Lemma file_frame_trans (w1 w2 w3 : World) :
  file_frame w1 w2 -> file_frame w2 w3 -> file_frame w1 w3.
Proof.
  unfold file_frame. intros H12 H23.
  remember (game_lines (game w3)) as L. remember (game_field (game w3)) as F.
  rewrite H23, H12. reflexivity.
Qed.

Lemma file_frame_set_row (i : Z) (ws : list wchar_t) (w : World) :
  file_frame w (set_row i ws w).
Proof. reflexivity. Qed.

Lemma preserves_UNDEFINED {A : Type} (R : World -> World -> Prop) (e : Fatal) :
  (forall w, R w w) -> preserves R (@UNDEFINED A e).
Proof. intros Hr inp w. apply Hr. Qed.

Ltac file_walk :=
  repeat first
    [ apply (preserves_ret _ file_frame_refl)
    | apply (preserves_DIE _ file_frame_refl)
    | apply (preserves_UNDEFINED _ _ file_frame_refl)
    | apply (preserves_get _ file_frame_refl)
    | apply preserves_exec; intros ?; reflexivity
    | match goal with
      | |- preserves _ (if ?c then _ else _) => destruct c
      | |- preserves _ (match ?c with _ => _ end) => destruct c
      end
    | apply (preserves_bind _ file_frame_trans); [|intros ?] ].

Lemma file_frame_more (fuel : nat) :
  forall (i size : Z) (data : list wchar_t),
  preserves file_frame (level_file_readlines_more fuel i size data).
Proof.
  induction fuel as [|fuel IH]; intros i size data; cbn [level_file_readlines_more].
  - intros inp w. apply file_frame_refl.
  - destruct (size + BUFSIZ >? INT_MAX); [apply (preserves_DIE _ file_frame_refl)|].
    destruct (fgetws (size + BUFSIZ) data) as [[ws data']|];
      [|apply (preserves_ret _ file_frame_refl)].
    destruct (overruns (size + BUFSIZ) ws);
      [apply (preserves_UNDEFINED _ _ file_frame_refl)|].
    apply (preserves_bind _ file_frame_trans);
      [apply preserves_exec; intros ?; reflexivity | intros _].
    destruct (wcschr (c_string ws) NEWLINE); [file_walk | apply IH].
Qed.

Lemma file_frame_from (fuel : nat) :
  forall (i : Z) (data : list wchar_t),
  preserves file_frame (level_file_readlines_from fuel i data).
Proof.
  induction fuel as [|fuel IH]; intros i data; cbn [level_file_readlines_from].
  - intros inp w. apply file_frame_refl.
  - destruct (i =? INT_MAX); [apply (preserves_DIE _ file_frame_refl)|].
    destruct (fgetws BUFSIZ data) as [[ws data']|]; [|file_walk].
    destruct (overruns BUFSIZ ws);
      [apply (preserves_UNDEFINED _ _ file_frame_refl)|].
    apply (preserves_bind _ file_frame_trans);
      [apply preserves_exec; intros ?; reflexivity | intros _].
    destruct (wcschr (c_string ws) NEWLINE).
    + apply (preserves_bind _ file_frame_trans);
        [apply preserves_exec; intros ?; reflexivity | intros _]. apply IH.
    + apply (preserves_bind _ file_frame_trans); [apply file_frame_more|].
      intros [d|n]; [apply IH | apply (preserves_ret _ file_frame_refl)].
Qed.

Lemma file_frame_level_file_read (file : option FILE) :
  preserves file_frame (level_file_read file).
Proof.
  destruct file as [f|]; [|apply (preserves_DIE _ file_frame_refl)].
  unfold level_file_read, level_file_readlines.
  apply (preserves_bind _ file_frame_trans); [apply file_frame_from | intros n].
  file_walk.
Qed.

Lemma level_file_read_ends (file : option FILE) (inp : list Event) (w : World) :
  match level_file_read file inp w with
  | Ok _ inp' w' =>
      inp' = inp
      /\ game_lines (game w') = Z.of_nat (List.length (game_field (game w')))
      /\ 1 <= game_lines (game w') <= INT_MAX
  | Died f _ =>
      In f [BufferOverrun; DoubleFree; Strerror; ReadError; NoLines; DimensionTooBig]
  | Starved _ => False
  end.
Proof.
  destruct file as [f|]; [|cbn; auto].
  unfold level_file_read, level_file_readlines.
  pose proof (level_file_readlines_from_spec (S (List.length (file_data f))) 0
                (file_data f) inp w ltac:(lia) ltac:(unfold INT_MAX; lia)
                ltac:(cbn; lia)) as H.
  unfold bind at 1.
  destruct (level_file_readlines_from _ 0 (file_data f) inp w)
    as [n inp' w' | e w' |]; [| cbn in *; intuition (subst; auto) | contradiction].
  destruct H as [-> [E2 E3]].
  rewrite bind_exec. destruct (file_error f); [cbn; auto 7|].
  rewrite bind_get. rewrite int_small by (unfold INT_MIN, INT_MAX in *; lia).
  cbn [set_game_lines set_game game game_lines]. unfold nonzero.
  destruct (Z.eqb_spec n 0); cbn [negb]; [cbn; auto 7|].
  unfold ret. cbn [set_game_lines set_game game game_lines game_field].
  repeat split; lia.
Qed.

(** How [level_file_read] ends. *)
Lemma level_file_read_spec (file : option FILE) (inp : list Event) (w : World) :
  match level_file_read file inp w with
  | Ok _ inp' w' =>
      inp' = inp
      /\ game_lines (game w') = Z.of_nat (List.length (game_field (game w')))
      /\ 1 <= game_lines (game w') <= INT_MAX
      /\ file_frame w w'
  | Died f _ =>
      In f [BufferOverrun; DoubleFree; Strerror; ReadError; NoLines; DimensionTooBig]
  | Starved _ => False
  end.
Proof.
  pose proof (file_frame_level_file_read file inp w) as Hframe.
  pose proof (level_file_read_ends file inp w) as Hends.
  destruct (level_file_read file inp w) as [[] inp' w' | e w' |]; auto.
  cbn [world_of] in Hframe. intuition.
Qed.

(** Reading any level file ends.  When it returns, no key has been read,
    [game.lines] is the number of rows of the grid, there is at least one
    row, and nothing but the grid and [game.lines] has changed.  Otherwise
    the process has exited over one of four errors, or the run has left
    defined behaviour by writing past a row or freeing the grid twice. *)
Theorem level_file_read_total (file : option FILE) (inp : list Event) (w : World) :
  match level_file_read file inp w with
  | Ok _ inp' w' =>
      inp' = inp
      /\ game_lines (game w') = Z.of_nat (List.length (game_field (game w')))
      /\ 1 <= game_lines (game w') <= INT_MAX
      /\ w' = set_game_lines (game_lines (game w'))
                (set_game_field (game_field (game w')) w)
  | Died f _ =>
      In f [BufferOverrun; DoubleFree; Strerror; ReadError; NoLines; DimensionTooBig]
  | Starved _ => False
  end.
Proof. exact (level_file_read_spec file inp w). Qed.

(** An empty level file gives no game.  Where [realloc(p, 0)] is a null
    pointer, [_realloc] calls [DIE] before [game.field] is assigned: if
    [realloc] has freed the array, [cleanup] frees it a second time, and if
    not, the process exits over the error of [realloc].  Where [realloc(p, 0)]
    is a pointer, the process exits over the read error of the stream or over
    "level file contains no lines". *)
Theorem level_file_read_empty (error : bool) (inp : list Event) (w : World) :
  outcome (level_file_read (Some (mkFILE [] error)) inp w)
  = Exited (if realloc_zero then if error then ReadError else NoLines
            else if realloc_zero_frees then DoubleFree else Strerror).
Proof.
  unfold level_file_read, level_file_readlines. cbn [file_data file_error].
  unfold bind at 1. cbn [List.length level_file_readlines_from fgetws].
  change (0 =? INT_MAX) with false. change (0 =? 0) with true. cbv beta iota.
  destruct realloc_zero; cbn [negb andb];
    [|destruct realloc_zero_frees; reflexivity].
  rewrite bind_exec. unfold ret. rewrite bind_exec.
  destruct error; [reflexivity|]. rewrite bind_get. reflexivity.
Qed.

End FileProperties.

(** ** The markers of the level *)

Lemma goal_rows_cons (row : list wchar_t) (field : list (list wchar_t)) :
  goal_rows (row :: field)
  = (match wcschr row chars_goal with Some _ => 1 | None => 0 end) + goal_rows field.
Proof. reflexivity. Qed.

Lemma start_rows_cons (row : list wchar_t) (field : list (list wchar_t)) :
  start_rows (row :: field)
  = (match wcschr row chars_goal, wcschr_car row with
     | None, Some _ => 1
     | _, _ => 0
     end) + start_rows field.
Proof. reflexivity. Qed.

Lemma goal_rows_nonneg (field : list (list wchar_t)) : 0 <= goal_rows field.
Proof.
  induction field as [|row field IH]; [cbn; lia|].
  rewrite goal_rows_cons. destruct (wcschr row chars_goal); lia.
Qed.

Lemma start_rows_nonneg (field : list (list wchar_t)) : 0 <= start_rows field.
Proof.
  induction field as [|row field IH]; [cbn; lia|].
  rewrite start_rows_cons.
  destruct (wcschr row chars_goal), (wcschr_car row); lia.
Qed.

(** One row only carries a count that sums up to one. *)
Lemma one_row (c : list wchar_t -> Z) (field : list (list wchar_t)) :
  (forall row, 0 <= c row) ->
  forall (a b : nat) (ra rb : list wchar_t),
  fold_right (fun row n => c row + n) 0 field = 1 ->
  nth_error field a = Some ra -> nth_error field b = Some rb ->
  1 <= c ra -> 1 <= c rb -> a = b.
Proof.
  intros Hc.
  assert (Hn : forall l, 0 <= fold_right (fun row n => c row + n) 0 l).
  { induction l as [|r l IH]; cbn [fold_right]; [lia|]. specialize (Hc r). lia. }
  assert (Hin : forall l k r, nth_error l k = Some r -> 1 <= c r ->
                  1 <= fold_right (fun row n => c row + n) 0 l).
  { induction l as [|r0 l IH]; intros k r Hk Hr; [destruct k; discriminate|].
    cbn [fold_right]. specialize (Hc r0). specialize (Hn l).
    destruct k as [|k]; [inversion Hk; subst; lia|].
    specialize (IH k r Hk Hr). lia. }
  induction field as [|row field IH]; intros a b ra rb Hsum Ha Hb Hra Hrb;
    [destruct a; discriminate|].
  cbn [fold_right] in Hsum. specialize (Hn field).
  destruct a as [|a], b as [|b]; cbn [nth_error] in Ha, Hb.
  - reflexivity.
  - inversion Ha; subst. specialize (Hin field b rb Hb Hrb). lia.
  - inversion Hb; subst. specialize (Hin field a ra Ha Hra). lia.
  - f_equal. apply (IH a b ra rb); auto.
    specialize (Hin field a ra Ha Hra). specialize (Hc row). lia.
Qed.

Lemma firstn_store {A : Type} (l : list A) (k : nat) (v : A) :
  firstn k (store l k v) = firstn k l.
Proof.
  revert k. induction l as [|a l IH]; intros [|k]; cbn; auto. now rewrite IH.
Qed.

Lemma Forall_not_Exists_width {P : Platform} (field : list (list wchar_t)) :
  Forall (fun row => wcswidth row <> -1) field ->
  Exists (fun row => wcswidth row = -1) field -> False.
Proof.
  intros HF HE. rewrite Forall_forall in HF. rewrite Exists_exists in HE.
  destruct HE as [row [Hin E]]. exact (HF row Hin E).
Qed.

Lemma wcschr_car_nonneg (row : list wchar_t) (s : Z) (d : Direction) :
  wcschr_car row = Some (s, d) -> 0 <= s.
Proof.
  unfold wcschr_car. intros E.
  destruct (wcschr row chars_car_down) eqn:E1;
    [inversion E; subst; exact (wcschr_nonneg _ _ _ E1)|].
  destruct (wcschr row chars_car_left) eqn:E2;
    [inversion E; subst; exact (wcschr_nonneg _ _ _ E2)|].
  destruct (wcschr row chars_car_right) eqn:E3;
    [inversion E; subst; exact (wcschr_nonneg _ _ _ E3)|].
  destruct (wcschr row chars_car_up) eqn:E4;
    [inversion E; subst; exact (wcschr_nonneg _ _ _ E4)|].
  discriminate.
Qed.

Section InitProperties.
Context {P : Platform}.

Lemma widest_mono (field : list (list wchar_t)) (c : Z) : c <= widest field c.
Proof.
  unfold widest. revert c. induction field as [|row field IH]; intros c;
    cbn [map fold_left]; [lia|].
  specialize (IH (Z.max c (wcswidth row))). lia.
Qed.

Lemma widest_ge (field : list (list wchar_t)) (c : Z) (row : list wchar_t) :
  In row field -> wcswidth row <= widest field c.
Proof.
  unfold widest. revert c. induction field as [|r field IH]; intros c Hin;
    [contradiction|]. cbn [map fold_left].
  destruct Hin as [-> | Hin].
  - pose proof (widest_mono field (Z.max c (wcswidth row))) as H.
    unfold widest in H. lia.
  - apply IH, Hin.
Qed.

Lemma wcschr_lt (row : list wchar_t) (wc : wchar_t) (k : Z) :
  wcschr row wc = Some k -> 0 <= k < Z.of_nat (List.length row).
Proof.
  revert k. induction row as [|a row IH]; intros k E; cbn in E; [discriminate|].
  cbn [List.length]. destruct (a =? wc); [inversion E; lia|].
  destruct (wcschr row wc) as [j|]; [|discriminate].
  inversion E. specialize (IH j eq_refl). lia.
Qed.

Lemma wcschr_car_lt (row : list wchar_t) (s : Z) (d : Direction) :
  wcschr_car row = Some (s, d) -> 0 <= s < Z.of_nat (List.length row).
Proof.
  unfold wcschr_car. intros E.
  destruct (wcschr row chars_car_down) eqn:E1;
    [inversion E; subst; exact (wcschr_lt _ _ _ E1)|].
  destruct (wcschr row chars_car_left) eqn:E2;
    [inversion E; subst; exact (wcschr_lt _ _ _ E2)|].
  destruct (wcschr row chars_car_right) eqn:E3;
    [inversion E; subst; exact (wcschr_lt _ _ _ E3)|].
  destruct (wcschr row chars_car_up) eqn:E4;
    [inversion E; subst; exact (wcschr_lt _ _ _ E4)|].
  discriminate.
Qed.

Lemma max_by_gtb (len cols : Z) :
  (if len >? cols then len else cols) = Z.max cols len.
Proof. rewrite Z.gtb_ltb. destruct (Z.ltb_spec cols len); lia. Qed.

(** One more row in front of a scan. *)
Lemma scan_result_cons (pre : list (list wchar_t)) (row : list wchar_t)
      (rest : list (list wchar_t)) (m m1 m' : Marks) (w w2 w' : World) :
  wcswidth row <> -1 ->
  (forall D C F,
     set_car (set_car_start_direction D (car w2))
       (set_game_cols C (set_game_field F w2))
     = set_car (set_car_start_direction D (car w))
         (set_game_cols C (set_game_field F w))) ->
  game_cols (game w2) = Z.max (game_cols (game w)) (wcswidth row) ->
  goal_count m1
  = goal_count m + (match wcschr row chars_goal with Some _ => 1 | None => 0 end) ->
  start_count m1
  = start_count m + (match wcschr row chars_goal, wcschr_car row with
                     | None, Some _ => 1
                     | _, _ => 0
                     end) ->
  goal_index m1
  = (match wcschr row chars_goal with
     | Some g => mkPos (int g) (Z.of_nat (List.length pre))
     | None => goal_index m
     end) ->
  (car_start_index m1, car_start_direction (car w2))
  = (match wcschr row chars_goal, wcschr_car row with
     | None, Some (s, d) => (mkPos (int s) (Z.of_nat (List.length pre)), d)
     | _, _ => (car_start_index m, car_start_direction (car w))
     end) ->
  scan_result (pre ++ [scanned row]) rest m1 w2 m' w' ->
  scan_result pre (row :: rest) m w m' w'.
Proof.
  intros Hw Hframe Hcols Hgc Hsc Hgi Hsi [Rw Rc Rwd Rgc Rsc Rgk Rgf Rsk Rsf].
  pose proof (goal_rows_nonneg rest) as Hgn.
  pose proof (start_rows_nonneg rest) as Hsn.
  split.
  - rewrite Rw at 1. rewrite Hframe, <- app_assoc. reflexivity.
  - rewrite Rc, Hcols. reflexivity.
  - constructor; assumption.
  - rewrite Rgc, Hgc, goal_rows_cons. lia.
  - rewrite Rsc, Hsc, start_rows_cons. lia.
  - rewrite goal_rows_cons. intros H0.
    destruct (wcschr row chars_goal); [lia|].
    rewrite Rgk by lia. exact Hgi.
  - rewrite goal_rows_cons. intros Hpos.
    destruct (Z.eq_dec (goal_rows rest) 0) as [E0 | N0].
    + destruct (wcschr row chars_goal) as [g|] eqn:Eg; [|lia].
      exists 0%nat, row, g. rewrite Rgk, Hgi by exact E0.
      rewrite Nat.add_0_r. repeat split; auto.
    + destruct (Rgf ltac:(lia)) as [j [r [g [Hn [Hg Hi]]]]].
      exists (S j), r, g. rewrite Hi, length_app. cbn [List.length nth_error].
      repeat split; auto. do 2 f_equal. lia.
  - rewrite start_rows_cons. intros H0.
    destruct (wcschr row chars_goal), (wcschr_car row) as [[s d]|];
      try lia; destruct (Rsk ltac:(lia)) as [E1 E2]; rewrite E1, E2;
      inversion Hsi; auto.
  - rewrite start_rows_cons. intros Hpos.
    destruct (Z.eq_dec (start_rows rest) 0) as [E0 | N0].
    + destruct (Rsk E0) as [E1 E2].
      destruct (wcschr row chars_goal) eqn:Eg; [lia|].
      destruct (wcschr_car row) as [[s d]|] eqn:Ec; [|lia].
      exists 0%nat, row, s, d. rewrite E1, E2. injection Hsi as H0 H1.
      rewrite Nat.add_0_r. repeat split; auto.
    + destruct (Rsf ltac:(lia)) as [j [r [s [d [Hn [Hg [Hc [Hi Hd]]]]]]]].
      exists (S j), r, s, d. rewrite Hi, length_app. cbn [List.length nth_error].
      repeat split; auto. do 2 f_equal. lia.
Qed.

(** The loop of [level_init] over the rows [rest] that follow the rows
    [pre]: it comes to an end, by returning or by exiting over a row that
    has no width. *)
Lemma level_init_loop_spec (rest : list (list wchar_t)) :
  forall (pre : list (list wchar_t)) (m : Marks) (inp : list Event) (w : World),
  game_field (game w) = pre ++ rest ->
  Z.of_nat (List.length pre + List.length rest) <= INT_MAX ->
  match level_init_loop (List.length rest) (Z.of_nat (List.length pre)) m inp w with
  | Ok m' inp' w' => inp' = inp /\ scan_result pre rest m w m' w'
  | Died f _ => f = WcswidthFailed /\ Exists (fun row => wcswidth row = -1) rest
  | Starved _ => False
  end.
Proof.
  induction rest as [|row rest IH]; intros pre m inp w Hf Hlen.
  - cbn [List.length level_init_loop]. unfold ret. split; [reflexivity|].
    split; cbn [goal_rows start_rows fold_right map widest fold_left];
      try (intros; lia); auto.
    rewrite app_nil_r in *. destruct w as [c cu g go t co li su].
    destruct c, g. cbn in Hf. subst. reflexivity.
  - cbn [List.length level_init_loop]. rewrite bind_get, Hf.
    rewrite Nat2Z.id, app_nth2, Nat.sub_diag by lia. cbn [nth].
    destruct (Z.eqb_spec (wcswidth row) (-1)) as [Ew | Nw].
    { split; [reflexivity | now left]. }
    rewrite bind_if_exec.
    set (w1 := if wcswidth row >? game_cols (game w)
               then set_game_cols (wcswidth row) w else w).
    assert (Hf1 : game_field (game w1) = pre ++ row :: rest)
      by (subst w1; destruct (_ >? _); exact Hf).
    assert (Hc1 : game_cols (game w1) = Z.max (game_cols (game w)) (wcswidth row))
      by (rewrite <- max_by_gtb; subst w1; destruct (_ >? _); reflexivity).
    assert (Hfr1 : forall D C F,
               set_car (set_car_start_direction D (car w1))
                 (set_game_cols C (set_game_field F w1))
               = set_car (set_car_start_direction D (car w))
                   (set_game_cols C (set_game_field F w)))
      by (intros; subst w1; destruct (_ >? _); reflexivity).
    assert (Hcar1 : car w1 = car w)
      by (subst w1; destruct (_ >? _); reflexivity).
    assert (Hi : int (Z.of_nat (List.length pre) + 1)
                 = Z.of_nat (List.length (pre ++ [scanned row]))).
    { rewrite length_app. cbn [List.length].
      rewrite int_small by (cbn [List.length] in Hlen;
                            unfold INT_MIN, INT_MAX in *; lia). lia. }
    assert (Hlen' : Z.of_nat (List.length (pre ++ [scanned row]) + List.length rest)
                    <= INT_MAX).
    { rewrite length_app. cbn [List.length] in *. lia. }
    rewrite Hi.
    destruct (wcschr row chars_goal) as [g|] eqn:Eg.
    + assert (Hf2 : game_field (game w1) = (pre ++ [scanned row]) ++ rest).
      { rewrite Hf1, <- app_assoc. unfold scanned. rewrite Eg. reflexivity. }
      match goal with
      | |- context [level_init_loop _ _ ?m1 inp w1] =>
          specialize (IH (pre ++ [scanned row]) m1 inp w1 Hf2 Hlen');
            set (M1 := m1) in *
      end.
      destruct (level_init_loop _ _ M1 inp w1) as [m' inp' w' | f w' |];
        [|destruct IH as [-> E]; split; [reflexivity | now right] | exact IH].
      destruct IH as [-> R]. split; [reflexivity|].
      apply (scan_result_cons pre row rest m M1 m' w w1 w'); auto;
        subst M1; cbn [goal_count start_count goal_index car_start_index];
        rewrite ?Eg, ?Hcar1; first [reflexivity | lia].
    + destruct (wcschr_car row) as [[k d]|] eqn:Ec.
      * rewrite !bind_exec.
        match goal with
        | |- context [level_init_loop _ _ ?m1 inp ?v] =>
            specialize (IH (pre ++ [scanned row]) m1 inp v);
              set (M1 := m1) in *; set (w2 := v) in *
        end.
        assert (Hf2 : game_field (game w2) = (pre ++ [scanned row]) ++ rest).
        { subst w2. cbn [set_game_field set_game game game_field set_car].
          rewrite Hf1, store_app, <- app_assoc.
          unfold scanned. rewrite Eg, Ec. reflexivity. }
        specialize (IH Hf2 Hlen').
        destruct (level_init_loop _ _ M1 inp w2) as [m' inp' w' | f w' |];
          [|destruct IH as [-> E]; split; [reflexivity | now right] | exact IH].
        destruct IH as [-> R]. split; [reflexivity|].
        apply (scan_result_cons pre row rest m M1 m' w w2 w'); auto;
          subst M1; cbn [goal_count start_count goal_index car_start_index];
          rewrite ?Eg, ?Ec; first [reflexivity | lia].
      * assert (Hf2 : game_field (game w1) = (pre ++ [scanned row]) ++ rest).
        { rewrite Hf1, <- app_assoc. unfold scanned. rewrite Eg, Ec. reflexivity. }
        specialize (IH (pre ++ [scanned row]) m inp w1 Hf2 Hlen').
        destruct (level_init_loop _ _ m inp w1) as [m' inp' w' | f w' |];
          [|destruct IH as [-> E]; split; [reflexivity | now right] | exact IH].
        destruct IH as [-> R]. split; [reflexivity|].
        apply (scan_result_cons pre row rest m m m' w w1 w'); auto;
          rewrite ?Eg, ?Ec, ?Hcar1; first [reflexivity | lia].
Qed.

(** A row that has no width stops the program: [level_init] exits over
    "wcswidth() returned -1", wherever the row is and whatever the markers
    are. *)
Theorem level_init_needs_widths (inp : list Event) (w : World) :
  let field := game_field (game w) in
  game_lines (game w) = Z.of_nat (List.length field) ->
  Z.of_nat (List.length field) <= INT_MAX ->
  Exists (fun row => wcswidth row = -1) field ->
  outcome (level_init inp w) = Exited WcswidthFailed.
Proof.
  intros field Hlines Hlen Hbad.
  pose proof (level_init_loop_spec field [] (mkMarks (mkPos 0 0) (mkPos 0 0) 0 0)
                inp w eq_refl Hlen) as H.
  unfold level_init. rewrite bind_get, Hlines, Nat2Z.id. unfold bind at 1.
  cbn [List.length Z.of_nat] in H. fold field.
  destruct (level_init_loop _ 0 _ inp w) as [m' inp' w' | f w' |].
  - destruct H as [_ R]. exfalso.
    exact (Forall_not_Exists_width _ (sr_widths _ _ _ _ _ _ R) Hbad).
  - destruct H as [-> _]. reflexivity.
  - contradiction.
Qed.

(** When [buf] holds both copies, [level_init_positions] makes its three
    assignments. *)
Lemma level_init_positions_holds (gi si : Pos) (inp : list Event) (w : World) :
  buf_holds (pos_x gi) w = true -> buf_holds (pos_x si) w = true ->
  level_init_positions gi si inp w
  = Ok tt inp (start_at si (goal_at gi (centre_level w))).
Proof.
  intros Hg Hs. unfold level_init_positions. rewrite bind_exec, bind_get.
  change (buf_holds (pos_x gi) (centre_level w)) with (buf_holds (pos_x gi) w).
  rewrite Hg, bind_exec, bind_get.
  change (buf_holds (pos_x si) (goal_at gi (centre_level w)))
    with (buf_holds (pos_x si) w).
  rewrite Hs. reflexivity.
Qed.

(** When it returns, it has made them. *)
Lemma level_init_positions_returned (gi si : Pos) (inp inp' : list Event)
      (w w' : World) :
  level_init_positions gi si inp w = Ok tt inp' w' ->
  inp' = inp /\ w' = start_at si (goal_at gi (centre_level w)).
Proof.
  unfold level_init_positions. rewrite bind_exec, bind_get.
  destruct (buf_holds (pos_x gi) (centre_level w)); [|discriminate].
  rewrite bind_exec, bind_get.
  destruct (buf_holds (pos_x si) (goal_at gi (centre_level w))); [|discriminate].
  unfold exec. intros E. injection E as <- <-. auto.
Qed.

(** When it does not hold one of them, the copy runs past its end. *)
Lemma level_init_positions_overruns (gi si : Pos) (inp : list Event) (w : World) :
  buf_holds (pos_x gi) w = false \/ buf_holds (pos_x si) w = false ->
  outcome (level_init_positions gi si inp w) = Exited BufferOverrun.
Proof.
  intros H. unfold level_init_positions. rewrite bind_exec, bind_get.
  change (buf_holds (pos_x gi) (centre_level w)) with (buf_holds (pos_x gi) w).
  destruct (buf_holds (pos_x gi) w); [|reflexivity].
  rewrite bind_exec, bind_get.
  change (buf_holds (pos_x si) (goal_at gi (centre_level w)))
    with (buf_holds (pos_x si) w).
  destruct H as [H | H]; [discriminate|]. rewrite H. reflexivity.
Qed.

Lemma buf_holds_spec (x : Z) (w : World) :
  0 <= x -> 0 <= game_cols (game w) < INT_MAX ->
  buf_holds x w = (x <=? game_cols (game w)).
Proof.
  intros Hx Hc. unfold buf_holds.
  rewrite int_small by (unfold INT_MIN, INT_MAX in *; lia).
  replace (0 <=? x) with true by (symmetry; apply Z.leb_le; lia).
  cbn [andb]. destruct (Z.ltb_spec x (game_cols (game w) + 1)),
    (Z.leb_spec x (game_cols (game w))); lia.
Qed.

(** The scan of a level in which one row holds a goal marker and one other
    row a car character: it finds the two, and hands their indices on. *)
Lemma level_init_scan (inp : list Event) (w : World) :
  let field := game_field (game w) in
  game_lines (game w) = Z.of_nat (List.length field) ->
  Z.of_nat (List.length field) <= INT_MAX ->
  Forall (fun row => wcswidth row <> -1) field ->
  goal_rows field = 1 -> start_rows field = 1 ->
  exists (gy sy : nat) (grow srow : list wchar_t) (gx sx : Z) (d : Direction),
    nth_error field gy = Some grow /\ wcschr grow chars_goal = Some gx
    /\ nth_error field sy = Some srow /\ wcschr srow chars_goal = None
    /\ wcschr_car srow = Some (sx, d)
    /\ level_init inp w
       = level_init_positions (mkPos (int gx) (Z.of_nat gy))
                              (mkPos (int sx) (Z.of_nat sy)) inp
           (set_car (set_car_start_direction d (car w))
              (set_game_cols (widest field (game_cols (game w)))
                 (set_game_field (map scanned field) w))).
Proof.
  intros field Hlines Hlen Hw Hg Hs.
  pose proof (level_init_loop_spec field [] (mkMarks (mkPos 0 0) (mkPos 0 0) 0 0)
                inp w eq_refl Hlen) as H.
  cbn [List.length Z.of_nat] in H.
  destruct (level_init_loop (List.length field) 0 _ inp w)
    as [m1 inp1 w1 | f w1 |] eqn:E;
    [|destruct H as [_ Hbad]; exfalso; exact (Forall_not_Exists_width _ Hw Hbad)
     |contradiction].
  destruct H as [-> [Rw Rc _ Rgc Rsc _ Rgf _ Rsf]].
  cbn [goal_count start_count Nat.add List.length] in *.
  rewrite Hg in Rgc, Rgf. rewrite Hs in Rsc, Rsf.
  destruct (Rgf ltac:(lia)) as [j [r [g [Hj [Hr Hgi]]]]].
  destruct (Rsf ltac:(lia)) as [k [r' [s [d [Hk [Hr1 [Hr2 [Hsi Hd]]]]]]]].
  exists j, k, r, r', g, s, d. repeat (split; [assumption|]).
  unfold level_init. rewrite bind_get, Hlines, Nat2Z.id.
  unfold bind at 1. fold field. rewrite E, Rgc, Rsc. cbn [Z.eqb Pos.eqb negb].
  rewrite Hgi, Hsi. f_equal. rewrite Rw at 1. rewrite Rc, Hd. reflexivity.
Qed.

(** The row that holds the goal marker, and the row that holds the car. *)
Lemma goal_row_unique (field : list (list wchar_t)) (a b : nat)
      (ra rb : list wchar_t) (xa xb : Z) :
  goal_rows field = 1 ->
  nth_error field a = Some ra -> wcschr ra chars_goal = Some xa ->
  nth_error field b = Some rb -> wcschr rb chars_goal = Some xb ->
  a = b /\ ra = rb /\ xa = xb.
Proof.
  intros Hg Ha Hxa Hb Hxb.
  assert (a = b).
  { apply (one_row (fun row => match wcschr row chars_goal with
                               | Some _ => 1 | None => 0 end) field
             ltac:(intros row; cbv beta; destruct (wcschr row chars_goal); lia)
             a b ra rb Hg Ha Hb); [rewrite Hxa | rewrite Hxb]; lia. }
  subst b. rewrite Ha in Hb. injection Hb as <-.
  rewrite Hxa in Hxb. injection Hxb as <-. auto.
Qed.

Lemma start_row_unique (field : list (list wchar_t)) (a b : nat)
      (ra rb : list wchar_t) (xa xb : Z) (da db : Direction) :
  start_rows field = 1 ->
  nth_error field a = Some ra -> wcschr ra chars_goal = None ->
  wcschr_car ra = Some (xa, da) ->
  nth_error field b = Some rb -> wcschr rb chars_goal = None ->
  wcschr_car rb = Some (xb, db) ->
  a = b /\ ra = rb /\ xa = xb /\ da = db.
Proof.
  intros Hs Ha Hga Hxa Hb Hgb Hxb.
  assert (a = b).
  { apply (one_row (fun row => match wcschr row chars_goal, wcschr_car row with
                               | None, Some _ => 1 | _, _ => 0 end) field
             ltac:(intros row; cbv beta;
                   destruct (wcschr row chars_goal), (wcschr_car row); lia)
             a b ra rb Hs Ha Hb); [rewrite Hga, Hxa | rewrite Hgb, Hxb]; lia. }
  subst b. rewrite Ha in Hb. injection Hb as <-.
  rewrite Hxa in Hxb. injection Hxb as <- <-. auto.
Qed.

(** A level in which one row holds a goal marker and one other row a car
    character, with [game.cols] the width of its widest row.  When neither
    marker has more characters before it than the level has columns,
    [level_init] returns with the level centred in the playable area, the
    parking place and the start of the car on the cells of their markers,
    counted in columns of the display, and the start direction that of the
    car character.  When one of them has more, as after characters that take
    no column, [level_init_positions] copies the text before it past the end
    of [buf]. *)
Theorem level_init_places_the_markers (inp : list Event) (w : World)
        (gy sy : nat) (grow srow : list wchar_t) (gx sx : Z) (d : Direction) :
  let field := game_field (game w) in
  let cols := widest field (game_cols (game w)) in
  game_lines (game w) = Z.of_nat (List.length field) ->
  Z.of_nat (List.length field) <= INT_MAX ->
  Forall (fun row => wcswidth row <> -1) field ->
  goal_rows field = 1 -> start_rows field = 1 ->
  nth_error field gy = Some grow -> wcschr grow chars_goal = Some gx ->
  gx <= INT_MAX ->
  nth_error field sy = Some srow -> wcschr srow chars_goal = None ->
  wcschr_car srow = Some (sx, d) -> sx <= INT_MAX ->
  0 <= cols < INT_MAX ->
  (gx <= cols -> sx <= cols ->
   exists w' : World,
     level_init inp w = Ok tt inp w'
     /\ let xo := int (Z.quot (int (GAMEWIN_COLS w - cols)) 2) in
        let yo := int (Z.quot (int (GAMEWIN_LINES w - game_lines (game w))) 2) in
        game_cols (game w') = cols
        /\ game_x_offset (game w') = xo /\ game_y_offset (game w') = yo
        /\ goal_pos (goal w')
           = mkPos (int (wcswidth (firstn (Z.to_nat gx) grow) + xo))
                   (int (Z.of_nat gy + yo))
        /\ car_start_pos (car w')
           = mkPos (int (wcswidth (firstn (Z.to_nat sx) srow) + xo))
                   (int (Z.of_nat sy + yo))
        /\ car_start_direction (car w') = d)
  /\ (cols < gx \/ cols < sx ->
      outcome (level_init inp w) = Exited BufferOverrun).
Proof.
  intros field cols Hlines Hlen Hw Hg Hs Hgy Hgx Hgx' Hsy Hsg Hsx Hsx' Hcols.
  destruct (level_init_scan inp w Hlines Hlen Hw Hg Hs)
    as [j [k [r [r' [g [s [d' [Hj [Hr [Hk [Hr1 [Hr2 E]]]]]]]]]]]].
  fold field in Hj, Hk, E. fold cols in E.
  destruct (goal_row_unique field j gy r grow g gx Hg Hj Hr Hgy Hgx)
    as [-> [-> ->]].
  destruct (start_row_unique field k sy r' srow s sx d' d Hs Hk Hr1 Hr2 Hsy Hsg Hsx)
    as [-> [-> [-> ->]]].
  pose proof (wcschr_nonneg _ _ _ Hgx) as Hg0.
  pose proof (wcschr_car_nonneg _ _ _ Hsx) as Hs0.
  rewrite !int_small in E by (unfold INT_MIN, INT_MAX in *; lia).
  rewrite E. clear E.
  set (w1 := set_car _ _).
  assert (Hc1 : game_cols (game w1) = cols) by reflexivity.
  assert (Hbg : buf_holds gx w1 = (gx <=? cols))
    by (rewrite <- Hc1; apply buf_holds_spec; rewrite ?Hc1; lia).
  assert (Hbs : buf_holds sx w1 = (sx <=? cols))
    by (rewrite <- Hc1; apply buf_holds_spec; rewrite ?Hc1; lia).
  split.
  - intros Hgc Hsc.
    exists (start_at (mkPos sx (Z.of_nat sy))
              (goal_at (mkPos gx (Z.of_nat gy)) (centre_level w1))).
    split.
    + apply level_init_positions_holds; cbn [pos_x];
        rewrite ?Hbg, ?Hbs; apply Z.leb_le; assumption.
    + cbv zeta.
      assert (Hrow_g : nth gy (game_field (game w1)) [] = grow).
      { subst w1.
        cbn [set_car set_game_cols set_game_field set_game game game_field].
        erewrite nth_error_nth; [|apply map_nth_error, Hgy].
        unfold scanned. now rewrite Hgx. }
      assert (Hrow_s : firstn (Z.to_nat sx) (nth sy (game_field (game w1)) [])
                       = firstn (Z.to_nat sx) srow).
      { subst w1.
        cbn [set_car set_game_cols set_game_field set_game game game_field].
        erewrite nth_error_nth; [|apply map_nth_error, Hsy].
        unfold scanned. rewrite Hsg, Hsx. apply firstn_store. }
      unfold start_at, goal_at, centre_level, before.
      cbn [set_car set_goal set_game_offsets set_game game goal car game_cols
           game_x_offset game_y_offset game_field goal_pos car_start_pos
           set_car_start_pos car_start_direction pos_x pos_y].
      rewrite !Nat2Z.id, Hrow_g, Hrow_s.
      repeat split; reflexivity.
  - intros Hover. apply level_init_positions_overruns. cbn [pos_x].
    rewrite Hbg, Hbs. destruct Hover; [left | right]; apply Z.leb_gt; assumption.
Qed.

(** A level with exactly one goal marker and exactly one start marker, in
    different rows, every row at least as many columns wide as it has
    characters: [level_init] returns, and afterwards the grid holds the goal
    marker and no start marker. *)
Theorem level_init_locates_markers (inp : list Event) (w : World) :
  let field := game_field (game w) in
  game_lines (game w) = Z.of_nat (List.length field) ->
  Z.of_nat (List.length field) <= INT_MAX ->
  (forall row, In row field -> Z.of_nat (List.length row) <= wcswidth row) ->
  widest field (game_cols (game w)) < INT_MAX ->
  goal_markers field = 1 ->
  start_markers field = 1 ->
  (forall row, In row field ->
     count_char chars_goal row = 0 \/ start_markers_row row = 0) ->
  exists w' : World,
    level_init inp w = Ok tt inp w'
    /\ goal_markers (game_field (game w')) = 1
    /\ start_markers (game_field (game w')) = 0
    /\ List.length (game_field (game w')) = List.length field.
Proof.
  intros field Hlines Hlen Hwide Hcols Hg Hs Hrows.
  assert (Hw : Forall (fun row => wcswidth row <> -1) field).
  { apply Forall_forall. intros row Hin. specialize (Hwide row Hin). lia. }
  destruct (level_init_scan inp w Hlines Hlen Hw
              (proj2 (goal_rows_one field) Hg)
              (proj2 (start_rows_one field Hrows) Hs))
    as [gy [sy [grow [srow [gx [sx [d [Hgy [Hgx [Hsy [Hsg [Hsx E]]]]]]]]]]]].
  fold field in Hgy, Hsy, E.
  pose proof (wcschr_lt _ _ _ Hgx) as Hg0.
  pose proof (wcschr_car_lt _ _ _ Hsx) as Hs0.
  pose proof (Hwide _ (nth_error_In _ _ Hgy)) as Hgw.
  pose proof (Hwide _ (nth_error_In _ _ Hsy)) as Hsw.
  pose proof (widest_ge field (game_cols (game w)) _ (nth_error_In _ _ Hgy)) as Hgc.
  pose proof (widest_ge field (game_cols (game w)) _ (nth_error_In _ _ Hsy)) as Hsc.
  rewrite !int_small in E by (unfold INT_MIN, INT_MAX in *; lia).
  rewrite E. clear E.
  set (w1 := set_car _ _).
  assert (Hc1 : game_cols (game w1) = widest field (game_cols (game w)))
    by reflexivity.
  exists (start_at (mkPos sx (Z.of_nat sy))
            (goal_at (mkPos gx (Z.of_nat gy)) (centre_level w1))).
  split.
  - apply level_init_positions_holds; cbn [pos_x];
      rewrite buf_holds_spec by (rewrite ?Hc1; lia);
      apply Z.leb_le; rewrite Hc1; lia.
  - change (game_field (game (start_at (mkPos sx (Z.of_nat sy))
                                (goal_at (mkPos gx (Z.of_nat gy)) (centre_level w1)))))
      with (map scanned field).
    destruct (scanned_field_counts field) as [Cg Cs].
    rewrite (proj2 (start_rows_one field Hrows) Hs) in Cs.
    rewrite Cg, Cs, length_map. repeat split; lia.
Qed.

End InitProperties.

(** ** The level on the screen *)

Section SetupProperties.
Context {P : Platform}.

Lemma firstn_store_le {A : Type} (l : list A) (k n : nat) (v : A) :
  (k <= n)%nat -> firstn k (store l n v) = firstn k l.
Proof.
  revert k n. induction l as [|a l IH]; intros [|k] [|n] H; cbn; auto; try lia.
  rewrite IH by lia. reflexivity.
Qed.

(** An index that has gone through [int] still points into the row. *)
Lemma int_index (k len : Z) :
  0 <= k < len ->
  (Z.to_nat (int k) <= Z.to_nat k)%nat /\ Z.of_nat (Z.to_nat (int k)) < len.
Proof.
  intros Hk. destruct (int_spec k) as [q Hq]. pose proof (int_range k) as Hr.
  unfold INT_MIN, INT_MAX in Hr.
  destruct (Z_le_gt_dec (int k) k); [lia|].
  assert (1 <= q) by nia. lia.
Qed.

(** Centring [size] cells in [room] cells leaves them inside. *)
Lemma centred (room size at_ : Z) :
  0 <= size <= room -> room <= INT_MAX -> 0 <= at_ < size ->
  int (at_ + int (Z.quot (int (room - size)) 2))
  = at_ + int (Z.quot (int (room - size)) 2)
  /\ 0 <= at_ + int (Z.quot (int (room - size)) 2) < room.
Proof.
  intros Hs Hr Ha.
  rewrite (int_small (room - size)) by (unfold INT_MIN, INT_MAX in *; lia).
  pose proof (Z.quot_pos (room - size) 2 ltac:(lia) ltac:(lia)).
  pose proof (Z.mul_quot_le (room - size) 2 ltac:(lia) ltac:(lia)).
  rewrite (int_small (_ ÷ 2)) by (unfold INT_MIN, INT_MAX in *; lia).
  rewrite int_small by (unfold INT_MIN, INT_MAX in *; lia). lia.
Qed.

Lemma car_reset_spec (w : World) :
  car_pos (car (car_reset w)) = car_start_pos (car w)
  /\ car_old_pos (car (car_reset w)) = car_start_pos (car w)
  /\ car_direction (car (car_reset w)) = car_start_direction (car w)
  /\ car_start_pos (car (car_reset w)) = car_start_pos (car w)
  /\ car_start_direction (car (car_reset w)) = car_start_direction (car w)
  /\ car_car (car (car_reset w))
     = glyph (car_start_direction (car w)) (car (car_reset w))
  /\ goal (car_reset w) = goal w
  /\ GAMEWIN_COLS (car_reset w) = GAMEWIN_COLS w
  /\ GAMEWIN_LINES (car_reset w) = GAMEWIN_LINES w.
Proof.
  destruct w as [c cu g go t co li su]; destruct c as [cc l r u d sd dir p sp op].
  destruct sd; repeat split.
Qed.

Lemma level_draw_only_draws (w : World) :
  exists rows, level_draw w
               = mkWorld (car w) (curses w) (game w) (goal w) (timer w)
                         (COLS w) (LINES w) (rows ++ surface w).
Proof. apply level_draw_loop_only_draws. Qed.

(** Every character takes at least one column, and the columns of a string
    are those of its characters. *)
Hypothesis wcswidth_grows :
  forall (row : list wchar_t) (k : nat),
    wcswidth row <> -1 -> (k < List.length row)%nat ->
    0 <= wcswidth (firstn k row) < wcswidth row.

(** When [level_setup] returns, the car stands on its start cell with its
    start direction and the character of that direction, and the start cell
    and the parking place are cells of the playable area, in different
    lines. *)
Theorem level_setup_starts_inside (file : option FILE) (inp inp' : list Event)
        (w w' : World) :
  GAMEWIN_COLS w <= INT_MAX ->
  level_setup file inp w = Ok tt inp' w' ->
  inp' = inp
  /\ car_pos (car w') = car_start_pos (car w')
  /\ car_old_pos (car w') = car_start_pos (car w')
  /\ car_direction (car w') = car_start_direction (car w')
  /\ car_car (car w') = glyph (car_direction (car w')) (car w')
  /\ inside w' (car_pos (car w'))
  /\ inside w' (goal_pos (goal w'))
  /\ pos_y (car_pos (car w')) <> pos_y (goal_pos (goal w')).
Proof.
  intros HGC E. unfold level_setup in E.
  (* the file *)
  unfold bind at 1 in E.
  pose proof (level_file_read_spec file inp w) as H1.
  destruct (level_file_read file inp w) as [[] i1 w1 | |]; try discriminate.
  destruct H1 as [-> [Hl1 [Hr1 Hfr1]]].
  (* the markers *)
  unfold bind at 1 in E.
  destruct (level_init inp w1) as [[] i2 w3 | |] eqn:E2; try discriminate.
  unfold level_init in E2. rewrite bind_get in E2. unfold bind at 1 in E2.
  rewrite Hl1, Nat2Z.id in E2.
  pose proof (level_init_loop_spec (game_field (game w1)) []
                (mkMarks (mkPos 0 0) (mkPos 0 0) 0 0) inp w1 eq_refl
                ltac:(cbn [List.length Nat.add]; lia)) as H2.
  cbn [List.length Z.of_nat] in H2.
  destruct (level_init_loop _ 0 _ inp w1) as [m1 i w2 | |]; try discriminate.
  destruct H2 as [-> [Rw Rc Rwd Rgc Rsc _ Rgf _ Rsf]].
  cbn [goal_count start_count Nat.add] in *.
  destruct (Z.eqb_spec (goal_count m1) 1) as [Eg1 |]; [|discriminate].
  destruct (Z.eqb_spec (start_count m1) 1) as [Es1 |]; [|discriminate].
  cbn [negb] in E2. apply level_init_positions_returned in E2.
  destruct E2 as [-> ->].
  destruct (Rgf ltac:(lia)) as [j [grow [g [Hj [Hg Hgi]]]]].
  destruct (Rsf ltac:(lia)) as [k [srow [s [d [Hk [Hsg [Hs [Hsi Hd]]]]]]]].
  cbn [List.length Nat.add] in Hgi, Hsi.
  (* the size of the terminal *)
  unfold bind at 1 in E.
  match type of E with
  | context [curses_check_size inp ?v] =>
      set (w3 := v) in *; destruct (curses_check_size inp w3) as [[] i3 w4 | |] eqn:E3
  end; try discriminate.
  unfold curses_check_size in E3. rewrite bind_get in E3.
  destruct (_ || _) eqn:Efit in E3; [discriminate|].
  destruct (_ || _) in E3; [discriminate|].
  unfold ret in E3. injection E3 as <- <-.
  apply orb_false_iff in Efit. destruct Efit as [Hfc Hfl].
  rewrite Z.gtb_ltb in Hfc, Hfl. apply Z.ltb_ge in Hfc, Hfl.
  (* what the three stages have left alone *)
  assert (Hgc3 : GAMEWIN_COLS w3 = GAMEWIN_COLS w)
    by (subst w3; rewrite Rw, Hfr1; reflexivity).
  assert (Hgl3 : GAMEWIN_LINES w3 = GAMEWIN_LINES w)
    by (subst w3; rewrite Rw, Hfr1; reflexivity).
  assert (Hc3 : game_cols (game w3) = game_cols (game w2)) by reflexivity.
  assert (Hl3 : game_lines (game w3) = game_lines (game w1))
    by (subst w3; rewrite Rw; reflexivity).
  rewrite Hgc3, Hc3 in Hfc. rewrite Hgl3, Hl3 in Hfl.
  pose proof (GAMEWIN_LINES_range w) as HGL.
  (* the rows of the two markers *)
  pose proof (nth_error_In _ _ Hj) as Hgin.
  pose proof (nth_error_In _ _ Hk) as Hsin.
  assert (Hjl : (j < List.length (game_field (game w1)))%nat)
    by (apply nth_error_Some; rewrite Hj; discriminate).
  assert (Hkl : (k < List.length (game_field (game w1)))%nat)
    by (apply nth_error_Some; rewrite Hk; discriminate).
  rewrite Forall_forall in Rwd.
  pose proof (wcschr_lt _ _ _ Hg) as Hgx.
  pose proof (wcschr_car_lt _ _ _ Hs) as Hsx.
  destruct (int_index _ _ Hgx) as [_ Hgk].
  destruct (int_index _ _ Hsx) as [Hsle Hsk].
  pose proof (wcswidth_grows grow (Z.to_nat (int g)) (Rwd _ Hgin) ltac:(lia)) as Hgw.
  pose proof (wcswidth_grows srow (Z.to_nat (int s)) (Rwd _ Hsin) ltac:(lia)) as Hsw.
  pose proof (widest_ge _ (game_cols (game w1)) _ Hgin) as Hgc.
  pose proof (widest_ge _ (game_cols (game w1)) _ Hsin) as Hsc.
  rewrite <- Rc in Hgc, Hsc.
  assert (Hjk : j <> k) by (intros ->; rewrite Hj in Hk; congruence).
  (* the rows as the scan has left them *)
  assert (Hrow_g : nth j (game_field (game w2)) [] = grow).
  { rewrite Rw. cbn [set_car set_game_cols set_game_field set_game game game_field app].
    erewrite nth_error_nth; [|apply map_nth_error, Hj].
    unfold scanned. now rewrite Hg. }
  assert (Hrow_s : firstn (Z.to_nat (int s)) (nth k (game_field (game w2)) [])
                   = firstn (Z.to_nat (int s)) srow).
  { rewrite Rw. cbn [set_car set_game_cols set_game_field set_game game game_field app].
    erewrite nth_error_nth; [|apply map_nth_error, Hk].
    unfold scanned. rewrite Hsg, Hs. apply firstn_store_le, Hsle. }
  assert (Xg := centred (GAMEWIN_COLS w) (game_cols (game w2))
                  (wcswidth (firstn (Z.to_nat (int g)) grow))).
  assert (Xs := centred (GAMEWIN_COLS w) (game_cols (game w2))
                  (wcswidth (firstn (Z.to_nat (int s)) srow))).
  assert (Yg := centred (GAMEWIN_LINES w) (game_lines (game w1)) (Z.of_nat j)).
  assert (Ys := centred (GAMEWIN_LINES w) (game_lines (game w1)) (Z.of_nat k)).
  destruct Xg as [Xg1 Xg2]; [lia | lia | lia |].
  destruct Xs as [Xs1 Xs2]; [lia | lia | lia |].
  destruct Yg as [Yg1 Yg2]; [lia | lia | lia |].
  destruct Ys as [Ys1 Ys2]; [lia | lia | lia |].
  assert (Hgoal : goal_pos (goal w3)
                  = mkPos (int (wcswidth (firstn (Z.to_nat (int g)) grow)
                                + int (Z.quot (int (GAMEWIN_COLS w
                                                     - game_cols (game w2))) 2)))
                          (int (Z.of_nat j
                                + int (Z.quot (int (GAMEWIN_LINES w
                                                     - game_lines (game w1))) 2)))).
  { subst w3. unfold start_at, goal_at, centre_level, before. rewrite Hgi.
    cbn [set_car set_goal set_game_offsets set_game game goal car game_cols
         game_x_offset game_y_offset game_field goal_pos pos_x pos_y].
    rewrite Nat2Z.id, Hrow_g.
    replace (GAMEWIN_COLS w2) with (GAMEWIN_COLS w) by (rewrite Rw, Hfr1; reflexivity).
    replace (GAMEWIN_LINES w2) with (GAMEWIN_LINES w) by (rewrite Rw, Hfr1; reflexivity).
    replace (game_lines (game w2)) with (game_lines (game w1))
      by (rewrite Rw; reflexivity).
    reflexivity. }
  assert (Hstart : car_start_pos (car w3)
                   = mkPos (int (wcswidth (firstn (Z.to_nat (int s)) srow)
                                 + int (Z.quot (int (GAMEWIN_COLS w
                                                      - game_cols (game w2))) 2)))
                           (int (Z.of_nat k
                                 + int (Z.quot (int (GAMEWIN_LINES w
                                                      - game_lines (game w1))) 2)))).
  { subst w3. unfold start_at, goal_at, centre_level, before. rewrite Hsi.
    cbn [set_car set_goal set_game_offsets set_game game goal car game_cols
         game_x_offset game_y_offset game_field car_start_pos set_car_start_pos
         pos_x pos_y].
    rewrite Nat2Z.id, Hrow_s.
    replace (GAMEWIN_COLS w2) with (GAMEWIN_COLS w) by (rewrite Rw, Hfr1; reflexivity).
    replace (GAMEWIN_LINES w2) with (GAMEWIN_LINES w) by (rewrite Rw, Hfr1; reflexivity).
    replace (game_lines (game w2)) with (game_lines (game w1))
      by (rewrite Rw; reflexivity).
    reflexivity. }
  rewrite Xg1, Yg1 in Hgoal. rewrite Xs1, Ys1 in Hstart.
  (* the end of the setup *)
  rewrite !bind_exec in E. unfold exec in E. injection E as <- <-.
  match goal with
  | |- context [level_draw ?v] =>
      destruct (level_draw_only_draws v) as [rows Hdraw]; rewrite Hdraw
  end.
  match goal with
  | |- context [car_reset ?v] =>
      set (w5 := v);
      assert (Hcar5 : car w5 = car w3) by reflexivity;
      assert (Hgoal5 : goal w5 = goal w3) by reflexivity;
      assert (Hgc5 : GAMEWIN_COLS w5 = GAMEWIN_COLS w3) by reflexivity;
      assert (Hgl5 : GAMEWIN_LINES w5 = GAMEWIN_LINES w3) by reflexivity
  end.
  clearbody w5. clear Hdraw.
  destruct (car_reset_spec w5) as [C1 [C2 [C3 [C4 [C5 [C6 [C7 [C8 C9]]]]]]]].
  unfold inside. rewrite C1, C2, C3, C4, C5, C6, C7, C8, C9.
  rewrite Hgoal5, Hcar5, Hgc5, Hgl5, Hgc3, Hgl3, Hstart, Hgoal. cbn [pos_x pos_y].
  repeat split; try reflexivity; lia.
Qed.

End SetupProperties.

(** ** Drawing and resizing *)

Lemma level_draw_loop_rows (remaining : nat) :
  forall (done : nat) (w : World) (s0 : list Action),
  Z.of_nat (done + remaining) <= INT_MAX ->
  level_draw_loop remaining (Z.of_nat done) (set_surface (drawn_rows w done ++ s0) w)
  = set_surface (drawn_rows w (done + remaining) ++ s0) w.
Proof.
  induction remaining as [|r IH]; intros done w s0 Hlen.
  - cbn [level_draw_loop]. now rewrite Nat.add_0_r.
  - cbn [level_draw_loop].
    replace (int (Z.of_nat done + 1)) with (Z.of_nat (S done))
      by (rewrite int_small by (unfold INT_MIN, INT_MAX in *; lia); lia).
    rewrite Nat2Z.id.
    replace (done + S r)%nat with (S done + r)%nat by lia.
    rewrite <- (IH (S done) w s0) by lia. reflexivity.
Qed.

(** [level_draw] writes every row of the level once, the rows in their
    order, row [i] to line [game.y_offset + i] from column [game.x_offset] on,
    and does nothing else. *)
Theorem level_draw_rows (w : World) :
  game_lines (game w) <= INT_MAX ->
  level_draw w
  = set_surface (drawn_rows w (Z.to_nat (game_lines (game w))) ++ surface w) w.
Proof.
  intros Hl. unfold level_draw.
  pose proof (level_draw_loop_rows (Z.to_nat (game_lines (game w))) 0 w (surface w)
                ltac:(cbn [Nat.add]; unfold INT_MAX in *; lia)) as H.
  cbn [drawn_rows app Z.of_nat Nat.add] in H. rewrite <- H.
  destruct w; reflexivity.
Qed.

Lemma step_keeps_places_level_resize (w : World) :
  places (level_resize w) = places w.
Proof.
  unfold level_resize, level_draw. cbv zeta.
  match goal with
  | |- context [level_draw_loop ?n ?i ?v] =>
      destruct (level_draw_loop_only_draws n i v) as [rows E]; rewrite E
  end.
  unfold places, in_level.
  cbn [car curses game goal timer set_goal set_car set_game_offsets set_game
       game_x_offset game_y_offset car_pos car_start_pos
       set_car_start_pos set_car_pos set_car_old_pos goal_pos pos_x pos_y].
  rewrite !int_shift. reflexivity.
Qed.

(** A resize moves the car, the parking place and the start of the car along
    with the level: each is in the level where it was, however the resize
    ends. *)
Theorem game_resize_keeps_places {P : Platform} (inp : list Event) (w : World) :
  places (world_of (game_resize inp w)) = places w.
Proof.
  revert inp w.
  change (preserves (fun w w' => places w' = places w) game_resize).
  apply preserves_game_resize; try reflexivity.
  - intros w1 w2 w3 H12 H23. now rewrite H23.
  - apply step_keeps_places_level_resize.
  - intros w. unfold game_update_screen.
    destruct (car_position_changed _); reflexivity.
Qed.

Lemma parked_game_update_screen (w : World) : parked w (game_update_screen w).
Proof.
  unfold game_update_screen. destruct (car_position_changed _); repeat split.
Qed.

(** The line of the car after [level_resize], and what stays. *)
Lemma level_resize_car (w : World) :
  pos_y (car_pos (car (level_resize w)))
  = int (pos_y (car_pos (car w))
         + int (int (Z.quot (int (GAMEWIN_LINES w - game_lines (game w))) 2)
                - game_y_offset (game w)))
  /\ GAMEWIN_LINES (level_resize w) = GAMEWIN_LINES w
  /\ GAMEWIN_COLS (level_resize w) = GAMEWIN_COLS w.
Proof.
  unfold level_resize, level_draw. cbv zeta.
  match goal with
  | |- context [level_draw_loop ?n ?i ?v] =>
      destruct (level_draw_loop_only_draws n i v) as [rows E]; rewrite E
  end.
  repeat split.
Qed.

Section ResizeProperties.
Context {P : Platform}.

(** [curses_check_size] holds the line of the car against the number of
    columns.  A resize to fewer lines than the car needs is therefore taken
    when the terminal is wide enough, and leaves the car below the playable
    area. *)
Theorem resize_can_leave_the_car_below (inp : list Event) (w : World) :
  let resized := set_curses (mkCurses (COLS w) (LINES w)) w in
  let x := pos_x (car_pos (car w)) in
  let y := pos_y (car_pos (car w)) in
  0 <= game_cols (game w) <= GAMEWIN_COLS resized ->
  0 <= game_lines (game w) <= GAMEWIN_LINES resized ->
  x < GAMEWIN_COLS resized -> y < GAMEWIN_COLS resized ->
  newwin 1 (COLS w) (int (LINES w - 1)) 0 = true ->
  0 <= game_y_offset (game w) <= y -> 2 * y <= INT_MAX ->
  GAMEWIN_LINES resized <= y - game_y_offset (game w) ->
  exists w' : World,
    game_resize inp w = Ok tt inp w'
    /\ GAMEWIN_LINES w' <= pos_y (car_pos (car w')).
Proof.
  intros resized x y Hc Hl Hx Hy Hwin Hoff Hmax Hbelow.
  pose proof (GAMEWIN_LINES_range resized) as HGL.
  assert (Hcheck : curses_check_size inp resized = Ok tt inp resized).
  { unfold curses_check_size. rewrite bind_get.
    replace (game_cols (game resized) >? GAMEWIN_COLS resized) with false
      by (symmetry; rewrite Z.gtb_ltb; apply Z.ltb_ge; exact (proj2 Hc)).
    replace (game_lines (game resized) >? GAMEWIN_LINES resized) with false
      by (symmetry; rewrite Z.gtb_ltb; apply Z.ltb_ge; exact (proj2 Hl)).
    replace (pos_x (car_pos (car resized)) >=? GAMEWIN_COLS resized) with false
      by (symmetry; rewrite Z.geb_leb; apply Z.leb_gt; exact Hx).
    replace (pos_y (car_pos (car resized)) >=? GAMEWIN_COLS resized) with false
      by (symmetry; rewrite Z.geb_leb; apply Z.leb_gt; exact Hy).
    reflexivity. }
  set (w1 := emit (Wresize (GAMEWIN_LINES resized) (GAMEWIN_COLS resized)) resized).
  exists (game_update_screen (goal_place (level_resize w1))). split.
  - unfold game_resize, curses_resize. rewrite !bind_assoc, bind_exec. fold resized.
    rewrite !bind_assoc. unfold bind at 1. rewrite Hcheck.
    rewrite !bind_assoc, bind_exec. fold w1. unfold curses_set_windows.
    rewrite !bind_assoc, bind_get.
    replace (newwin 1 (curses_cols (curses w1)) (int (curses_lines (curses w1) - 1)) 0)
      with true by (symmetry; exact Hwin).
    unfold ret at 1. unfold bind at 1.
    rewrite !bind_exec. reflexivity.
  - destruct (parked_game_update_screen (goal_place (level_resize w1))) as [Hp [_ Hg]].
    rewrite Hp.
    replace (GAMEWIN_LINES (game_update_screen (goal_place (level_resize w1))))
      with (GAMEWIN_LINES (level_resize w1))
      by (unfold GAMEWIN_LINES; rewrite Hg;
          unfold game_update_screen;
          destruct (car_position_changed _); reflexivity).
    change (car (goal_place (level_resize w1))) with (car (level_resize w1)).
    destruct (level_resize_car w1) as [Hy' [HL' _]]. rewrite Hy', HL'.
    change (GAMEWIN_LINES w1) with (GAMEWIN_LINES resized).
    change (game_lines (game w1)) with (game_lines (game w)).
    change (game_y_offset (game w1)) with (game_y_offset (game w)).
    change (pos_y (car_pos (car w1))) with y.
    set (L := GAMEWIN_LINES resized) in *.
    rewrite (int_small (L - _)) by (unfold INT_MIN, INT_MAX in *; lia).
    clear Hy' HL' Hp Hg.
    assert (Q1 : 0 <= (L - game_lines (game w)) ÷ 2) by (apply Z.quot_pos; lia).
    assert (Q2 : 2 * ((L - game_lines (game w)) ÷ 2) <= L - game_lines (game w))
      by (apply Z.mul_quot_le; lia).
    remember ((L - game_lines (game w)) ÷ 2) as q.
    rewrite (int_small q) by (unfold INT_MIN, INT_MAX in *; lia).
    rewrite (int_small (_ - game_y_offset _)) by (unfold INT_MIN, INT_MAX in *; lia).
    rewrite int_small by (unfold INT_MIN, INT_MAX in *; lia). lia.
Qed.

End ResizeProperties.

(** ** Keys *)

Lemma parked_refl (w : World) : parked w w.
Proof. repeat split. Qed.

Lemma parked_trans (w1 w2 w3 : World) : parked w1 w2 -> parked w2 w3 -> parked w1 w3.
Proof. intros [A1 [B1 C1]] [A2 [B2 C2]]. repeat split; congruence. Qed.

Section KeyProperties.
Context {P : Platform}.

Ltac park :=
  repeat first
    [ apply (preserves_ret _ parked_refl)
    | apply (preserves_DIE _ parked_refl)
    | apply (preserves_get _ parked_refl)
    | apply (preserves_timer_settime_or_die _ parked_refl parked_trans)
    | apply preserves_exec; intros ?; repeat split
    | match goal with
      | |- preserves _ (if ?c then _ else _) => destruct c
      end
    | apply (preserves_bind _ parked_trans); [|intros ?] ].

Lemma parked_timer_accelerate : preserves parked timer_accelerate.
Proof. unfold timer_accelerate, timer_set, timer_commit. park. Qed.

Lemma parked_timer_slowdown : preserves parked timer_slowdown.
Proof. unfold timer_slowdown, timer_commit. park. Qed.

Lemma parked_car_turn_left (w : World) : parked w (car_turn_left w).
Proof. unfold car_turn_left. destruct (car_direction (car w)); repeat split. Qed.

Lemma parked_car_turn_right (w : World) : parked w (car_turn_right w).
Proof. unfold car_turn_right. destruct (car_direction (car w)); repeat split. Qed.

(** What the loop does with a key that [curses_wgetch] has returned. *)
Lemma parked_key (r : Z) (wch : wint_t) :
  r <> ERR ->
  preserves parked
    (if r =? ERR then game_loop_interrupted
     else if r =? KEY_CODE_YES then
       (if wch =? KEY_DOWN then timer_slowdown
        else if wch =? KEY_LEFT then exec car_turn_left
        else if wch =? KEY_RIGHT then exec car_turn_right
        else if wch =? KEY_UP then timer_accelerate
        else ret tt) ;;
       ret true
     else if wch =? 97 then timer_accelerate ;; ret true
     else if wch =? 98 then timer_slowdown ;; ret true
     else if wch =? 113 then ret false
     else ret true).
Proof.
  intros Hr. destruct (Z.eqb_spec r ERR); [contradiction|].
  pose proof parked_timer_accelerate. pose proof parked_timer_slowdown.
  destruct (r =? KEY_CODE_YES).
  - apply (preserves_bind _ parked_trans); [|intros ?; apply (preserves_ret _ parked_refl)].
    destruct (wch =? KEY_DOWN); [assumption|].
    destruct (wch =? KEY_LEFT);
      [apply preserves_exec, parked_car_turn_left|].
    destruct (wch =? KEY_RIGHT);
      [apply preserves_exec, parked_car_turn_right|].
    destruct (wch =? KEY_UP); [assumption | apply (preserves_ret _ parked_refl)].
  - destruct (wch =? 97).
    { apply (preserves_bind _ parked_trans);
        [assumption | intros ?; apply (preserves_ret _ parked_refl)]. }
    destruct (wch =? 98).
    { apply (preserves_bind _ parked_trans);
        [assumption | intros ?; apply (preserves_ret _ parked_refl)]. }
    destruct (wch =? 113); apply (preserves_ret _ parked_refl).
Qed.

(** Keys steer and set the speed, they do not move the car: after a turn
    of the loop that has read a character or a function key, the car is where
    it was, whatever the key and however the turn ends; the parking place
    and the level are untouched. *)
Theorem keys_do_not_move_the_car (e : Event) (rest : list Event) (w : World) :
  (exists c, e = Typed c) \/ (exists k, e = Pressed k /\ k <> KEY_RESIZE) ->
  parked w (world_of (game_loop_body (e :: rest) w)).
Proof.
  intros He. unfold game_loop_body. rewrite bind_exec.
  apply (parked_trans _ (game_update_screen w)); [apply parked_game_update_screen|].
  unfold bind, curses_wgetch. cbn [curses_wgetch_loop].
  destruct He as [[c ->] | [k [-> Hk]]]; cbn [wget_wch].
  - change ((OK =? KEY_CODE_YES) && (c =? KEY_RESIZE)) with false.
    change (negb (OK =? ERR)) with true. cbv beta iota.
    apply (parked_key OK c). discriminate.
  - change (KEY_CODE_YES =? KEY_CODE_YES) with true. cbn [andb].
    replace (k =? KEY_RESIZE) with false by (symmetry; now apply Z.eqb_neq).
    change (negb (KEY_CODE_YES =? ERR)) with true. cbv beta iota.
    apply (parked_key KEY_CODE_YES k). discriminate.
Qed.

End KeyProperties.

(** ** The timer, back and forth *)

Section TimerRoundTrip.
Context {P : Platform}.

(** One step slower and one step faster again is the interval the timer
    had; one step faster and one step slower again is so too, unless the
    step faster has brought the interval to zero: that disarms the timer,
    and [timer_slowdown] leaves a disarmed timer alone. *)
Theorem timer_steps_undo_each_other (inp : list Event) (w : World) (v : timespec) :
  timer_its (timer w) = both v ->
  speed_step_width <= tv_nsec v -> tv_nsec v + speed_step_width <= LONG_MAX ->
  timer_settime (both v) = true ->
  timer_settime (both (mkTimespec (tv_sec v) (tv_nsec v + speed_step_width))) = true ->
  timer_settime (both (mkTimespec (tv_sec v) (tv_nsec v - speed_step_width))) = true ->
  (timer_slowdown ;; timer_accelerate) inp w = Ok tt inp w
  /\ (timer_accelerate ;; timer_slowdown) inp w
     = Ok tt inp
          (if (tv_sec v =? 0) && (tv_nsec v =? speed_step_width)
           then set_timer_its (both (mkTimespec 0 0)) w
           else w).
Proof.
  intros Hits Hlo Hhi Hv Hup Hdown.
  pose proof LONG_MAX_big as HL. unfold INT_MAX in HL.
  assert (Hstep : speed_step_width = 10000000) by reflexivity.
  assert (Hw : set_timer_its (both v) w = w).
  { rewrite <- Hits. apply set_timer_its_same. }
  destruct v as [sec ns]. cbn [tv_sec tv_nsec] in *.
  assert (Harmed : (sec =? 0) && (ns =? 0) = false).
  { apply andb_false_iff. right. apply Z.eqb_neq. lia. }
  split.
  - unfold bind at 1. unfold timer_slowdown at 1. rewrite bind_get, Hits.
    cbn [both it_interval it_value tv_sec tv_nsec]. rewrite Harmed.
    rewrite (long_small (LONG_MAX - speed_step_width)) by lia.
    replace (LONG_MAX - speed_step_width >=? ns) with true
      by (symmetry; rewrite Z.geb_leb; apply Z.leb_le; lia).
    rewrite (long_small (ns + speed_step_width)) by lia.
    rewrite timer_commit_spec. fold (both (mkTimespec sec (ns + speed_step_width))).
    rewrite Hup.
    unfold timer_accelerate. rewrite bind_get.
    cbn [set_timer_its set_timer timer timer_its both it_interval it_value
         tv_sec tv_nsec].
    replace ((sec =? 0) && (ns + speed_step_width =? 0)) with false
      by (symmetry; apply andb_false_iff; right; apply Z.eqb_neq; lia).
    replace (ns + speed_step_width >=? speed_step_width) with true
      by (symmetry; rewrite Z.geb_leb; apply Z.leb_le; lia).
    rewrite (long_small (ns + speed_step_width - speed_step_width)) by lia.
    replace (ns + speed_step_width - speed_step_width) with ns by lia.
    rewrite timer_commit_spec. rewrite set_timer_its_twice.
    fold (both (mkTimespec sec ns)). rewrite Hv, Hw. reflexivity.
  - unfold bind at 1. unfold timer_accelerate at 1. rewrite bind_get, Hits.
    cbn [both it_interval it_value tv_sec tv_nsec]. rewrite Harmed.
    replace (ns >=? speed_step_width) with true
      by (symmetry; rewrite Z.geb_leb; apply Z.leb_le; lia).
    rewrite (long_small (ns - speed_step_width)) by lia.
    rewrite timer_commit_spec. fold (both (mkTimespec sec (ns - speed_step_width))).
    rewrite Hdown.
    unfold timer_slowdown. rewrite bind_get.
    cbn [set_timer_its set_timer timer timer_its both it_interval it_value
         tv_sec tv_nsec].
    destruct (Z.eqb_spec sec 0) as [-> | Hsec]; cbn [andb].
    + destruct (Z.eqb_spec ns speed_step_width) as [-> | Hns].
      * rewrite Z.sub_diag. reflexivity.
      * replace (ns - speed_step_width =? 0) with false
          by (symmetry; apply Z.eqb_neq; lia).
        rewrite (long_small (LONG_MAX - speed_step_width)) by lia.
        replace (LONG_MAX - speed_step_width >=? ns - speed_step_width) with true
          by (symmetry; rewrite Z.geb_leb; apply Z.leb_le; lia).
        rewrite (long_small (ns - speed_step_width + speed_step_width)) by lia.
        replace (ns - speed_step_width + speed_step_width) with ns by lia.
        rewrite timer_commit_spec, set_timer_its_twice.
        fold (both (mkTimespec 0 ns)). rewrite Hv, Hw. reflexivity.
    + rewrite (long_small (LONG_MAX - speed_step_width)) by lia.
      replace (LONG_MAX - speed_step_width >=? ns - speed_step_width) with true
        by (symmetry; rewrite Z.geb_leb; apply Z.leb_le; lia).
      rewrite (long_small (ns - speed_step_width + speed_step_width)) by lia.
      replace (ns - speed_step_width + speed_step_width) with ns by lia.
      rewrite timer_commit_spec, set_timer_its_twice.
      fold (both (mkTimespec sec ns)). rewrite Hv, Hw. reflexivity.
Qed.

End TimerRoundTrip.

(** ** The start of the process *)

Section StartProperties.
Context {P : Platform}.

(** How [curses_setup] ends at the start of the process, when no level is
    loaded and the car is at the origin.  A playable area of no columns is
    refused over "Car out of screen after resize", one of no lines is
    accepted. *)
Theorem curses_setup_at_start (toggle_borders : bool) (cols lines : Z)
        (inp : list Event) :
  let w := set_curses (mkCurses cols lines) (static_world toggle_borders cols lines) in
  outcome (curses_setup inp (static_world toggle_borders cols lines))
  = if (GAMEWIN_COLS w <? 0) || (GAMEWIN_LINES w <? 0) then Exited TerminalTooSmall
    else if GAMEWIN_COLS w =? 0 then Exited CarOutOfScreen
    else if newwin (int (lines - 1)) cols 0 0
            && subwin (GAMEWIN_LINES w) (GAMEWIN_COLS w)
                      (if game_borders (game w) then 1 else 0)
                      (if game_borders (game w) then 1 else 0)
            && newwin 1 cols (int (lines - 1)) 0
         then Returned
         else Exited NcursesInit.
Proof.
  intros w. unfold curses_setup. rewrite !bind_exec.
  change (set_curses _ (set_curses _ (static_world toggle_borders cols lines))) with w.
  unfold curses_check_size. rewrite !bind_assoc, bind_get.
  change (game_cols (game w)) with 0. change (game_lines (game w)) with 0.
  change (pos_x (car_pos (car w))) with 0. change (pos_y (car_pos (car w))) with 0.
  rewrite !Z.gtb_ltb, !Z.geb_leb.
  destruct (Z.ltb_spec (GAMEWIN_COLS w) 0) as [Hc | Hc]; cbn [orb]; [reflexivity|].
  destruct (Z.ltb_spec (GAMEWIN_LINES w) 0) as [Hl | Hl]; cbn [orb]; [reflexivity|].
  rewrite orb_diag.
  destruct (Z.eqb_spec (GAMEWIN_COLS w) 0) as [E0 | N0].
  - replace (GAMEWIN_COLS w <=? 0) with true by (symmetry; apply Z.leb_le; lia).
    reflexivity.
  - replace (GAMEWIN_COLS w <=? 0) with false by (symmetry; apply Z.leb_gt; lia).
    unfold ret at 1. unfold bind at 1. rewrite bind_get.
    change (curses_lines (curses w)) with lines.
    change (curses_cols (curses w)) with cols.
    destruct (newwin (int (lines - 1)) cols 0 0); cbn [andb]; [|reflexivity].
    destruct (subwin _ _ _ _); cbn [andb]; [|reflexivity].
    destruct (newwin 1 cols (int (lines - 1)) 0) eqn:Ew; [|reflexivity].
    rewrite bind_exec. unfold curses_set_windows. rewrite bind_get.
    replace (newwin 1 (curses_cols (curses (curses_setup_colors w)))
               (int (curses_lines (curses (curses_setup_colors w)) - 1)) 0)
      with true; [reflexivity|].
    rewrite <- Ew. unfold curses_setup_colors.
    destruct (negb has_colors); reflexivity.
Qed.

End StartProperties.

(** ** The command line *)

(** The first option that is not [-b] decides what [main] does, and what
    follows it on the command line is not looked at; [-c], [-h], [-s] and
    [-v] write their text and return success, anything else writes the usage
    and returns failure.  [-b] is no toggle: given once or more often, it
    sets the border mode to the opposite of the default.  With no other
    option, [main] wants a level file, and plays once the handlers and the
    locale are set. *)
Theorem main_first_option_decides {P : Platform} (opts : list Z)
        (operand : option (option FILE)) (sigaction : Signal -> bool)
        (setlocale : bool) (cols lines : Z) (inp : list Event) :
  main opts operand sigaction setlocale cols lines inp
  = match find (fun opt => negb (opt =? 98)) opts with
    | Some opt =>
        if opt =? 99 then Return print_car_chars EXIT_SUCCESS
        else if opt =? 104 then Return Usage EXIT_SUCCESS
        else if opt =? 115 then
          Return (fst (print_max_levelsize (static_world false cols lines)))
                 EXIT_SUCCESS
        else if opt =? 118 then Return Version EXIT_SUCCESS
        else Return Usage EXIT_FAILURE
    | None =>
        match operand with
        | None => Return Usage EXIT_FAILURE
        | Some file =>
            match find (fun sig => negb (sigaction sig))
                       [SIGALRM; SIGCONT; SIGINT; SIGTERM] with
            | Some sig => SetupFailed (Sigaction sig)
            | None =>
                if setlocale
                then Run ((curses_setup ;; level_setup file ;; game_loop) inp
                            (static_world (existsb (Z.eqb 98) opts) cols lines))
                else SetupFailed Setlocale
            end
        end
    end.
Proof.
  unfold main.
  assert (Hopts : forall w,
    main_options opts w
    = match find (fun opt => negb (opt =? 98)) opts with
      | Some opt =>
          inl (if opt =? 99 then (print_car_chars, EXIT_SUCCESS)
               else if opt =? 104 then (Usage, EXIT_SUCCESS)
               else if opt =? 115 then (fst (print_max_levelsize w), EXIT_SUCCESS)
               else if opt =? 118 then (Version, EXIT_SUCCESS)
               else (Usage, EXIT_FAILURE))
      | None => inr (if existsb (Z.eqb 98) opts
                     then set_game_borders (negb default_borders) w else w)
      end).
  { induction opts as [|o opts IH]; intros w; [reflexivity|].
    cbn [main_options find existsb]. rewrite (Z.eqb_sym 98 o).
    destruct (o =? 98) eqn:Eo; cbn [negb orb].
    - rewrite IH. destruct (find _ opts); [reflexivity|].
      destruct (existsb _ opts); reflexivity.
    - destruct (o =? 99); [reflexivity|]. destruct (o =? 104); [reflexivity|].
      destruct (o =? 115); [reflexivity|]. destruct (o =? 118); reflexivity. }
  rewrite Hopts. destruct (find _ opts) as [o|].
  - destruct (o =? 99); [reflexivity|]. destruct (o =? 104); [reflexivity|].
    destruct (o =? 115); [reflexivity|]. destruct (o =? 118); reflexivity.
  - destruct operand as [file|]; [|reflexivity].
    unfold setup. cbn [find].
    destruct (sigaction SIGALRM); cbn [negb]; [|reflexivity].
    destruct (sigaction SIGCONT); cbn [negb]; [|reflexivity].
    destruct (sigaction SIGINT); cbn [negb]; [|reflexivity].
    destruct (sigaction SIGTERM); cbn [negb]; [|reflexivity].
    destruct setlocale; cbn [negb]; [|reflexivity].
    rewrite bind_assoc. destruct (existsb _ opts); reflexivity.
Qed.

(** ** Instances *)

Lemma car_move_wraps_columns_witness :
  let w := sample_world false in
  game_borders (game w) = false
  /\ 1 <= GAMEWIN_COLS w <= INT_MAX
  /\ car_pos (car (car_move (place RIGHT (GAMEWIN_COLS w - 1) 5 w))) = mkPos 0 5
  /\ car_pos (car (car_move (place LEFT 0 5 w))) = mkPos (GAMEWIN_COLS w - 1) 5.
Proof.
  cbv zeta.
  assert (H1 : game_borders (game (sample_world false)) = false) by reflexivity.
  assert (H2 : 1 <= GAMEWIN_COLS (sample_world false) <= INT_MAX)
    by (vm_compute; split; discriminate).
  split; [exact H1|]. split; [exact H2|].
  exact (car_move_wraps_columns (sample_world false) 5 H1 H2).
Defined.

Lemma timer_slowdown_stops_at_one_second_witness :
  let P := sample_platform blank_screen in
  let w := set_timer_its (both (mkTimespec 0 990000000)) (sample_world true) in
  @timer_slowdown P [] w
  = Died Strerror (set_timer_its (both (mkTimespec 0 1000000000)) w).
Proof.
  cbv zeta.
  assert (H1 : 0 <= 0) by lia.
  assert (H2 : 0 <= 990000000 < 1000000000) by lia.
  assert (H3 : 0 < 0 \/ 0 < 990000000) by (right; lia).
  exact (proj2 (@timer_slowdown_stops_at_one_second (sample_platform blank_screen)
                  (fun _ => eq_refl) 0 990000000 []
                  (set_timer_its (both (mkTimespec 0 990000000)) (sample_world true)))
               eq_refl H1 H2 H3).
Defined.

Lemma timer_accelerate_has_no_floor_witness :
  let P := sample_platform blank_screen in
  let w := sample_world true in
  timer_its (timer w) = both (mkTimespec 0 start_speed)
  /\ exists j : Z,
       0 <= j <= 25
       /\ @repeatM 25 (@timer_accelerate P) [] w
          = Ok tt [] (set_timer_its (both (mkTimespec 0 (j * speed_step_width))) w)
       /\ @repeatM 26 (@timer_accelerate P) [] w
          = Ok tt []
              (set_timer_its
                 (both (mkTimespec 0
                    ((if j =? 0 then 25 else j - 1) * speed_step_width))) w)
       /\ (if j =? 0 then 25 else j - 1) * speed_step_width <> j * speed_step_width.
Proof.
  cbv zeta. split; [reflexivity|].
  exact (@timer_accelerate_has_no_floor (sample_platform blank_screen)
           (fun its H => H) [] (sample_world true) 25%nat eq_refl).
Defined.

Lemma goal_before_crash_checks_witness :
  let P := sample_platform unreadable_screen in
  let w := boundary_goal_world in
  let inp := [Typed 110] in
  (pos_x (car_pos (car w)) = pos_x (goal_pos (goal w))
   /\ pos_y (car_pos (car w)) = pos_y (goal_pos (goal w))
   /\ game_borders (game w) = true
   /\ pos_x (car_pos (car w)) = GAMEWIN_COLS w)
  /\ @game_continue P inp w = @game_won P inp (game_update_screen w)
  /\ exists before later : list Action,
       surface (world_of (@game_continue P inp w))
       = later ++ Mscl "Won! Play again? [y/n]" :: before ++ surface w
       /\ forallb (fun a => negb (crash_check a)) before = true
       /\ forallb (fun a => negb (crash_check a)) later = true.
Proof.
  cbv zeta. split; [repeat split|].
  exact (@goal_before_crash_checks (sample_platform unreadable_screen)
           [Typed 110] boundary_goal_world eq_refl eq_refl).
Defined.

Lemma read_failure_ends_the_game_witness :
  let P := sample_platform unreadable_screen in
  let w := sample_world true in
  let w0 := sig_hdl SIGALRM (game_update_screen w) in
  let w1 := car_move w0 in
  ((exec game_update_screen ;; @curses_wgetch P gamewin) [tick] w = Ok (ERR, 0) [] w0
   /\ nonzero (timer_finished (timer w0)) = true
   /\ car_pos (car w1) = mkPos 6 5
   /\ goal_pos (goal w1) = mkPos 10 5
   /\ car_position_changed w1 = true
   /\ (0 <= 6 < GAMEWIN_COLS w1 /\ 0 <= 5 < GAMEWIN_LINES w1)
   /\ @mvwinnwstr P w1 5 6 = None)
  /\ @game_continue P [] w1 = Ok false [] (emit (Mvwinnwstr 5 6) w1)
  /\ @game_loop_body P [tick] w = Ok false [] (emit (Mvwinnwstr 5 6) w1)
  /\ @game_loop_from P 1 [tick] w = Ok tt [] (emit (Mvwinnwstr 5 6) w1).
Proof.
  cbv zeta.
  assert (Hin : 0 <= 6 < GAMEWIN_COLS (car_move (sig_hdl SIGALRM
                                (game_update_screen (sample_world true))))
                /\ 0 <= 5 < GAMEWIN_LINES (car_move (sig_hdl SIGALRM
                                (game_update_screen (sample_world true)))))
    by (vm_compute; repeat split; discriminate).
  split; [repeat split; try reflexivity; apply Hin|].
  exact (@read_failure_ends_the_game (sample_platform unreadable_screen)
           0%nat [tick] [] (sample_world true)
           (sig_hdl SIGALRM (game_update_screen (sample_world true))) 0
           eq_refl eq_refl eq_refl eq_refl (or_intror Hin) eq_refl).
Defined.

(** C1, as the spec has it, fails: with a cell under the car that cannot be
    read, the tick ends the loop; with the same cell blank the loop goes on
    to its next turn and waits there for a key. *)
Lemma read_failure_is_not_benign :
  let w0 := sig_hdl SIGALRM (game_update_screen (sample_world true)) in
  let w1 := car_move w0 in
  (nonzero (timer_finished (timer w0)) = true
   /\ car_pos (car w1) = mkPos 6 5
   /\ goal_pos (goal w1) = mkPos 10 5
   /\ car_position_changed w1 = true
   /\ (0 <= 6 < GAMEWIN_COLS w1 /\ 0 <= 5 < GAMEWIN_LINES w1))
  /\ @game_loop_interrupted (sample_platform unreadable_screen) [] w0
     = Ok false [] (emit (Mvwinnwstr 5 6) w1)
  /\ @game_loop_from (sample_platform unreadable_screen) 2 [tick] (sample_world true)
     = Ok tt [] (emit (Mvwinnwstr 5 6) w1)
  /\ @game_loop_interrupted (sample_platform blank_screen) [] w0
     = Ok true [] (set_timer_finished 0 (emit (Mvwinnwstr 5 6) w1))
  /\ @game_loop_from (sample_platform blank_screen) 2 [tick] (sample_world true)
     = Starved (game_update_screen (set_timer_finished 0 (emit (Mvwinnwstr 5 6) w1))).
Proof.
  cbv zeta. repeat split; try reflexivity; vm_compute; discriminate.
Qed.

(** C2, as the spec has it, fails: with a tick and a resize request both
    pending, the order resize, termination, tick would handle the resize;
    the loop handles the tick, advances the car, clears the tick flag and
    leaves the resize request pending. *)
Lemma resize_is_not_inspected_first :
  let P := sample_platform blank_screen in
  let w := sig_hdl SIGCONT (sig_hdl SIGALRM (sample_world true)) in
  let w' := world_of (@game_loop_interrupted P [] w) in
  first_pending [ResizeRequest; TerminationRequest; TickFired] w = Some ResizeRequest
  /\ @game_loop_interrupted P [] w = @handle P TickFired [] w
  /\ @game_loop_interrupted P [] w
     <> @handle_first_pending P [ResizeRequest; TerminationRequest; TickFired] [] w
  /\ car_pos (car w) = mkPos 5 5
  /\ car_pos (car w') = mkPos 6 5
  /\ pending TickFired w' = false
  /\ pending ResizeRequest w' = true.
Proof.
  cbv zeta. repeat split; try reflexivity.
  vm_compute. discriminate.
Qed.

Lemma position_unchanged_needs_wrap_mode_witness :
  let P := sample_platform blank_screen in
  let w := sample_world true in
  let w0 := sig_hdl SIGALRM (game_update_screen w) in
  ((exec game_update_screen ;; @curses_wgetch P gamewin) [tick] w = Ok (ERR, 0) [] w0
   /\ game_borders (game w0) = true
   /\ INT_MIN < 5 < INT_MAX)
  /\ car_pos (car (car_move (place RIGHT 5 5 w0))) = mkPos (5 + 1) 5
  /\ car_pos (car (car_move w0)) <> car_pos (car w0)
  /\ car_position_changed (car_move w0) = true
  /\ exists v : World,
       game_borders (game v) = false
       /\ GAMEWIN_COLS v = 1
       /\ car_old_pos (car v) = car_pos (car v)
       /\ car_position_changed (car_move v) = false
       /\ @game_continue P [] (car_move v) = Ok true [] (car_move v).
Proof.
  cbv zeta.
  assert (H5 : INT_MIN < 5 < INT_MAX) by (vm_compute; split; reflexivity).
  split; [repeat split; try reflexivity; apply H5|].
  exact (@position_unchanged_needs_wrap_mode (sample_platform blank_screen)
           [tick] [] (sample_world true)
           (sig_hdl SIGALRM (game_update_screen (sample_world true)))
           (ERR, 0) RIGHT 5 5 eq_refl eq_refl H5 H5).
Defined.

Lemma leaving_the_area_is_a_crash_witness :
  let P := sample_platform unreadable_screen in
  let w := place RIGHT 77 5 (sample_world true) in
  let w0 := set_car (set_car_old_pos (mkPos 77 5) (car w)) w in
  (game_borders (game w0) = true
   /\ GAMEWIN_COLS w0 = 78
   /\ car_direction (car w0) = RIGHT
   /\ car_pos (car w0) = mkPos 77 5
   /\ car_old_pos (car w0) = car_pos (car w0)
   /\ goal_pos (goal w0) = mkPos 10 5)
  /\ car_pos (car (car_move w0)) = mkPos (GAMEWIN_COLS w0) 5
  /\ @game_continue P [Typed 110] (car_move w0) = @game_over P [Typed 110] (car_move w0)
  /\ exists later : list Action,
       surface (world_of (@game_continue P [Typed 110] (car_move w0)))
       = later ++ Mscl "Game over. Play again? [y/n]" :: surface w0
       /\ forallb drawing later = true.
Proof.
  cbv zeta. split; [repeat split|].
  refine (@leaving_the_area_is_a_crash (sample_platform unreadable_screen)
            [Typed 110]
            (set_car (set_car_old_pos (mkPos 77 5)
                        (car (place RIGHT 77 5 (sample_world true))))
                     (place RIGHT 77 5 (sample_world true)))
            5 eq_refl _ eq_refl eq_refl eq_refl _).
  - vm_compute. split; [discriminate | reflexivity].
  - discriminate.
Defined.

Lemma resize_too_small_is_fatal_witness :
  let P := sample_platform blank_screen in
  let w := set_term 4 24 (set_game_cols 3 (sample_world true)) in
  let w1 := set_curses (mkCurses (COLS w) (LINES w)) w in
  (game_cols (game w) = 3 /\ GAMEWIN_COLS w1 = 2)
  /\ @game_resize P [] w = Died TerminalTooSmall w1.
Proof.
  cbv zeta. split; [split; reflexivity|].
  refine (@resize_too_small_is_fatal (sample_platform blank_screen) []
            (set_term 4 24 (set_game_cols 3 (sample_world true))) (or_introl _)).
  vm_compute. reflexivity.
Defined.

Lemma play_again_yes_resets_witness :
  let P := sample_platform blank_screen in
  let w := place UP 20 7 (sample_world true) in
  @timer_settime P (both (mkTimespec 0 0)) = true
  /\ exists w' : World,
       @game_play_again P "Won! Play again? [y/n]" [Typed 121; Typed 113] w
       = Ok true [Typed 113] w'
       /\ car_pos (car w') = car_start_pos (car w)
       /\ car_old_pos (car w') = car_start_pos (car w)
       /\ car_direction (car w') = car_start_direction (car w)
       /\ timer_its (timer w') = both (mkTimespec 0 0)
       /\ surface w'
          = [Mvwaddch (pos_y (car_old_pos (car w))) (pos_x (car_old_pos (car w))) SPACE;
             Mscl_clear; Mscl "Won! Play again? [y/n]"] ++ surface w.
Proof.
  cbv zeta. split; [reflexivity|].
  exact (@play_again_yes_resets (sample_platform blank_screen)
           "Won! Play again? [y/n]" [Typed 113]
           (place UP 20 7 (sample_world true)) eq_refl).
Defined.

Lemma timer_value_is_interval_witness :
  let P := sample_platform blank_screen in
  let w := sample_world true in
  In (@timer_slowdown P) [@timer_accelerate P; @timer_slowdown P; @timer_reset P;
                          @timer_set P start_speed]
  /\ it_value (timer_its (timer w)) = it_interval (timer_its (timer w))
  /\ it_value (timer_its (timer (world_of (@timer_slowdown P [] w))))
     = it_interval (timer_its (timer (world_of (@timer_slowdown P [] w)))).
Proof.
  cbv zeta.
  assert (Hin : In (@timer_slowdown (sample_platform blank_screen))
                   [@timer_accelerate (sample_platform blank_screen);
                    @timer_slowdown (sample_platform blank_screen);
                    @timer_reset (sample_platform blank_screen);
                    @timer_set (sample_platform blank_screen) start_speed])
    by (right; left; reflexivity).
  split; [exact Hin|]. split; [reflexivity|].
  exact (@timer_value_is_interval (sample_platform blank_screen) _ []
           (sample_world true) Hin eq_refl).
Defined.

Lemma level_init_locates_markers_witness :
  let P := sample_platform blank_screen in
  let field := [[32; 32; 120]; [32; 32; 32]; [8594; 32; 32]] in   (* "  x", "   ", "→  " *)
  let w := set_game_lines 3 (set_game_field field (started_world blank_screen)) in
  (game_lines (game w) = Z.of_nat (List.length (game_field (game w)))
   /\ goal_markers (game_field (game w)) = 1
   /\ start_markers (game_field (game w)) = 1)
  /\ exists w' : World,
       @level_init P [] w = Ok tt [] w'
       /\ goal_markers (game_field (game w')) = 1
       /\ start_markers (game_field (game w')) = 0
       /\ List.length (game_field (game w')) = List.length (game_field (game w)).
Proof.
  cbv zeta. split; [repeat split|].
  refine (@level_init_locates_markers (sample_platform blank_screen) []
            (set_game_lines 3
               (set_game_field [[32; 32; 120]; [32; 32; 32]; [8594; 32; 32]]
                  (started_world blank_screen)))
            eq_refl _ _ _ eq_refl eq_refl _).
  - vm_compute. discriminate.
  - intros row _. cbn [wcswidth sample_platform]. lia.
  - vm_compute. reflexivity.
  - intros row [<- | [<- | [<- | []]]]; [right | right | left]; reflexivity.
Defined.

Lemma slowdown_to_one_second_exits_witness :
  let P := sample_platform blank_screen in
  let w := sample_world true in
  timer_its (timer w) = both (mkTimespec 0 start_speed)
  /\ @repeatM 75 (@timer_slowdown P) [] w
     = Died Strerror (set_timer_its (both (mkTimespec 0 1000000000)) w).
Proof.
  cbv zeta. split; [reflexivity|].
  exact (@slowdown_to_one_second_exits (sample_platform blank_screen)
           (fun its => eq_refl) [] (sample_world true) eq_refl).
Defined.

Lemma car_move_stays_inside_witness :
  let w := place RIGHT 79 5 (sample_world false) in
  (game_borders (game w) = false /\ GAMEWIN_COLS w <= INT_MAX /\ car_inside w)
  /\ car_inside (car_move w).
Proof.
  cbv zeta.
  assert (H : game_borders (game (place RIGHT 79 5 (sample_world false))) = false
              /\ GAMEWIN_COLS (place RIGHT 79 5 (sample_world false)) <= INT_MAX
              /\ car_inside (place RIGHT 79 5 (sample_world false))).
  { unfold car_inside. vm_compute. repeat split; try reflexivity; discriminate. }
  split; [exact H|].
  exact (car_move_stays_inside _ (proj1 H) (proj1 (proj2 H)) (proj2 (proj2 H))).
Defined.

Lemma car_go_back_and_forth_witness :
  let w := place LEFT 0 0 (sample_world false) in
  (game_borders (game w) = false /\ GAMEWIN_COLS w <= INT_MAX /\ car_inside w)
  /\ car_go_left (car_go_right w) = w
  /\ car_go_right (car_go_left w) = w
  /\ car_go_up (car_go_down w) = w
  /\ car_go_down (car_go_up w) = w.
Proof.
  cbv zeta.
  assert (H : game_borders (game (place LEFT 0 0 (sample_world false))) = false
              /\ GAMEWIN_COLS (place LEFT 0 0 (sample_world false)) <= INT_MAX
              /\ car_inside (place LEFT 0 0 (sample_world false))).
  { unfold car_inside. vm_compute. repeat split; try reflexivity; discriminate. }
  split; [exact H|].
  exact (car_go_back_and_forth _ (proj1 H) (proj1 (proj2 H)) (proj2 (proj2 H))).
Defined.

Lemma car_move_comes_round_witness :
  let w := place UP 5 5 (sample_world false) in
  (game_borders (game w) = false /\ GAMEWIN_COLS w <= INT_MAX /\ car_inside w)
  /\ Nat.iter (Z.to_nat (match car_direction (car w) with
                         | LEFT | RIGHT => GAMEWIN_COLS w
                         | UP | DOWN => GAMEWIN_LINES w
                         end)) car_move w = w.
Proof.
  cbv zeta.
  assert (H : game_borders (game (place UP 5 5 (sample_world false))) = false
              /\ GAMEWIN_COLS (place UP 5 5 (sample_world false)) <= INT_MAX
              /\ car_inside (place UP 5 5 (sample_world false))).
  { unfold car_inside. vm_compute. repeat split; try reflexivity; discriminate. }
  split; [exact H|].
  exact (car_move_comes_round _ (proj1 H) (proj1 (proj2 H)) (proj2 (proj2 H))).
Defined.

Lemma signals_are_not_counted_witness :
  let w := sample_world true in
  (forall s, In s [SIGALRM; SIGCONT; SIGALRM] <-> In s [SIGCONT; SIGALRM])
  /\ wget_wch (Signalled [SIGALRM; SIGCONT; SIGALRM] 0) w
     = wget_wch (Signalled [SIGCONT; SIGALRM] 0) w.
Proof.
  cbv zeta.
  assert (H : forall s, In s [SIGALRM; SIGCONT; SIGALRM] <-> In s [SIGCONT; SIGALRM]).
  { intros s. cbn [In]. tauto. }
  split; [exact H|].
  exact (signals_are_not_counted _ _ 0 (sample_world true) H).
Defined.

Lemma input_error_costs_the_message_witness :
  let P := sample_platform blank_screen in
  let w := mscl "Won! Play again? [y/n]" (sample_world true) in
  let r := @curses_wgetch P msclwin [Failed 0; Typed 122] w in
  r = Ok (OK, 122) [] (world_of r)
  /\ exists between,
       surface (world_of r)
       = Mscl_clear :: between ++ Mscl "Input Error" :: Mscl_clear :: surface w.
Proof.
  cbv zeta.
  assert (H : @curses_wgetch (sample_platform blank_screen) msclwin
                [Failed 0; Typed 122]
                (mscl "Won! Play again? [y/n]" (sample_world true))
              = Ok (OK, 122) []
                   (world_of (@curses_wgetch (sample_platform blank_screen) msclwin
                                [Failed 0; Typed 122]
                                (mscl "Won! Play again? [y/n]" (sample_world true)))))
    by (vm_compute; reflexivity).
  split; [exact H|].
  exact (@input_error_costs_the_message (sample_platform blank_screen) msclwin 0
           [Typed 122] [] _ _ _ H).
Defined.

Lemma curses_wgetch_returns_a_key_witness :
  let P := sample_platform blank_screen in
  let w := sample_world true in
  let inp := [Resized 100 30; Pressed KEY_LEFT; Typed 97] in
  let r := @curses_wgetch P gamewin inp w in
  r = Ok (KEY_CODE_YES, KEY_LEFT) [Typed 97] (world_of r)
  /\ (KEY_CODE_YES = OK \/ (KEY_CODE_YES = KEY_CODE_YES /\ KEY_LEFT <> KEY_RESIZE)
      \/ KEY_CODE_YES = ERR)
  /\ Nat.lt (List.length [Typed 97]) (List.length inp).
Proof.
  cbv zeta.
  assert (H : @curses_wgetch (sample_platform blank_screen) gamewin
                [Resized 100 30; Pressed KEY_LEFT; Typed 97] (sample_world true)
              = Ok (KEY_CODE_YES, KEY_LEFT) [Typed 97]
                   (world_of (@curses_wgetch (sample_platform blank_screen) gamewin
                                [Resized 100 30; Pressed KEY_LEFT; Typed 97]
                                (sample_world true))))
    by (vm_compute; reflexivity).
  split; [exact H|].
  exact (@curses_wgetch_returns_a_key (sample_platform blank_screen) gamewin
           _ _ _ _ _ _ H).
Defined.

Lemma game_loop_stays_coherent_witness :
  let P := sample_platform blank_screen in
  let w := sample_world true in
  coherent w
  /\ coherent (world_of (@game_loop P [Typed 97; Pressed KEY_LEFT; tick; Typed 113] w)).
Proof.
  cbv zeta.
  assert (H : coherent (sample_world true)) by (split; reflexivity).
  split; [exact H|].
  exact (@game_loop_stays_coherent (sample_platform blank_screen) _ _ H).
Defined.

Lemma level_file_read_lines_witness :
  let P := sample_platform blank_screen in
  let rows := [[32; 32; 120]; []; [8594; 32; 32]] in       (* "  x", "", "→  " *)
  let last := [32; 32] in                                  (* no newline at the end *)
  let w := started_world blank_screen in
  (Forall (@plain_line P) rows
   /\ ~ In NEWLINE last /\ ~ In NUL last
   /\ (Z.of_nat (List.length last) + 1) * @sizeof_wchar_t P <= @BUFSIZ P
   /\ @BUFSIZ P + @BUFSIZ P <= INT_MAX
   /\ lines_of rows last <> []
   /\ Z.of_nat (List.length (lines_of rows last)) < INT_MAX)
  /\ @level_file_read P (Some (mkFILE (unlines rows ++ last) false)) [] w
     = Ok tt [] (set_game_lines 4 (set_game_field (rows ++ [last]) w)).
Proof.
  cbv zeta.
  assert (Hno : forall (c : wchar_t) (row : list wchar_t),
                  forallb (fun a => negb (a =? c)) row = true -> ~ In c row).
  { intros c row H Hin. rewrite forallb_forall in H. specialize (H c Hin).
    rewrite Z.eqb_refl in H. discriminate H. }
  assert (H1 : Forall (@plain_line (sample_platform blank_screen))
                 [[32; 32; 120]; []; [8594; 32; 32]]).
  { repeat constructor; try (apply Hno; reflexivity); vm_compute; discriminate. }
  assert (H2 : ~ In NEWLINE [32; 32]) by (apply Hno; reflexivity).
  assert (H3 : ~ In NUL [32; 32]) by (apply Hno; reflexivity).
  assert (H4 : (Z.of_nat (List.length [32; 32]) + 1)
               * @sizeof_wchar_t (sample_platform blank_screen)
               <= @BUFSIZ (sample_platform blank_screen))
    by (vm_compute; discriminate).
  assert (H5 : @BUFSIZ (sample_platform blank_screen)
               + @BUFSIZ (sample_platform blank_screen) <= INT_MAX)
    by (vm_compute; discriminate).
  assert (H6 : lines_of [[32; 32; 120]; []; [8594; 32; 32]] [32; 32] <> [])
    by discriminate.
  assert (H7 : Z.of_nat (List.length
                           (lines_of [[32; 32; 120]; []; [8594; 32; 32]] [32; 32]))
               < INT_MAX)
    by (vm_compute; reflexivity).
  split; [repeat split; assumption|].
  exact (@level_file_read_lines (sample_platform blank_screen) _ _ []
           (started_world blank_screen) H1 H2 H3 H4 H5 H6 H7).
Defined.

Lemma level_file_read_overruns_witness :
  let P := sample_platform blank_screen in
  let rows := [[32; 32; 120]] in                           (* "  x" *)
  let long := repeat 32 (Z.to_nat 2047) in                 (* 2047 blanks *)
  let rest := [8594; 32; 32; 10] in                        (* "→  " and a newline *)
  let w := started_world blank_screen in
  (Forall (@plain_line P) rows /\ ~ In NEWLINE long
   /\ 2 <= @sizeof_wchar_t P
   /\ @BUFSIZ P < (Z.of_nat (List.length long) + 2) * @sizeof_wchar_t P
   /\ Z.of_nat (List.length rows) < INT_MAX)
  /\ outcome (@level_file_read P
                (Some (mkFILE (unlines rows ++ long ++ NEWLINE :: rest) false)) [] w)
     = Exited BufferOverrun.
Proof.
  cbv zeta.
  assert (Hno : forall (c : wchar_t) (row : list wchar_t),
                  forallb (fun a => negb (a =? c)) row = true -> ~ In c row).
  { intros c row H Hin. rewrite forallb_forall in H. specialize (H c Hin).
    rewrite Z.eqb_refl in H. discriminate H. }
  assert (H1 : Forall (@plain_line (sample_platform blank_screen)) [[32; 32; 120]]).
  { repeat constructor; try (apply Hno; reflexivity); vm_compute; discriminate. }
  assert (H2 : ~ In NEWLINE (repeat 32 (Z.to_nat 2047))).
  { intros H. apply repeat_spec in H. discriminate H. }
  assert (H3 : 2 <= @sizeof_wchar_t (sample_platform blank_screen))
    by (vm_compute; discriminate).
  assert (H4 : @BUFSIZ (sample_platform blank_screen)
               < (Z.of_nat (List.length (repeat 32 (Z.to_nat 2047))) + 2)
                 * @sizeof_wchar_t (sample_platform blank_screen))
    by (vm_compute; reflexivity).
  assert (H5 : Z.of_nat (List.length [[32; 32; 120]]) < INT_MAX)
    by (vm_compute; reflexivity).
  split; [repeat split; assumption|].
  exact (@level_file_read_overruns (sample_platform blank_screen) _ _
           [8594; 32; 32; 10] false [] (started_world blank_screen) H1 H2 H3 H4 H5).
Defined.

Lemma level_init_needs_widths_witness :
  let P := printing_platform in
  let field := [[32; 32; 120]; [9; 32; 32]; [8594; 32; 32]] in  (* a tab in the second row *)
  let w := set_game_lines 3 (set_game_field field (sample_world true)) in
  (game_lines (game w) = Z.of_nat (List.length (game_field (game w)))
   /\ Z.of_nat (List.length (game_field (game w))) <= INT_MAX
   /\ Exists (fun row => @wcswidth P row = -1) (game_field (game w)))
  /\ outcome (@level_init P [] w) = Exited WcswidthFailed.
Proof.
  cbv zeta.
  assert (H3 : Exists (fun row => @wcswidth printing_platform row = -1)
                 [[32; 32; 120]; [9; 32; 32]; [8594; 32; 32]])
    by (right; left; reflexivity).
  assert (H2 : Z.of_nat (List.length [[32; 32; 120]; [9; 32; 32]; [8594; 32; 32]])
               <= INT_MAX)
    by (vm_compute; discriminate).
  split; [repeat split; assumption|].
  exact (@level_init_needs_widths printing_platform []
           (set_game_lines 3
              (set_game_field [[32; 32; 120]; [9; 32; 32]; [8594; 32; 32]]
                 (sample_world true)))
           eq_refl H2 H3).
Defined.

Lemma level_init_places_the_markers_witness :
  let P := sample_platform blank_screen in
  let field := [[32; 32; 120]; [32; 32; 32]; [8594; 32; 32]] in   (* "  x", "   ", "→  " *)
  let w := set_game_lines 3 (set_game_field field (started_world blank_screen)) in
  let accents := [[769; 769; 769; 769; 769; 769; 120]; [8594]] in (* six accents before "x" *)
  let v := set_game_lines 2 (set_game_field accents (started_world blank_screen)) in
  (goal_rows field = 1 /\ start_rows field = 1
   /\ wcschr [32; 32; 120] chars_goal = Some 2
   /\ wcschr_car [8594; 32; 32] = Some (0, RIGHT)
   /\ @widest P field (game_cols (game w)) = 3
   /\ @widest combining_platform accents (game_cols (game v)) = 1
   /\ wcschr [769; 769; 769; 769; 769; 769; 120] chars_goal = Some 6)
  /\ (exists w' : World,
        @level_init P [] w = Ok tt [] w'
        /\ game_cols (game w') = 3
        /\ game_x_offset (game w') = 37 /\ game_y_offset (game w') = 9
        /\ goal_pos (goal w') = mkPos 39 9
        /\ car_start_pos (car w') = mkPos 37 11
        /\ car_start_direction (car w') = RIGHT)
  /\ outcome (@level_init combining_platform [] v) = Exited BufferOverrun.
Proof.
  cbv zeta. split; [repeat split|]. split.
  - refine (proj1 (@level_init_places_the_markers (sample_platform blank_screen) []
                     (set_game_lines 3
                        (set_game_field [[32; 32; 120]; [32; 32; 32]; [8594; 32; 32]]
                           (started_world blank_screen)))
                     0%nat 2%nat [32; 32; 120] [8594; 32; 32] 2 0 RIGHT
                     eq_refl _ _ eq_refl eq_refl eq_refl eq_refl _ eq_refl eq_refl
                     eq_refl _ _) _ _).
    + vm_compute. discriminate.
    + repeat constructor; vm_compute; discriminate.
    + vm_compute. discriminate.
    + vm_compute. discriminate.
    + vm_compute. split; [discriminate | reflexivity].
    + vm_compute. discriminate.
    + vm_compute. discriminate.
  - refine (proj2 (@level_init_places_the_markers combining_platform []
                     (set_game_lines 2
                        (set_game_field
                           [[769; 769; 769; 769; 769; 769; 120]; [8594]]
                           (started_world blank_screen)))
                     0%nat 1%nat [769; 769; 769; 769; 769; 769; 120] [8594] 6 0 RIGHT
                     eq_refl _ _ eq_refl eq_refl eq_refl eq_refl _ eq_refl eq_refl
                     eq_refl _ _) _).
    + vm_compute. discriminate.
    + repeat constructor; vm_compute; discriminate.
    + vm_compute. discriminate.
    + vm_compute. discriminate.
    + vm_compute. split; [discriminate | reflexivity].
    + left. vm_compute. reflexivity.
Defined.

Lemma level_setup_starts_inside_witness :
  let P := sample_platform blank_screen in
  let text := [32; 32; 120; 10; 32; 32; 32; 10; 8594; 32; 32; 10] in
  let w := started_world blank_screen in
  let r := @level_setup P (Some (mkFILE text false)) [] w in
  (GAMEWIN_COLS w <= INT_MAX /\ r = Ok tt [] (world_of r))
  /\ car_pos (car (world_of r)) = car_start_pos (car (world_of r))
  /\ car_old_pos (car (world_of r)) = car_start_pos (car (world_of r))
  /\ car_direction (car (world_of r)) = car_start_direction (car (world_of r))
  /\ car_car (car (world_of r))
     = glyph (car_direction (car (world_of r))) (car (world_of r))
  /\ inside (world_of r) (car_pos (car (world_of r)))
  /\ inside (world_of r) (goal_pos (goal (world_of r)))
  /\ pos_y (car_pos (car (world_of r))) <> pos_y (goal_pos (goal (world_of r))).
Proof.
  cbv zeta.
  assert (Hgrows : forall (row : list wchar_t) (k : nat),
             @wcswidth (sample_platform blank_screen) row <> -1 ->
             (k < List.length row)%nat ->
             0 <= @wcswidth (sample_platform blank_screen) (firstn k row)
             < @wcswidth (sample_platform blank_screen) row).
  { intros row k _ Hk. cbn [wcswidth sample_platform].
    rewrite firstn_length_le by lia. lia. }
  assert (H1 : GAMEWIN_COLS (started_world blank_screen) <= INT_MAX)
    by (vm_compute; discriminate).
  assert (H2 : @level_setup (sample_platform blank_screen)
                 (Some (mkFILE [32; 32; 120; 10; 32; 32; 32; 10; 8594; 32; 32; 10]
                               false)) [] (started_world blank_screen)
               = Ok tt []
                   (world_of
                      (@level_setup (sample_platform blank_screen)
                         (Some (mkFILE [32; 32; 120; 10; 32; 32; 32; 10;
                                        8594; 32; 32; 10] false)) []
                         (started_world blank_screen))))
    by (vm_compute; reflexivity).
  split; [split; assumption|].
  exact (proj2 (@level_setup_starts_inside (sample_platform blank_screen) Hgrows
                  _ [] [] _ _ H1 H2)).
Defined.

Lemma level_draw_rows_witness :
  let field := [[32; 32; 120]; [32; 32; 32]; [8594; 32; 32]] in
  let w := set_game_offsets 37 9
             (set_game_lines 3 (set_game_field field (sample_world true))) in
  game_lines (game w) <= INT_MAX
  /\ level_draw w
     = set_surface [Mvwaddwstr 11 37 [8594; 32; 32]; Mvwaddwstr 10 37 [32; 32; 32];
                    Mvwaddwstr 9 37 [32; 32; 120]] w.
Proof.
  cbv zeta.
  assert (H : game_lines (game (set_game_offsets 37 9
                (set_game_lines 3
                   (set_game_field [[32; 32; 120]; [32; 32; 32]; [8594; 32; 32]]
                      (sample_world true))))) <= INT_MAX)
    by (vm_compute; discriminate).
  split; [exact H|].
  exact (level_draw_rows _ H).
Defined.

Lemma resize_can_leave_the_car_below_witness :
  let P := sample_platform blank_screen in
  let w := set_term 80 10
             (place DOWN 40 20
                (set_game_offsets 37 9
                   (set_game_cols 3 (set_game_lines 3 (sample_world true))))) in
  let resized := set_curses (mkCurses (COLS w) (LINES w)) w in
  (GAMEWIN_LINES w = 21 /\ GAMEWIN_LINES resized = 7 /\ GAMEWIN_COLS resized = 78
   /\ pos_y (car_pos (car w)) = 20 /\ game_y_offset (game w) = 9
   /\ game_lines (game w) = 3)
  /\ exists w' : World,
       @game_resize P [] w = Ok tt [] w'
       /\ GAMEWIN_LINES w' <= pos_y (car_pos (car w')).
Proof.
  cbv zeta. split; [repeat split|].
  refine (@resize_can_leave_the_car_below (sample_platform blank_screen) []
            (set_term 80 10
               (place DOWN 40 20
                  (set_game_offsets 37 9
                     (set_game_cols 3 (set_game_lines 3 (sample_world true))))))
            _ _ _ _ eq_refl _ _ _);
    vm_compute; repeat split; try reflexivity; discriminate.
Defined.

Lemma keys_do_not_move_the_car_witness :
  let P := sample_platform blank_screen in
  let w := sample_world true in
  ((exists c, Pressed KEY_LEFT = Typed c)
   \/ (exists k, Pressed KEY_LEFT = Pressed k /\ k <> KEY_RESIZE))
  /\ parked w (world_of (@game_loop_body P [Pressed KEY_LEFT; tick] w)).
Proof.
  cbv zeta.
  assert (H : (exists c, Pressed KEY_LEFT = Typed c)
              \/ (exists k, Pressed KEY_LEFT = Pressed k /\ k <> KEY_RESIZE)).
  { right. exists KEY_LEFT. split; [reflexivity | discriminate]. }
  split; [exact H|].
  exact (@keys_do_not_move_the_car (sample_platform blank_screen) _ [tick]
           (sample_world true) H).
Defined.

Lemma timer_steps_undo_each_other_witness :
  let P := sample_platform blank_screen in
  let w := sample_world true in
  let v := mkTimespec 0 start_speed in
  (timer_its (timer w) = both v
   /\ speed_step_width <= tv_nsec v
   /\ tv_nsec v + speed_step_width <= @LONG_MAX P
   /\ @timer_settime P (both v) = true
   /\ @timer_settime P (both (mkTimespec 0 (start_speed + speed_step_width))) = true
   /\ @timer_settime P (both (mkTimespec 0 (start_speed - speed_step_width))) = true)
  /\ (@timer_slowdown P ;; @timer_accelerate P) [] w = Ok tt [] w
  /\ (@timer_accelerate P ;; @timer_slowdown P) [] w = Ok tt [] w.
Proof.
  cbv zeta.
  assert (H2 : speed_step_width <= tv_nsec (mkTimespec 0 start_speed))
    by (vm_compute; discriminate).
  assert (H3 : tv_nsec (mkTimespec 0 start_speed) + speed_step_width
               <= @LONG_MAX (sample_platform blank_screen))
    by (vm_compute; discriminate).
  split; [repeat split; assumption|].
  exact (@timer_steps_undo_each_other (sample_platform blank_screen) []
           (sample_world true) (mkTimespec 0 start_speed)
           eq_refl H2 H3 eq_refl eq_refl eq_refl).
Defined.
